(** * SillyTavern-Admin-Utility: the batch mutation core

    A shallow embedding of the repository's core and the properties its
    specification states about it.  The modules follow the source files:

    - [Js]              JavaScript values, strings as UTF-16 code units
    - [JSON]            a reference [JSON.parse]
    - [Lodash]          [lodash.get] and [lodash.set] on plain data
    - [JsonMerge]       src/lib/json-merge.js
    - [Heap]            [applyMutations] on objects shared by reference
    - [Fs]              [node:fs], [node:path], the clock and the console
    - [StPaths]         src/config.js, src/lib/st-paths.js
    - [ContentIndex]    src/lib/content-index.js
    - [Backup]          src/backup.js
    - [Symlinks]        src/modules/lorebook-symlinks.js
    - [Batch]           src/batch.js, [batchOperation]
    - [BulkSettings]    src/modules/bulk-settings.js
    - [ResetContentLog], [BulkDelete], [PushCharacters]
                        the unit operations of the remaining modules
    - [Protocol]        the backup-before-write protocol over all of them
    - [MutatorFacts]    what the Settings Mutator does to a plain document
    - [FsFacts]         the calls of [node:fs], one by one
    - [BackupOps]       src/modules/backup-ops.js
    - [DryRun]          a dry run changes nothing
    - [RealRun]         what a real run leaves on disk
    - [LinkFacts]       the lorebook links, run for run
    - [IndexFacts], [ScaffoldEditor]
                        src/lib/content-index.js, src/modules/scaffold-editor.js
    - [ScaffoldPush]    [scaffoldPush] of src/modules/push-characters.js
    - [TimestampFacts], [BatchFacts]
                        the backup timestamp, batches in parts
    - [Users]           src/users.js
    - [ConfigLoader]    src/config.js, [loadConfig]

    A computation that can throw returns a [Res]; a computation on the file
    system is a function of the world that also logs the calls it makes. *)

From Stdlib Require Import ZArith NArith List String Ascii Bool Lia Sorted.
From stdpp Require Import base option list gmap.
Import ListNotations.

Local Open Scope list_scope.

(* ===================================================================== *)
(** * JavaScript values                                                   *)
(* ===================================================================== *)

Module Js.

(** A string is its sequence of UTF-16 code units. *)
Definition jsstring := list N.

(** [str "abc"] is the JavaScript string literal ['abc'] (ASCII text). *)
Definition str (s : string) : jsstring :=
  List.map N_of_ascii (list_ascii_of_string s).

(** [s] between double quotes. *)
Definition quoted (s : jsstring) : jsstring := [34%N] ++ s ++ [34%N].

(** Numbers are kept as the exact decimal they denote, [mant * 10 ^ expo]
    with [expo <= 0], in lowest terms (an integer [z] is [Dec z 0]); the
    rounding of IEEE doubles, [NaN], the infinities and the sign of zero are
    outside the model. *)
Record number := Dec { mant : Z; expo : Z }.

(** Decimal digits ['0'..'9'] and the numerals made of them. *)
Definition is_digit (c : N) : bool := N.leb 48 c && N.leb c 57.

Fixpoint span_digits (s : jsstring) : jsstring * jsstring :=
  match s with
  | c :: s' =>
      if is_digit c then let (ds, rest) := span_digits s' in (c :: ds, rest)
      else ([], s)
  | [] => ([], [])
  end.

Definition digits_value (ds : jsstring) : Z :=
  fold_left (fun acc d => (10 * acc + Z.of_N (d - 48))%Z) ds 0%Z.

(** [m * 10 ^ e] in lowest terms: an integer has exponent [0], and a
    fraction has no trailing zero in its mantissa. *)
Fixpoint strip_zeros (fuel : nat) (m e : Z) : number :=
  match fuel with
  | O => Dec m e
  | S fuel' =>
      if (m =? 0)%Z then Dec 0 0
      else if (0 <=? e)%Z then Dec (m * 10 ^ e)%Z 0
      else if (m mod 10 =? 0)%Z then strip_zeros fuel' (m / 10)%Z (e + 1)%Z
      else Dec m e
  end.

(** The number written [-? int . frac e exp]. *)
Definition decimal (neg : bool) (int frac : jsstring) (exp : Z) : number :=
  let m := digits_value (int ++ frac) in
  strip_zeros (S (length int + length frac))
    (if neg then (- m)%Z else m) (exp - Z.of_nat (length frac))%Z.

#[warnings="-register-all"]
Inductive JsVal : Type :=
| JUndefined
| JNull
| JBool (b : bool)
| JNum (n : number)
| JStr (s : jsstring)
| JArr (elems : list JsVal) (extra : list (jsstring * JsVal))
| JObj (props : list (jsstring * JsVal)).

(** Arrays are objects: besides their elements they can carry named
    properties ([extra]); an array literal or a parsed array has none. *)
Definition arr (l : list JsVal) : JsVal := JArr l [].

Definition int (z : Z) : JsVal := JNum (Dec z 0).

(** The result of a computation that may throw: the value, or the thrown
    value. *)
Inductive Res (A : Type) : Type :=
| Ok (a : A)
| Raise (e : JsVal).
Arguments Ok {A} a.
Arguments Raise {A} e.

Definition bind {A B} (r : Res A) (k : A -> Res B) : Res B :=
  match r with
  | Ok a => k a
  | Raise e => Raise e
  end.

Definition jsstring_eqb (a b : jsstring) : bool := bool_decide (a = b).

(** Lookup in a property list; the first binding of a key is the live one. *)
Fixpoint assoc {V} (k : jsstring) (ps : list (jsstring * V)) : option V :=
  match ps with
  | [] => None
  | (k', v) :: ps' => if jsstring_eqb k k' then Some v else assoc k ps'
  end.

(** [ToBoolean]. *)
Definition truthy (v : JsVal) : bool :=
  match v with
  | JUndefined | JNull => false
  | JBool b => b
  | JNum n => negb (mant n =? 0)%Z
  | JStr s => negb (bool_decide (s = []))
  | JArr _ _ | JObj _ => true
  end.

(** [typeof v === 'object'] (true of [null] as well). *)
Definition typeof_object (v : JsVal) : bool :=
  match v with
  | JNull | JArr _ _ | JObj _ => true
  | _ => false
  end.

(** A thrown [TypeError]; only its message is kept. *)
Definition TypeError (msg : string) : JsVal :=
  JObj [(str "message", JStr (str msg))].

(** [new Error(msg)]. *)
Definition Error (msg : jsstring) : JsVal :=
  JObj [(str "message", JStr msg)].

(** A canonical array index: ["0"], or digits without a leading zero,
    below [2^32 - 1]. *)
Definition array_index (k : jsstring) : option nat :=
  match k with
  | [] => None
  | d :: ds =>
      if forallb is_digit k && (negb (N.eqb d 48) || bool_decide (ds = []))
         && (digits_value k <? 4294967295)%Z
      then Some (Z.to_nat (digits_value k))
      else None
  end.

(** [v[k]] for a value that is not [null] or [undefined], as far as data
    goes: the own properties of objects, the elements, [length] and named
    properties of arrays, the code units and [length] of strings.  Inherited
    members (methods) are not data and read as [undefined] here. *)
Definition own_prop (v : JsVal) (k : jsstring) : JsVal :=
  match v with
  | JObj ps => default JUndefined (assoc k ps)
  | JArr es ex =>
      match array_index k with
      | Some i => default JUndefined (es !! i)
      | None =>
          if jsstring_eqb k (str "length") then JNum (Dec (Z.of_nat (length es)) 0)
          else default JUndefined (assoc k ex)
      end
  | JStr s =>
      match array_index k with
      | Some i => default JUndefined ((fun c => JStr [c]) <$> (s !! i))
      | None =>
          if jsstring_eqb k (str "length") then JNum (Dec (Z.of_nat (length s)) 0)
          else JUndefined
      end
  | _ => JUndefined
  end.

(** The member expression [v.k]: reading a property of [null] or
    [undefined] throws a [TypeError]. *)
Definition member (v : JsVal) (k : jsstring) : Res JsVal :=
  match v with
  | JUndefined | JNull => Raise (TypeError "Cannot read properties of null or undefined")
  | _ => Ok (own_prop v k)
  end.

Definition nullish (v : JsVal) : bool :=
  match v with
  | JUndefined | JNull => true
  | _ => false
  end.

Lemma jsstring_eqb_eq (a b : jsstring) : jsstring_eqb a b = true <-> a = b.
Proof. unfold jsstring_eqb. apply bool_decide_eq_true. Qed.

Lemma jsstring_eqb_refl (a : jsstring) : jsstring_eqb a a = true.
Proof. by apply jsstring_eqb_eq. Qed.

Lemma jsstring_eqb_neq (a b : jsstring) : a <> b -> jsstring_eqb a b = false.
Proof. intros. unfold jsstring_eqb. by apply bool_decide_eq_false_2. Qed.

End Js.

Import Js.

(* ===================================================================== *)
(** * [JSON.parse]                                                        *)
(* ===================================================================== *)

(** The modules below are parametric in [JSON.parse]; this is a reference
    implementation of the ECMA-404 grammar, used to run them on examples. *)
Module JSON.

Definition SyntaxError : JsVal := TypeError "Unexpected token in JSON".

(** Insignificant whitespace: space, tab, line feed, carriage return. *)
Definition is_ws (c : N) : bool :=
  N.eqb c 32 || N.eqb c 9 || N.eqb c 10 || N.eqb c 13.

Fixpoint skip_ws (s : jsstring) : jsstring :=
  match s with
  | c :: s' => if is_ws c then skip_ws s' else s
  | [] => []
  end.

(** A JSON number: an optional minus, an integer part without leading
    zero, an optional fraction and an optional exponent. *)
Definition parse_number (s : jsstring) : option (JsVal * jsstring) :=
  let (neg, s1) := match s with
                   | 45%N :: s' => (true, s')
                   | _ => (false, s)
                   end in
  let (int, s2) := span_digits s1 in
  match int with
  | [] => None
  | d :: more =>
      if N.eqb d 48 && negb (bool_decide (more = [])) then None
      else
        let frac_part :=
          match s2 with
          | 46%N :: s' =>
              let (frac, s3) := span_digits s' in
              match frac with
              | [] => None
              | _ => Some (frac, s3)
              end
          | _ => Some ([], s2)
          end in
        match frac_part with
        | None => None
        | Some (frac, s3) =>
            let exp_part :=
              match s3 with
              | c :: s' =>
                  if N.eqb c 101 || N.eqb c 69 then
                    let (eneg, s4) := match s' with
                                      | 45%N :: s'' => (true, s'')
                                      | 43%N :: s'' => (false, s'')
                                      | _ => (false, s')
                                      end in
                    let (eds, s5) := span_digits s4 in
                    match eds with
                    | [] => None
                    | _ => Some (if eneg then (- digits_value eds)%Z
                                 else digits_value eds, s5)
                    end
                  else Some (0%Z, s3)
              | [] => Some (0%Z, s3)
              end in
            match exp_part with
            | None => None
            | Some (exp, rest) => Some (JNum (decimal neg int frac exp), rest)
            end
        end
  end.

Definition hex_value (c : N) : option N :=
  if N.leb 48 c && N.leb c 57 then Some (c - 48)%N
  else if N.leb 97 c && N.leb c 102 then Some (c - 87)%N
  else if N.leb 65 c && N.leb c 70 then Some (c - 55)%N
  else None.

Definition hex4 (a b c d : N) : option N :=
  match hex_value a, hex_value b, hex_value c, hex_value d with
  | Some x, Some y, Some z, Some t => Some (((x * 16 + y) * 16 + z) * 16 + t)%N
  | _, _, _, _ => None
  end.

(** The characters of a string after its opening quote, up to the closing
    one; [acc] holds the code units read so far, last first. *)
Fixpoint parse_string_body (s acc : jsstring) : option (jsstring * jsstring) :=
  match s with
  | [] => None
  | 34%N :: rest => Some (rev acc, rest)
  | 92%N :: rest =>
      match rest with
      | 34%N :: r => parse_string_body r (34%N :: acc)
      | 92%N :: r => parse_string_body r (92%N :: acc)
      | 47%N :: r => parse_string_body r (47%N :: acc)
      | 98%N :: r => parse_string_body r (8%N :: acc)
      | 102%N :: r => parse_string_body r (12%N :: acc)
      | 110%N :: r => parse_string_body r (10%N :: acc)
      | 114%N :: r => parse_string_body r (13%N :: acc)
      | 116%N :: r => parse_string_body r (9%N :: acc)
      | 117%N :: a :: b :: c :: d :: r =>
          match hex4 a b c d with
          | Some u => parse_string_body r (u :: acc)
          | None => None
          end
      | _ => None
      end
  | c :: rest => if N.ltb c 32 then None else parse_string_body rest (c :: acc)
  end.

(** [CreateDataProperty]: a repeated key keeps its place and takes the
    later value. *)
Fixpoint set_prop {V} (k : jsstring) (v : V) (ps : list (jsstring * V))
  : list (jsstring * V) :=
  match ps with
  | [] => [(k, v)]
  | (k', v') :: ps' =>
      if jsstring_eqb k k' then (k, v) :: ps' else (k', v') :: set_prop k v ps'
  end.

(** [s] without the prefix [pre], when it starts with it. *)
Fixpoint strip_prefix (pre s : jsstring) : option jsstring :=
  match pre, s with
  | [], _ => Some s
  | p :: pre', c :: s' => if N.eqb p c then strip_prefix pre' s' else None
  | _ :: _, [] => None
  end.

Definition literal (word : string) (v : JsVal) (s : jsstring) : option (JsVal * jsstring) :=
  match strip_prefix (str word) s with
  | Some rest => Some (v, rest)
  | None => None
  end.

(** Recursive descent; [fuel] bounds the nesting and the number of items. *)
Fixpoint parse_value (fuel : nat) (s : jsstring) : option (JsVal * jsstring) :=
  match fuel with
  | O => None
  | S fuel' =>
      match skip_ws s with
      | [] => None
      | c :: rest =>
          if N.eqb c 110 then literal "null" JNull (c :: rest)
          else if N.eqb c 116 then literal "true" (JBool true) (c :: rest)
          else if N.eqb c 102 then literal "false" (JBool false) (c :: rest)
          else if N.eqb c 34 then
            match parse_string_body rest [] with
            | Some (chars, rest') => Some (JStr chars, rest')
            | None => None
            end
          else if N.eqb c 91 then
            match strip_prefix [93%N] (skip_ws rest) with
            | Some rest' => Some (JArr [] [], rest')
            | None => parse_elements fuel' rest []
            end
          else if N.eqb c 123 then
            match strip_prefix [125%N] (skip_ws rest) with
            | Some rest' => Some (JObj [], rest')
            | None => parse_members fuel' rest []
            end
          else if N.eqb c 45 || is_digit c then parse_number (c :: rest)
          else None
      end
  end
with parse_elements (fuel : nat) (s : jsstring) (acc : list JsVal)
  : option (JsVal * jsstring) :=
  match fuel with
  | O => None
  | S fuel' =>
      match parse_value fuel' s with
      | Some (v, rest) =>
          match skip_ws rest with
          | c :: rest' =>
              if N.eqb c 44 then parse_elements fuel' rest' (acc ++ [v])
              else if N.eqb c 93 then Some (JArr (acc ++ [v]) [], rest')
              else None
          | [] => None
          end
      | None => None
      end
  end
with parse_members (fuel : nat) (s : jsstring) (acc : list (jsstring * JsVal))
  : option (JsVal * jsstring) :=
  match fuel with
  | O => None
  | S fuel' =>
      match strip_prefix [34%N] (skip_ws s) with
      | Some rest =>
          match parse_string_body rest [] with
          | Some (key, rest1) =>
              match strip_prefix [58%N] (skip_ws rest1) with
              | Some rest2 =>
                  match parse_value fuel' rest2 with
                  | Some (v, rest3) =>
                      match skip_ws rest3 with
                      | c :: rest4 =>
                          if N.eqb c 44 then parse_members fuel' rest4 (set_prop key v acc)
                          else if N.eqb c 125 then Some (JObj (set_prop key v acc), rest4)
                          else None
                      | [] => None
                      end
                  | None => None
                  end
              | None => None
              end
          | None => None
          end
      | None => None
      end
  end.

(** [JSON.parse(text)] *)
Definition parse (text : jsstring) : Res JsVal :=
  match parse_value (2 * length text + 2) text with
  | Some (v, rest) =>
      match skip_ws rest with
      | [] => Ok v
      | _ => Raise SyntaxError
      end
  | None => Raise SyntaxError
  end.

(** JSON text written with ['] for the double quote. *)
Definition text (s : string) : jsstring :=
  List.map (fun c => if N.eqb c 39 then 34%N else c) (str s).

Example parse_object :
  parse (text "{ 'a': [1, 2.50, -3e2], 'b': {'c': null}, 'a': 'A' }")
  = Ok (JObj [(str "a", JStr (str "A"));
              (str "b", JObj [(str "c", JNull)])]).
Proof. vm_compute. reflexivity. Qed.

Example parse_array :
  parse (text " [1, 2.50, -3e2, 'x\u0041', true] ")
  = Ok (arr [int 1; JNum (Dec 25 (-1)); int (-300) ; JStr (str "xA"); JBool true]).
Proof. vm_compute. reflexivity. Qed.

Example parse_trailing_comma : parse (text "[1,2,]") = Raise SyntaxError.
Proof. vm_compute. reflexivity. Qed.

End JSON.

(* ===================================================================== *)
(** * [lodash.get] and [lodash.set]                                       *)
(* ===================================================================== *)

(** The two library functions, after their published sources ([baseGet],
    [baseSet], [castPath], [assignValue]), on plain data.  Paths are
    dot-separated; the bracket syntax [a[0]] of the library is not part of
    the model. *)
Module Lodash.

(** [isObject(v)]: an object or an array. *)
Definition isObject (v : JsVal) : bool :=
  match v with
  | JArr _ _ | JObj _ => true
  | _ => false
  end.

(** [isIndex(k)]: a numeral without leading zero below [MAX_SAFE_INTEGER]. *)
Definition isIndex (k : jsstring) : bool :=
  match k with
  | [] => false
  | d :: ds =>
      forallb is_digit k && (negb (N.eqb d 48) || bool_decide (ds = []))
      && (digits_value k <? 9007199254740991)%Z
  end.

(** [k in Object(v)], for data properties. *)
Definition has_prop (v : JsVal) (k : jsstring) : bool :=
  match v with
  | JObj ps => bool_decide (is_Some (assoc k ps))
  | JArr es ex =>
      match array_index k with
      | Some i => bool_decide (i < length es)
      | None => jsstring_eqb k (str "length") || bool_decide (is_Some (assoc k ex))
      end
  | JStr s =>
      match array_index k with
      | Some i => bool_decide (i < length s)
      | None => jsstring_eqb k (str "length")
      end
  | _ => false
  end.

(** The segments between the dots; [cur] is the segment being read. *)
Fixpoint split_dots (p cur : jsstring) : list jsstring :=
  match p with
  | [] => [cur]
  | c :: p' => if N.eqb c 46 then cur :: split_dots p' [] else split_dots p' (cur ++ [c])
  end.

(** [castPath(path, object)]: a path without dot, or one that names a
    property of [object] as it stands, is a single key. *)
Definition castPath (path : jsstring) (object : JsVal) : list jsstring :=
  if negb (existsb (N.eqb 46) path) || has_prop object path then [path]
  else split_dots path [].

(** The loop of [baseGet]: it stops at [null] and [undefined]. *)
Fixpoint walk (object : JsVal) (keys : list jsstring) : JsVal :=
  match keys with
  | [] => object
  | k :: rest => if nullish object then JUndefined else walk (own_prop object k) rest
  end.

(** [get(object, path, defaultValue)] *)
Definition get (object : JsVal) (path : jsstring) (defaultValue : JsVal) : JsVal :=
  let result :=
    if nullish object then JUndefined else walk object (castPath path object) in
  match result with
  | JUndefined => defaultValue
  | _ => result
  end.

(** [es[i] = v]: writing past the end leaves holes, kept as [undefined]. *)
Definition set_elem (es : list JsVal) (i : nat) (v : JsVal) : list JsVal :=
  if bool_decide (i < length es) then <[i := v]> es
  else es ++ replicate (i - length es) JUndefined ++ [v].

Definition RangeError : JsVal := TypeError "Invalid array length".

(** [object[key] = value].  Assigning [length] resizes an array when the
    value is a number that is a valid length and throws otherwise (values
    that are not numbers are taken to be invalid lengths). *)
Definition assign (object : JsVal) (k : jsstring) (v : JsVal) : Res JsVal :=
  match object with
  | JObj ps => Ok (JObj (JSON.set_prop k v ps))
  | JArr es ex =>
      match array_index k with
      | Some i => Ok (JArr (set_elem es i v) ex)
      | None =>
          if jsstring_eqb k (str "length") then
            match v with
            | JNum (Dec n 0) =>
                if (0 <=? n)%Z && (n <? 4294967296)%Z then
                  Ok (JArr (firstn (Z.to_nat n) es
                            ++ replicate (Z.to_nat n - length es) JUndefined) ex)
                else Raise RangeError
            | _ => Raise RangeError
            end
          else Ok (JArr es (JSON.set_prop k v ex))
      end
  | _ => Ok object
  end.

(** The loop of [baseSet] from the container [nested] on.  Every key but
    the last is bound to the container found under it, or to a new one ([[]]
    when the next key looks like an index, [{}] otherwise); the last key is
    bound to [value]. *)
Fixpoint baseSet (nested : JsVal) (keys : list jsstring) (value : JsVal) : Res JsVal :=
  match keys with
  | [] => Ok nested
  | [k] => assign nested k value
  | k :: ((k2 :: _) as rest) =>
      let objValue := own_prop nested k in
      let newValue :=
        if isObject objValue then objValue
        else if isIndex k2 then arr [] else JObj [] in
      bind (assign nested k newValue) (fun nested1 =>
      bind (baseSet (own_prop nested1 k) rest value) (fun child =>
      assign nested1 k child))
  end.

(** [set(object, path, value)]: the object after the call (the library
    changes it in place and returns it). *)
Definition set (object : JsVal) (path : jsstring) (value : JsVal) : Res JsVal :=
  if isObject object then baseSet object (castPath path object) value
  else Ok object.

Example set_creates_containers :
  set (JObj [(str "a", int 1)]) (str "b.c.0.d") (JBool true)
  = Ok (JObj [(str "a", int 1);
              (str "b", JObj [(str "c", arr [JObj [(str "d", JBool true)]])])]).
Proof. vm_compute. reflexivity. Qed.

Example get_reads_back :
  get (JObj [(str "b", JObj [(str "c", arr [int 7])])]) (str "b.c.0") JNull = int 7.
Proof. vm_compute. reflexivity. Qed.

(** ** Reading back what [set] wrote *)

(** A key that is neither an array index nor [length]. *)
Definition plain_key (k : jsstring) : Prop :=
  array_index k = None /\ k <> str "length".

Lemma assoc_set_prop_eq {V} k (v : V) ps : assoc k (JSON.set_prop k v ps) = Some v.
Proof.
  induction ps as [|[k' v'] ps IH]; simpl.
  - by rewrite jsstring_eqb_refl.
  - destruct (jsstring_eqb k k') eqn:E; simpl.
    + by rewrite jsstring_eqb_refl.
    + by rewrite E.
Qed.

Lemma assoc_set_prop_ne {V} k k' (v : V) ps :
  k' <> k -> assoc k' (JSON.set_prop k v ps) = assoc k' ps.
Proof.
  intros Hne. induction ps as [|[k0 v0] ps IH]; simpl.
  - by rewrite jsstring_eqb_neq.
  - destruct (jsstring_eqb k k0) eqn:E; simpl.
    + apply jsstring_eqb_eq in E. subst k0. by rewrite !jsstring_eqb_neq.
    + by rewrite IH.
Qed.

Lemma assign_plain object k v :
  plain_key k -> isObject object = true ->
  exists object',
    assign object k v = Ok object'
    /\ isObject object' = true
    /\ own_prop object' k = v
    /\ has_prop object' k = true
    /\ (forall p, p <> k -> has_prop object' p = has_prop object p).
Proof.
  intros [Hidx Hlen] Hobj. destruct object as [| | | | |es ex|ps]; try done; simpl.
  - rewrite Hidx, (jsstring_eqb_neq _ _ Hlen).
    eexists; split; [done|]. split; [done|]. simpl.
    rewrite Hidx, (jsstring_eqb_neq _ _ Hlen), assoc_set_prop_eq. split; [done|].
    split; [done|].
    intros p Hp. destruct (array_index p); [done|]. by rewrite assoc_set_prop_ne.
  - eexists; split; [done|]. split; [done|]. simpl. rewrite assoc_set_prop_eq.
    split; [done|]. split; [done|]. intros p Hp. by rewrite assoc_set_prop_ne.
Qed.

(** Along plain keys [baseSet] never throws, and walking the same keys in
    its result ends at the value that was set. *)
Lemma baseSet_walk keys : forall nested value,
  keys <> [] -> Forall plain_key keys -> isObject nested = true ->
  exists nested',
    baseSet nested keys value = Ok nested'
    /\ isObject nested' = true
    /\ walk nested' keys = value
    /\ has_prop nested' (hd [] keys) = true
    /\ (forall p, hd [] keys <> p -> has_prop nested' p = has_prop nested p).
Proof.
  induction keys as [|k rest IH]; intros nested value Hne Hplain Hobj; [done|].
  apply Forall_cons in Hplain as [Hk Hrest].
  destruct rest as [|k2 rest'].
  - destruct (assign_plain nested k value Hk Hobj)
      as (n' & Hassign & Hobj' & Hprop & Hown & Hhas).
    exists n'. cbn [baseSet]. split; [done|]. split; [done|]. split; [|split; [done|]].
    + cbn [walk]. destruct n'; try done; by rewrite Hprop.
    + intros p Hp. apply Hhas. intros ->. by apply Hp.
  - set (newValue := if isObject (own_prop nested k) then own_prop nested k
                     else if isIndex k2 then arr [] else JObj []).
    assert (Hnew : isObject newValue = true).
    { unfold newValue. destruct (isObject (own_prop nested k)) eqn:E; [done|].
      by destruct (isIndex k2). }
    destruct (assign_plain nested k newValue Hk Hobj)
      as (n1 & Hassign1 & Hobj1 & Hprop1 & _ & Hhas1).
    destruct (IH newValue value ltac:(done) Hrest Hnew) as (child & Hchild & Hobjc & Hwalk & _).
    destruct (assign_plain n1 k child Hk Hobj1)
      as (n2 & Hassign2 & Hobj2 & Hprop2 & Hown2 & Hhas2).
    exists n2. change (baseSet nested (k :: k2 :: rest') value) with
      (bind (assign nested k newValue) (fun nested1 =>
       bind (baseSet (own_prop nested1 k) (k2 :: rest') value) (fun child =>
       assign nested1 k child))).
    rewrite Hassign1. cbn [bind]. rewrite Hprop1, Hchild. cbn [bind].
    split; [done|]. split; [done|]. split; [|split; [done|]].
    + change (walk n2 (k :: k2 :: rest')) with
        (if nullish n2 then JUndefined else walk (own_prop n2 k) (k2 :: rest')).
      rewrite Hprop2. destruct n2; try done.
    + intros p Hp. cbn [hd] in Hp. rewrite Hhas2, Hhas1; [done| |]; by intros ->.
Qed.

(** A dotted path of plain keys that is itself a plain key: what [set]
    writes at it, [get] reads back. *)
Lemma get_set (object : JsVal) (path : jsstring) (value dflt : JsVal) :
  isObject object = true ->
  plain_key path ->
  Forall plain_key (split_dots path []) ->
  hd [] (split_dots path []) <> path ->
  value <> JUndefined ->
  exists object',
    set object path value = Ok object'
    /\ isObject object' = true
    /\ get object' path dflt = value.
Proof.
  intros Hobj Hpath Hkeys Hhd Hval. unfold set, get. rewrite Hobj.
  assert (Hsplit : forall p cur, split_dots p cur <> []).
  { induction p as [|c p IHp]; intros cur; simpl; [done|]. by destruct (N.eqb c 46). }
  specialize (Hsplit path []).
  unfold castPath.
  destruct (negb (existsb (N.eqb 46) path) || has_prop object path) eqn:Hcast.
  - destruct (baseSet_walk [path] object value ltac:(done) ltac:(by constructor) Hobj)
      as (o' & Hset & Hobj' & Hwalk & Hown & _).
    exists o'. split; [done|]. split; [done|].
    cbn [hd] in Hown. rewrite Hown, orb_true_r.
    destruct o'; try done; rewrite Hwalk; by destruct value.
  - apply orb_false_iff in Hcast as [Hdot Hhas].
    destruct (baseSet_walk _ object value Hsplit Hkeys Hobj)
      as (o' & Hset & Hobj' & Hwalk & _ & Hsame).
    exists o'. split; [done|]. split; [done|].
    rewrite Hdot, (Hsame path Hhd), Hhas. cbn [orb].
    destruct o'; try done; rewrite Hwalk; by destruct value.
Qed.

End Lodash.

(* ===================================================================== *)
(** * The Document Mutator: src/lib/json-merge.js                         *)
(* ===================================================================== *)

Module JsonMerge.

(** [JSON.parse(JSON.stringify(v))] on the value itself: a property whose
    value is [undefined] is dropped, an array element that is [undefined]
    becomes [null], the named properties of an array are dropped, and
    [undefined] at the top makes [JSON.parse] throw. *)
Fixpoint json_copy (v : JsVal) : JsVal :=
  match v with
  | JArr es _ =>
      JArr (List.map (fun e => match e with
                               | JUndefined => JNull
                               | _ => json_copy e
                               end) es) []
  | JObj ps =>
      JObj ((fix copy_props (ps : list (jsstring * JsVal)) : list (jsstring * JsVal) :=
               match ps with
               | [] => []
               | (k, JUndefined) :: ps' => copy_props ps'
               | (k, x) :: ps' => (k, json_copy x) :: copy_props ps'
               end) ps)
  | _ => v
  end.

Definition deep_clone (v : JsVal) : Res JsVal :=
  match v with
  | JUndefined => Raise JSON.SyntaxError
  | _ => Ok (json_copy v)
  end.

(** [for (const { path, value } of mutations) lodashSet(result, path, value)] *)
Fixpoint set_all (result : JsVal) (mutations : list (jsstring * JsVal)) : Res JsVal :=
  match mutations with
  | [] => Ok result
  | (path, value) :: rest =>
      bind (Lodash.set result path value) (fun result' => set_all result' rest)
  end.

(** [applyMutations(original, mutations)] *)
Definition applyMutations (original : JsVal) (mutations : list (jsstring * JsVal))
  : Res JsVal :=
  bind (deep_clone original) (fun result => set_all result mutations).

(** [syncSections(target, template, keys)] *)
Fixpoint sync_all (result template : JsVal) (keys : list jsstring) : Res JsVal :=
  match keys with
  | [] => Ok result
  | key :: rest =>
      match Lodash.get template key JUndefined with
      | JUndefined => sync_all result template rest
      | templateValue =>
          bind (deep_clone templateValue) (fun copy =>
          bind (Lodash.set result key copy) (fun result' =>
          sync_all result' template rest))
      end
  end.

Definition syncSections (target template : JsVal) (keys : list jsstring) : Res JsVal :=
  bind (deep_clone target) (fun result => sync_all result template keys).

(** [WhiteSpace] and [LineTerminator] code units, which [trim] strips. *)
Definition is_js_space (c : N) : bool :=
  existsb (N.eqb c)
    [9; 10; 11; 12; 13; 32; 160; 5760; 8232; 8233; 8239; 8287; 12288; 65279]%N
  || (N.leb 8192 c && N.leb c 8202).

Fixpoint trim_start (s : jsstring) : jsstring :=
  match s with
  | c :: s' => if is_js_space c then trim_start s' else s
  | [] => []
  end.

(** [s.trim()] *)
Definition trim (s : jsstring) : jsstring :=
  rev (trim_start (rev (trim_start s))).

(** The digits of [/^-?\d+(\.\d+)?$/]: sign, integer part and fraction of a
    string that matches, [None] for one that does not. *)
Definition match_number (s : jsstring) : option (bool * jsstring * jsstring) :=
  let (neg, s1) := match s with
                   | 45%N :: s' => (true, s')
                   | _ => (false, s)
                   end in
  let (int, s2) := span_digits s1 in
  match int, s2 with
  | [], _ => None
  | _, [] => Some (neg, int, [])
  | _, 46%N :: s3 =>
      let (frac, s4) := span_digits s3 in
      match frac, s4 with
      | _ :: _, [] => Some (neg, int, frac)
      | _, _ => None
      end
  | _, _ => None
  end.

Definition starts_with (c : N) (s : jsstring) : bool :=
  match s with
  | c' :: _ => N.eqb c c'
  | [] => false
  end.

Definition ends_with (c : N) (s : jsstring) : bool := starts_with c (rev s).

(** Braces or brackets at both ends. *)
Definition bracketed (s : jsstring) : bool :=
  (starts_with 123 s && ends_with 125 s) || (starts_with 91 s && ends_with 93 s).

Section WithJSON.

(** [JSON.parse] *)
Variable JSON_parse : jsstring -> Res JsVal.

(** [parseValue(input)] *)
Definition parseValue (input : jsstring) : JsVal :=
  let trimmed := trim input in
  if jsstring_eqb trimmed (str "true") then JBool true
  else if jsstring_eqb trimmed (str "false") then JBool false
  else if jsstring_eqb trimmed (str "null") then JNull
  else
    match match_number trimmed with
    | Some (neg, int, frac) => JNum (decimal neg int frac 0)
    | None =>
        if bracketed trimmed then
          match JSON_parse trimmed with
          | Ok parsed => parsed
          | Raise _ => JStr trimmed
          end
        else JStr trimmed
    end.

End WithJSON.

(** ** Properties of [parseValue] *)

(** A parsed member list is an object, a parsed element list an array. *)
Lemma parse_members_object fuel s acc v rest :
  JSON.parse_members fuel s acc = Some (v, rest) -> exists ps, v = JObj ps.
Proof.
  revert s acc; induction fuel as [|fuel IH]; intros s acc; [done|].
  cbn [JSON.parse_members]. intros Hp.
  repeat match type of Hp with
         | match ?x with _ => _ end = _ => destruct x; try discriminate Hp
         | (if ?b then _ else _) = _ => destruct b; try discriminate Hp
         end;
    first [ by eapply IH | inversion Hp; by eexists ].
Qed.

Lemma parse_elements_array fuel s acc v rest :
  JSON.parse_elements fuel s acc = Some (v, rest) -> exists es, v = JArr es [].
Proof.
  revert s acc; induction fuel as [|fuel IH]; intros s acc; [done|].
  cbn [JSON.parse_elements]. intros Hp.
  repeat match type of Hp with
         | match ?x with _ => _ end = _ => destruct x; try discriminate Hp
         | (if ?b then _ else _) = _ => destruct b; try discriminate Hp
         end;
    first [ by eapply IH | inversion Hp; by eexists ].
Qed.

Lemma parse_bracketed_container (t : jsstring) (v : JsVal) :
  bracketed t = true -> JSON.parse t = Ok v -> Lodash.isObject v = true.
Proof.
  unfold bracketed, JSON.parse. intros Hb.
  destruct t as [|c t]; [done|]. cbn [starts_with] in Hb.
  assert (Hc : c = 123%N \/ c = 91%N).
  { apply orb_true_iff in Hb as [Hb|Hb]; apply andb_true_iff in Hb as [Hb _];
      apply N.eqb_eq in Hb; auto. }
  set (fuel := 2 * length (c :: t) + 2). destruct fuel as [|fuel]; [done|].
  destruct (JSON.parse_value (S fuel) (c :: t)) as [[v' r]|] eqn:Hv; [|done].
  destruct (JSON.skip_ws r); [|done]. intros [= <-].
  destruct Hc as [-> | ->]; cbn in Hv;
    match type of Hv with
    | match ?x with _ => _ end = _ => destruct x
    end.
  - by inversion Hv.
  - by apply parse_members_object in Hv as [ps ->].
  - by inversion Hv.
  - by apply parse_elements_array in Hv as [es ->].
Qed.


End JsonMerge.

(* ===================================================================== *)
(** * The Document Mutator on shared objects                              *)
(* ===================================================================== *)

(** JavaScript objects are shared by reference: the value put under a path
    by [lodash.set] is the caller's object, not a copy of it.  This module
    runs [applyMutations] on a heap, so that what the call does to the
    caller's document can be observed. *)
Module Heap.

(** A value: a primitive, or the address of an object. *)
Inductive val : Type :=
| VUndefined
| VNull
| VBool (b : bool)
| VNum (n : number)
| VStr (s : jsstring)
| VRef (a : nat).

Inductive object : Type :=
| HObj (props : list (jsstring * val))
| HArr (elems : list val) (extra : list (jsstring * val)).

(** The heap: the object at address [a] is the [a]-th one allocated.
    Nothing is ever freed. *)
Abbreviation heap := (list object).

(** The tree below a value, read off the heap; [None] when the structure is
    deeper than [fuel] (a cycle is) or an address is not allocated. *)
Fixpoint reify (fuel : nat) (h : heap) (v : val) : option JsVal :=
  match v with
  | VUndefined => Some JUndefined
  | VNull => Some JNull
  | VBool b => Some (JBool b)
  | VNum n => Some (JNum n)
  | VStr s => Some (JStr s)
  | VRef a =>
      match fuel with
      | O => None
      | S fuel' =>
          let props ps :=
            mapM (fun kv : jsstring * val =>
                    match reify fuel' h kv.2 with
                    | Some t => Some (kv.1, t)
                    | None => None
                    end) ps in
          match h !! a with
          | None => None
          | Some (HObj ps) =>
              match props ps with
              | Some tps => Some (JObj tps)
              | None => None
              end
          | Some (HArr es ex) =>
              match mapM (reify fuel' h) es, props ex with
              | Some tes, Some tex => Some (JArr tes tex)
              | _, _ => None
              end
          end
      end
  end.

(** The document as a deep-equality check sees it. *)
Definition snapshot (h : heap) (v : val) : option JsVal := reify (S (length h)) h v.

(** Allocates one tree after the other, threading the heap. *)
Fixpoint alloc_each (alloc : JsVal -> heap -> heap * val) (es : list JsVal) (h : heap)
  : heap * list val :=
  match es with
  | [] => (h, [])
  | e :: es' =>
      let (h1, v) := alloc e h in
      let (h2, vs) := alloc_each alloc es' h1 in
      (h2, v :: vs)
  end.

Fixpoint alloc_props (alloc : JsVal -> heap -> heap * val) (ps : list (jsstring * JsVal))
    (h : heap) : heap * list (jsstring * val) :=
  match ps with
  | [] => (h, [])
  | (k, x) :: ps' =>
      let (h1, v) := alloc x h in
      let (h2, vs) := alloc_props alloc ps' h1 in
      (h2, (k, v) :: vs)
  end.

(** Allocates the objects of a tree, children first; returns the extended
    heap and the value that stands for the tree. *)
Fixpoint alloc (t : JsVal) (h : heap) : heap * val :=
  match t with
  | JUndefined => (h, VUndefined)
  | JNull => (h, VNull)
  | JBool b => (h, VBool b)
  | JNum n => (h, VNum n)
  | JStr s => (h, VStr s)
  | JArr es ex =>
      let (h1, vs) := alloc_each alloc es h in
      let (h2, xs) := alloc_props alloc ex h1 in
      (h2 ++ [HArr vs xs], VRef (length h2))
  | JObj ps =>
      let (h1, xs) := alloc_props alloc ps h in
      (h1 ++ [HObj xs], VRef (length h1))
  end.

(** [JSON.parse(JSON.stringify(v))]: a new tree; a cyclic structure makes
    [JSON.stringify] throw. *)
Definition deep_clone (h : heap) (v : val) : Res (heap * val) :=
  match snapshot h v with
  | None => Raise (TypeError "Converting circular structure to JSON")
  | Some t => bind (JsonMerge.deep_clone t) (fun t' => Ok (alloc t' h))
  end.

(** [o[k]] *)
Definition get_prop (o : object) (k : jsstring) : val :=
  match o with
  | HObj ps => default VUndefined (assoc k ps)
  | HArr es ex =>
      match array_index k with
      | Some i => default VUndefined (es !! i)
      | None =>
          if jsstring_eqb k (str "length") then VNum (Dec (Z.of_nat (length es)) 0)
          else default VUndefined (assoc k ex)
      end
  end.

(** [k in o] *)
Definition has_prop (o : object) (k : jsstring) : bool :=
  match o with
  | HObj ps => bool_decide (is_Some (assoc k ps))
  | HArr es ex =>
      match array_index k with
      | Some i => bool_decide (i < length es)
      | None => jsstring_eqb k (str "length") || bool_decide (is_Some (assoc k ex))
      end
  end.

(** [o[k] = v], as [Lodash.assign]. *)
Definition assign (o : object) (k : jsstring) (v : val) : Res object :=
  match o with
  | HObj ps => Ok (HObj (JSON.set_prop k v ps))
  | HArr es ex =>
      match array_index k with
      | Some i =>
          Ok (HArr (if bool_decide (i < length es) then <[i := v]> es
                    else es ++ replicate (i - length es) VUndefined ++ [v]) ex)
      | None =>
          if jsstring_eqb k (str "length") then
            match v with
            | VNum (Dec n 0) =>
                if (0 <=? n)%Z && (n <? 4294967296)%Z then
                  Ok (HArr (firstn (Z.to_nat n) es
                            ++ replicate (Z.to_nat n - length es) VUndefined) ex)
                else Raise Lodash.RangeError
            | _ => Raise Lodash.RangeError
            end
          else Ok (HArr es (JSON.set_prop k v ex))
      end
  end.

(** The object at [a] with [k] bound to [v], in place. *)
Definition store (h : heap) (a : nat) (k : jsstring) (v : val) : Res heap :=
  match h !! a with
  | Some o => bind (assign o k v) (fun o' => Ok (<[a := o']> h))
  | None => Ok h
  end.

(** The loop of [baseSet] from the object at [nested] on. *)
Fixpoint baseSet (h : heap) (nested : nat) (keys : list jsstring) (value : val) : Res heap :=
  match keys with
  | [] => Ok h
  | [k] => store h nested k value
  | k :: ((k2 :: _) as rest) =>
      let objValue :=
        match h !! nested with
        | Some o => get_prop o k
        | None => VUndefined
        end in
      let (h0, newValue) :=
        match objValue with
        | VRef _ => (h, objValue)
        | _ => (h ++ [if Lodash.isIndex k2 then HArr [] [] else HObj []], VRef (length h))
        end in
      bind (store h0 nested k newValue) (fun h1 =>
      match h1 !! nested with
      | Some o =>
          match get_prop o k with
          | VRef next => baseSet h1 next rest value
          | _ => Ok h1
          end
      | None => Ok h1
      end)
  end.

(** [castPath(path, object)] *)
Definition castPath (h : heap) (path : jsstring) (a : nat) : list jsstring :=
  let known := match h !! a with
               | Some o => has_prop o path
               | None => false
               end in
  if negb (existsb (N.eqb 46) path) || known then [path]
  else Lodash.split_dots path [].

(** [lodashSet(object, path, value)] *)
Definition set (h : heap) (object : val) (path : jsstring) (value : val) : Res heap :=
  match object with
  | VRef a => baseSet h a (castPath h path a) value
  | _ => Ok h
  end.

Fixpoint set_all (h : heap) (result : val) (mutations : list (jsstring * val)) : Res heap :=
  match mutations with
  | [] => Ok h
  | (path, value) :: rest =>
      bind (set h result path value) (fun h' => set_all h' result rest)
  end.

(** [applyMutations(original, mutations)]: the heap after the call and the
    returned value. *)
Definition applyMutations (h : heap) (original : val) (mutations : list (jsstring * val))
  : Res (heap * val) :=
  bind (deep_clone h original) (fun hr =>
  bind (set_all hr.1 hr.2 mutations) (fun h' => Ok (h', hr.2))).

(** ** What the call leaves alone *)

(** Induction on trees, with the hypothesis for every element and every
    property value. *)
Lemma JsVal_tree_ind (P : JsVal -> Prop) :
  P JUndefined -> P JNull -> (forall b, P (JBool b)) -> (forall n, P (JNum n)) ->
  (forall s, P (JStr s)) ->
  (forall es ex, Forall P es -> Forall (fun kv => P kv.2) ex -> P (JArr es ex)) ->
  (forall ps, Forall (fun kv => P kv.2) ps -> P (JObj ps)) ->
  forall t, P t.
Proof.
  intros Hu Hn Hb Hnum Hs Harr Hobj.
  fix IH 1. intros [| | b | n | s | es ex | ps];
    [exact Hu | exact Hn | apply Hb | apply Hnum | apply Hs | |].
  - apply Harr.
    + induction es as [|e es IHes]; constructor; [apply IH|apply IHes].
    + induction ex as [|[k x] ex IHex]; constructor; [apply IH|apply IHex].
  - apply Hobj. induction ps as [|[k x] ps IHps]; constructor; [apply IH|apply IHps].
Qed.

(** The values an object holds. *)
Definition children (o : object) : list val :=
  match o with
  | HObj ps => List.map snd ps
  | HArr es ex => es ++ List.map snd ex
  end.

(** The objects that can be reached from a value. *)
Inductive reach (h : heap) : val -> nat -> Prop :=
| reach_here a o : h !! a = Some o -> reach h (VRef a) a
| reach_step a o v b :
    h !! a = Some o -> In v (children o) -> reach h v b -> reach h (VRef a) b.

(** An address at or above [lo], or no address at all. *)
Definition above (lo : nat) (v : val) : Prop :=
  match v with
  | VRef b => lo <= b
  | _ => True
  end.

(** [alloc] appends objects that refer to appended objects only. *)
Definition appends_above (f : heap -> heap * val) : Prop :=
  forall h, exists news v,
    f h = (h ++ news, v)
    /\ above (length h) v
    /\ Forall (fun o => Forall (above (length h)) (children o)) news.

Lemma above_le lo lo' v : lo <= lo' -> above lo' v -> above lo v.
Proof. destruct v; simpl; lia. Qed.

Lemma closed_above_le lo lo' (news : list object) :
  lo <= lo' ->
  Forall (fun o => Forall (above lo') (children o)) news ->
  Forall (fun o => Forall (above lo) (children o)) news.
Proof.
  intros Hle Hnews. eapply Forall_impl; [exact Hnews|]. intros o Ho.
  eapply Forall_impl; [exact Ho|]. intros v. by apply above_le.
Qed.

Lemma alloc_each_appends (alloc : JsVal -> heap -> heap * val) (es : list JsVal) :
  Forall (fun e => appends_above (alloc e)) es ->
  forall h, exists news vs,
    alloc_each alloc es h = (h ++ news, vs)
    /\ Forall (above (length h)) vs
    /\ Forall (fun o => Forall (above (length h)) (children o)) news.
Proof.
  induction 1 as [|e es He Hes IH]; intros h.
  - exists [], []. rewrite app_nil_r. by repeat split.
  - cbn [alloc_each]. destruct (He h) as (n1 & v & -> & Hv & Hn1).
    destruct (IH (h ++ n1)) as (n2 & vs & -> & Hvs & Hn2).
    exists (n1 ++ n2), (v :: vs). rewrite app_assoc. split; [done|].
    rewrite length_app in Hvs, Hn2. split.
    + constructor; [done|]. eapply Forall_impl; [exact Hvs|].
      intros x. apply above_le. lia.
    + apply Forall_app. split; [done|]. eapply closed_above_le; [|exact Hn2]. lia.
Qed.

Lemma alloc_props_appends (alloc : JsVal -> heap -> heap * val)
    (ps : list (jsstring * JsVal)) :
  Forall (fun kv => appends_above (alloc kv.2)) ps ->
  forall h, exists news vs,
    alloc_props alloc ps h = (h ++ news, vs)
    /\ Forall (above (length h)) (List.map snd vs)
    /\ Forall (fun o => Forall (above (length h)) (children o)) news.
Proof.
  induction 1 as [|[k x] ps He Hes IH]; intros h.
  - exists [], []. rewrite app_nil_r. by repeat split.
  - cbn [alloc_props]. cbn [snd] in He. destruct (He h) as (n1 & v & -> & Hv & Hn1).
    destruct (IH (h ++ n1)) as (n2 & vs & -> & Hvs & Hn2).
    exists (n1 ++ n2), ((k, v) :: vs). rewrite app_assoc. split; [done|].
    rewrite length_app in Hvs, Hn2. split.
    + constructor; [done|]. eapply Forall_impl; [exact Hvs|].
      intros y. apply above_le. lia.
    + apply Forall_app. split; [done|]. eapply closed_above_le; [|exact Hn2]. lia.
Qed.

Lemma alloc_appends (t : JsVal) : appends_above (alloc t).
Proof.
  induction t as [| | b | n | s | es ex IHes IHex | ps IHps] using JsVal_tree_ind;
    intros h;
    try (eexists [], _; rewrite app_nil_r; split; [reflexivity|];
         split; [exact I|constructor]).
  - cbn [alloc].
    destruct (alloc_each_appends alloc es IHes h) as (n1 & vs & -> & Hvs & Hn1).
    destruct (alloc_props_appends alloc ex IHex (h ++ n1)) as (n2 & xs & -> & Hxs & Hn2).
    rewrite length_app in Hxs, Hn2.
    exists (n1 ++ n2 ++ [HArr vs xs]), (VRef (length ((h ++ n1) ++ n2))).
    split; [by rewrite <- !app_assoc|]. split; [simpl; rewrite !length_app; lia|].
    apply Forall_app. split; [done|]. apply Forall_app. split.
    + eapply closed_above_le; [|exact Hn2]. lia.
    + constructor; [|done]. cbn [children]. apply Forall_app. split; [done|].
      eapply Forall_impl; [exact Hxs|]. intros y. apply above_le. lia.
  - cbn [alloc].
    destruct (alloc_props_appends alloc ps IHps h) as (n1 & xs & -> & Hxs & Hn1).
    exists (n1 ++ [HObj xs]), (VRef (length (h ++ n1))).
    split; [by rewrite <- !app_assoc|]. split; [simpl; rewrite !length_app; lia|].
    apply Forall_app. split; [done|]. by constructor.
Qed.

Lemma reach_child (h : heap) v a o b o' :
  reach h v a -> h !! a = Some o -> In (VRef b) (children o) -> h !! b = Some o' ->
  reach h v b.
Proof.
  induction 1 as [a o0 Ha0|a0 o0 v0 c Ha0 Hin Hreach IH]; intros Ha Hb Hb'.
  - eapply reach_step; [exact Ha|exact Hb|]. by eapply reach_here.
  - eapply reach_step; [exact Ha0|exact Hin|]. by apply IH.
Qed.

Lemma mapM_Some_ext {A B} (f g : A -> option B) (l : list A) (k : list B) :
  (forall x y, In x l -> f x = Some y -> g x = Some y) ->
  mapM f l = Some k -> mapM g l = Some k.
Proof.
  intros Hfg Hm. apply mapM_Some. apply mapM_Some in Hm.
  induction Hm as [|x y l k Hxy Hrest IH]; constructor.
  - apply Hfg; [by left|done].
  - apply IH. intros x' y' Hx'. apply Hfg. by right.
Qed.

(** A tree that was read is read again, with at least as much fuel, from
    any heap that agrees on the objects below the value. *)
Lemma reify_frame (fuel : nat) : forall (fuel' : nat) (h h' : heap) (v : val) (t : JsVal),
  fuel <= fuel' ->
  (forall a, reach h v a -> h' !! a = h !! a) ->
  reify fuel h v = Some t -> reify fuel' h' v = Some t.
Proof.
  induction fuel as [|fuel IH]; intros fuel' h h' v t Hle Hsame Hread.
  - destruct v; try done; by destruct fuel'.
  - destruct v as [| | | | |a]; try (by destruct fuel').
    destruct fuel' as [|fuel']; [lia|]. cbn [reify] in Hread |- *.
    destruct (h !! a) as [o|] eqn:Ho; [|done].
    rewrite (Hsame a (reach_here h a o Ho)), Ho.
    assert (Hkids : forall c t', In c (children o) ->
              reify fuel h c = Some t' -> reify fuel' h' c = Some t').
    { intros c t' Hc. apply IH; [lia|]. intros b Hb. apply Hsame.
      by eapply reach_step. }
    assert (Hprops : forall ps tps,
              (forall kv, In kv ps -> In kv.2 (children o)) ->
              mapM (fun kv : jsstring * val =>
                      match reify fuel h kv.2 with
                      | Some t => Some (kv.1, t)
                      | None => None
                      end) ps = Some tps ->
              mapM (fun kv : jsstring * val =>
                      match reify fuel' h' kv.2 with
                      | Some t => Some (kv.1, t)
                      | None => None
                      end) ps = Some tps).
    { intros ps tps Hin. apply mapM_Some_ext. intros kv y Hkv.
      destruct (reify fuel h kv.2) as [t'|] eqn:E; [|done].
      by rewrite (Hkids kv.2 t' (Hin kv Hkv) E). }
    destruct o as [ps|es ex]; cbn [children] in *.
    + destruct (mapM _ ps) as [tps|] eqn:Hm; [|done].
      rewrite (Hprops ps tps); [done| |done].
      intros kv Hkv. by apply in_map.
    + destruct (mapM (reify fuel h) es) as [tes|] eqn:Hes; [|done].
      destruct (mapM _ ex) as [tex|] eqn:Hex; [|done].
      rewrite (Hprops ex tex); [| |done].
      * rewrite (mapM_Some_ext (reify fuel h) (reify fuel' h') es tes); [done| |done].
        intros c y Hc. apply Hkids. apply in_or_app. by left.
      * intros kv Hkv. apply in_or_app. right. by apply in_map.
Qed.

Lemma reach_allocated (h : heap) v a : reach h v a -> is_Some (h !! a).
Proof. induction 1; eauto. Qed.

Lemma set_prop_children (Q : val -> Prop) k v (ps : list (jsstring * val)) :
  Q v -> Forall Q (List.map snd ps) -> Forall Q (List.map snd (JSON.set_prop k v ps)).
Proof.
  intros Hv. induction ps as [|[k' v'] ps IH]; simpl; intros Hps.
  - by constructor.
  - inversion Hps; subst. destruct (jsstring_eqb k k'); simpl; constructor; auto.
Qed.

Lemma assoc_children (Q : val -> Prop) k (ps : list (jsstring * val)) v :
  Forall Q (List.map snd ps) -> assoc k ps = Some v -> Q v.
Proof.
  induction ps as [|[k' v'] ps IH]; simpl; [done|]. intros Hps Hk.
  inversion Hps; subst. destruct (jsstring_eqb k k'); [by simplify_eq|auto].
Qed.

(** An assignment puts the assigned value and holes into the object, and
    nothing else. *)
Lemma assign_children (Q : val -> Prop) o k v o' :
  Q VUndefined -> Q v -> Forall Q (children o) -> assign o k v = Ok o' ->
  Forall Q (children o').
Proof.
  intros Hu Hv Ho Ha. destruct o as [ps|es ex]; simpl in Ha.
  - simplify_eq. by apply set_prop_children.
  - cbn [children] in Ho. apply Forall_app in Ho as [Hes Hex].
    destruct (array_index k) as [i|].
    + simplify_eq. cbn [children]. apply Forall_app. split; [|done].
      case_bool_decide.
      * by apply Forall_insert.
      * apply Forall_app. split; [done|]. apply Forall_app. split.
        -- by apply Forall_replicate.
        -- by constructor.
    + destruct (jsstring_eqb k (str "length")).
      * destruct v as [| | |[n [| |]]| |]; try done.
        destruct ((0 <=? n)%Z && (n <? 4294967296)%Z); [|done]. simplify_eq.
        cbn [children]. apply Forall_app. split; [|done].
        apply Forall_app. split; [by apply Forall_take|by apply Forall_replicate].
      * simplify_eq. cbn [children]. apply Forall_app. split; [done|].
        by apply set_prop_children.
Qed.

Lemma get_prop_children (Q : val -> Prop) o k :
  Q VUndefined -> (forall n, Q (VNum n)) -> Forall Q (children o) -> Q (get_prop o k).
Proof.
  intros Hu Hn Ho. destruct o as [ps|es ex]; simpl.
  - destruct (assoc k ps) as [v|] eqn:E; [|done]. by eapply assoc_children.
  - cbn [children] in Ho. apply Forall_app in Ho as [Hes Hex].
    destruct (array_index k) as [i|].
    + destruct (es !! i) as [v|] eqn:E; [|done]. simpl.
      exact (Forall_lookup_1 Q es i v Hes E).
    + destruct (jsstring_eqb k (str "length")); [done|].
      destruct (assoc k ex) as [v|] eqn:E; [|done]. by eapply assoc_children.
Qed.

(** One round of the loop of [baseSet], with keys left after it. *)
Definition baseSet_round (h : heap) (nested : nat) (k k2 : jsstring)
    (continue : heap -> nat -> Res heap) : Res heap :=
  let objValue :=
    match h !! nested with
    | Some o => get_prop o k
    | None => VUndefined
    end in
  let (h0, newValue) :=
    match objValue with
    | VRef _ => (h, objValue)
    | _ => (h ++ [if Lodash.isIndex k2 then HArr [] [] else HObj []], VRef (length h))
    end in
  bind (store h0 nested k newValue) (fun h1 =>
  match h1 !! nested with
  | Some o =>
      match get_prop o k with
      | VRef next => continue h1 next
      | _ => Ok h1
      end
  | None => Ok h1
  end).

Lemma baseSet_unfold h nested k k2 rest value :
  baseSet h nested (k :: k2 :: rest) value
  = baseSet_round h nested k k2 (fun h1 next => baseSet h1 next (k2 :: rest) value).
Proof. reflexivity. Qed.

(** The objects a call may write to: a set [W] of addresses that holds
    every address not yet allocated and, with an object, the objects it
    refers to. *)
Section Frame.

Variable h0 : heap.
Variable W : nat -> Prop.
Hypothesis W_fresh : forall a, length h0 <= a -> W a.

Definition ok_val (v : val) : Prop :=
  match v with
  | VRef b => W b
  | _ => True
  end.

Hypothesis W_closed : forall a o, W a -> h0 !! a = Some o -> Forall ok_val (children o).

(** What every step of the call keeps: the objects outside [W] are as they
    were, and the objects in [W] refer to objects in [W]. *)
Record inv (h : heap) : Prop := {
  inv_length : length h0 <= length h;
  inv_frame : forall a, ~ W a -> h !! a = h0 !! a;
  inv_closed : forall a o, W a -> h !! a = Some o -> Forall ok_val (children o)
}.

Lemma inv_start : inv h0.
Proof. by split. Qed.

Lemma outside_allocated a : ~ W a -> a < length h0.
Proof. intros Ha. destruct (decide (length h0 <= a)); [|lia]. by destruct Ha; apply W_fresh. Qed.

Lemma above_ok v : above (length h0) v -> ok_val v.
Proof. destruct v; simpl; auto. Qed.

Lemma inv_append h news :
  inv h -> Forall (fun o => Forall ok_val (children o)) news -> inv (h ++ news).
Proof.
  intros [Hlen Hframe Hclosed] Hnews. split.
  - rewrite length_app. lia.
  - intros a Ha. rewrite lookup_app_l; [by apply Hframe|].
    apply outside_allocated in Ha. lia.
  - intros a o Ha Ho. apply lookup_app_Some in Ho as [Ho|[_ Ho]].
    + by eapply Hclosed.
    + eapply Forall_lookup_1 in Hnews; [|exact Ho]. done.
Qed.

Lemma store_inv h a k v h' :
  inv h -> W a -> ok_val v -> store h a k v = Ok h' -> inv h'.
Proof.
  intros Hinv Ha Hv. unfold store. destruct (h !! a) as [o|] eqn:Ho; [|by intros [= <-]].
  destruct (assign o k v) as [o'|e] eqn:Hassign; [|done]. intros [= <-].
  destruct Hinv as [Hlen Hframe Hclosed]. split.
  - by rewrite length_insert.
  - intros b Hb. rewrite list_lookup_insert_ne; [by apply Hframe|]. by intros ->.
  - intros b ob Hb Hob. destruct (decide (a = b)) as [->|Hne].
    + rewrite list_lookup_insert_eq in Hob; [|by eapply lookup_lt_Some].
      simplify_eq. eapply assign_children; [| |by eapply Hclosed|exact Hassign]; done.
    + rewrite list_lookup_insert_ne in Hob; [|done]. by eapply Hclosed.
Qed.

Lemma get_prop_ok h a o k : inv h -> W a -> h !! a = Some o -> ok_val (get_prop o k).
Proof.
  intros Hinv Ha Ho. apply get_prop_children; [done|done|]. by eapply inv_closed.
Qed.

Lemma baseSet_inv keys : forall h nested value h',
  inv h -> W nested -> ok_val value -> baseSet h nested keys value = Ok h' -> inv h'.
Proof.
  induction keys as [|k rest IH]; intros h nested value h' Hinv Hnested Hvalue.
  - by intros [= <-].
  - destruct rest as [|k2 rest]; [by apply store_inv|].
    rewrite baseSet_unfold. unfold baseSet_round.
    set (objValue := match h !! nested with Some o => get_prop o k | None => VUndefined end).
    assert (HobjValue : ok_val objValue).
    { subst objValue. destruct (h !! nested) as [o|] eqn:Ho; [|done].
      by eapply get_prop_ok. }
    set (container := if Lodash.isIndex k2 then HArr [] [] else HObj []).
    assert (Hcontainer : inv (h ++ [container])).
    { apply inv_append; [done|]. constructor; [|done]. subst container.
      by destruct (Lodash.isIndex k2). }
    assert (Hlen : ok_val (VRef (length h))) by (apply W_fresh; by destruct Hinv).
    assert (Hstep : forall h1 newValue,
              inv h1 -> ok_val newValue ->
              bind (store h1 nested k newValue) (fun h1 =>
                match h1 !! nested with
                | Some o =>
                    match get_prop o k with
                    | VRef next => baseSet h1 next (k2 :: rest) value
                    | _ => Ok h1
                    end
                | None => Ok h1
                end) = Ok h' -> inv h').
    { intros h1 newValue Hinv1 Hnew.
      destruct (store h1 nested k newValue) as [h1'|e] eqn:Hstore; [|done].
      simpl. apply store_inv in Hstore; [|done..].
      destruct (h1' !! nested) as [o|] eqn:Ho; [|by intros [= <-]].
      pose proof (get_prop_ok h1' nested o k Hstore Hnested Ho) as Hnext.
      destruct (get_prop o k); try by intros [= <-].
      by apply IH. }
    clearbody objValue. destruct objValue; by apply Hstep.
Qed.

Lemma set_inv h object path value h' :
  inv h -> ok_val object -> ok_val value -> set h object path value = Ok h' -> inv h'.
Proof.
  intros Hinv Hobject Hvalue. destruct object; try by intros [= <-].
  by apply baseSet_inv.
Qed.

Lemma set_all_inv mutations : forall h result h',
  inv h -> ok_val result -> Forall (fun m => ok_val m.2) mutations ->
  set_all h result mutations = Ok h' -> inv h'.
Proof.
  induction mutations as [|[path value] rest IH]; intros h result h' Hinv Hresult Hall.
  - by intros [= <-].
  - cbn [set_all]. inversion Hall; subst.
    destruct (set h result path value) as [h1|e] eqn:Hset; [|done]. simpl.
    apply set_inv in Hset; [|done..]. by apply IH.
Qed.

Lemma deep_clone_inv original h result :
  deep_clone h0 original = Ok (h, result) -> inv h /\ ok_val result.
Proof.
  unfold deep_clone. destruct (snapshot h0 original) as [t|]; [|done].
  destruct (JsonMerge.deep_clone t) as [t'|e]; [|done]. simpl.
  destruct (alloc_appends t' h0) as (news & v & -> & Hv & Hnews). intros [= <- <-].
  split; [|by apply above_ok]. apply inv_append; [apply inv_start|].
  eapply Forall_impl; [exact Hnews|]. intros o Ho.
  eapply Forall_impl; [exact Ho|]. apply above_ok.
Qed.

(** The call writes to objects in [W] only. *)
Lemma applyMutations_inv original mutations h result :
  Forall (fun m => ok_val m.2) mutations ->
  applyMutations h0 original mutations = Ok (h, result) -> inv h.
Proof.
  intros Hall. unfold applyMutations.
  destruct (deep_clone h0 original) as [[h1 r]|e] eqn:Hclone; [|done]. simpl.
  apply deep_clone_inv in Hclone as [Hinv Hr].
  destruct (set_all h1 r mutations) as [h2|e] eqn:Hset; [|done]. simpl.
  intros [= <- <-]. by eapply set_all_inv.
Qed.

End Frame.

(** X1. When no object can be reached both from [original] and from the
    value of a mutation, [applyMutations] leaves every object of [original]
    as it was, and [original] reads as before. *)
Theorem applyMutations_frame (h : heap) original mutations h' result :
  (forall path v a, In (path, v) mutations -> reach h v a -> ~ reach h original a) ->
  applyMutations h original mutations = Ok (h', result) ->
  (forall a, reach h original a -> h' !! a = h !! a)
  /\ snapshot h' original = snapshot h original.
Proof.
  intros Hdisjoint Hcall.
  set (W := fun a => length h <= a
                     \/ exists path v, In (path, v) mutations /\ reach h v a).
  assert (Hinv : inv h W h').
  { eapply (applyMutations_inv h W); [| | |exact Hcall].
    - intros a Ha. by left.
    - intros a o Ha Ho. destruct Ha as [Ha|(path & v & Hin & Hreach)].
      { apply lookup_lt_Some in Ho. lia. }
      apply Forall_forall. intros c Hc. destruct c as [| | | | |b]; try done.
      simpl. destruct (h !! b) as [ob|] eqn:Hb.
      + right. exists path, v. split; [done|]. eapply reach_child; eauto.
        by apply list_elem_of_In.
      + left. by apply lookup_ge_None.
    - apply Forall_forall. intros [path v] Hin. simpl.
      destruct v as [| | | | |b]; try done. simpl.
      destruct (h !! b) as [ob|] eqn:Hb.
      + right. exists path, (VRef b). split; [by apply list_elem_of_In|].
        by eapply reach_here.
      + left. by apply lookup_ge_None. }
  assert (Hframe : forall a, reach h original a -> h' !! a = h !! a).
  { intros a Ha. apply (inv_frame h W h' Hinv). intros [Hfresh|(path & v & Hin & Hv)].
    - apply reach_allocated in Ha as [o Ho]. apply lookup_lt_Some in Ho. lia.
    - by eapply Hdisjoint. }
  split; [done|].
  unfold applyMutations, deep_clone in Hcall.
  destruct (snapshot h original) as [t|] eqn:Ht; [|done].
  unfold snapshot in *. eapply reify_frame; [|exact Hframe|exact Ht].
  pose proof (inv_length h W h' Hinv). lia.
Qed.

(** The document [{ c: {} }]: the object at address 0, whose [c] is the
    object at address 1. *)
Definition doc_heap : heap := [HObj [(str "c", VRef 1)]; HObj []].

Example doc_snapshot :
  snapshot doc_heap (VRef 0) = Some (JObj [(str "c", JObj [])]).
Proof. vm_compute. reflexivity. Qed.

(** C5 (what the code does). With [D = { c: {} }] and the mutations
    [[{ path: 'a', value: D.c }, { path: 'a.b', value: 1 }]], the call
    returns a new tree [{ c: {}, a: { b: 1 } }] at a new address, and [D] is
    now [{ c: { b: 1 } }]: the second mutation wrote through the value the
    first one had put in the copy, which is [D]'s own object. *)
Theorem applyMutations_shared_value :
  exists (h' : heap) (result : val),
    applyMutations doc_heap (VRef 0) [(str "a", VRef 1); (str "a.b", VNum (Dec 1 0))]
    = Ok (h', result)
    /\ result = VRef 3
    /\ snapshot h' result
       = Some (JObj [(str "c", JObj []); (str "a", JObj [(str "b", int 1)])])
    /\ snapshot doc_heap (VRef 0) = Some (JObj [(str "c", JObj [])])
    /\ snapshot h' (VRef 0) = Some (JObj [(str "c", JObj [(str "b", int 1)])]).
Proof. eexists _, _. split; [by vm_compute|]. by vm_compute. Qed.

(** With values of their own the same two paths leave [D] as it was. *)
Example applyMutations_fresh_value :
  exists (h' : heap) (result : val),
    applyMutations (doc_heap ++ [HObj []]) (VRef 0)
      [(str "a", VRef 2); (str "a.b", VNum (Dec 1 0))] = Ok (h', result)
    /\ snapshot h' (VRef 0) = Some (JObj [(str "c", JObj [])]).
Proof. eexists _, _. split; [by vm_compute|]. by vm_compute. Qed.

(** The same, from the frame theorem: nothing is reached both from [D] and
    from the new object. *)
Example applyMutations_frame_fresh_value :
  exists (h' : heap) (result : val),
    applyMutations (doc_heap ++ [HObj []]) (VRef 0)
      [(str "a", VRef 2); (str "a.b", VNum (Dec 1 0))] = Ok (h', result)
    /\ snapshot h' (VRef 0) = snapshot (doc_heap ++ [HObj []]) (VRef 0).
Proof.
  eexists _, _. split; [by vm_compute|].
  apply (applyMutations_frame _ _ [(str "a", VRef 2); (str "a.b", VNum (Dec 1 0))]
           _ (VRef 4)); [|by vm_compute].
  intros path v a [Hin|[Hin|[]]]; injection Hin as <- <-; intros Hv HD.
  - assert (a = 2) as ->.
    { inversion Hv as [|? o ? ? Ho Hc]; subst; [done|].
      vm_compute in Ho. injection Ho as <-. destruct Hc. }
    inversion HD as [|? o c ? Ho Hc Hreach]; subst.
    vm_compute in Ho. injection Ho as <-. destruct Hc as [<-|[]].
    inversion Hreach as [|? o' ? ? Ho' Hc']; subst.
    vm_compute in Ho'. injection Ho' as <-. destruct Hc'.
  - inversion Hv.
Defined.

End Heap.

(* ===================================================================== *)
(** * The file system, the clock and the console                          *)
(* ===================================================================== *)

Module Fs.

(** [node:path].  The functions are the platform's; the development is
    parametric in them and uses only the two laws below, which relate the
    ways the modules spell one and the same path. *)
Class PathOps : Type := {
  join : list jsstring -> jsstring;
  basename : jsstring -> jsstring;
  dirname : jsstring -> jsstring;
  resolve : jsstring -> jsstring;
  (** [join(a, b, c + '/' + d) = join(a, b, c, d)] *)
  join_slash : forall a b c d, join [a; b; c ++ str "/" ++ d] = join [a; b; c; d];
  (** [join(join(a, b, c), d) = join(a, b, c, d)] *)
  join_nested : forall a b c d, join [join [a; b; c]; d] = join [a; b; c; d]
}.

(** What a path holds.  A file is kept as the text it decodes to. *)
Inductive node : Type :=
| File (content : jsstring)
| Dir
| Symlink (target : jsstring).

(** The calls made to [node:fs] and to the console, in program order. *)
Inductive Syscall : Type :=
| SysExists (p : jsstring)
| SysLstat (p : jsstring)
| SysReadlink (p : jsstring)
| SysReadFile (p : jsstring)
| SysUnlink (p : jsstring)
| SysMkdir (p : jsstring)
| SysSymlink (target p : jsstring)
| SysCopyFile (src dst : jsstring)
| SysWriteFile (p data : jsstring)
| ConsoleInfo (msg : jsstring)
(** Two markers, not calls: the Snapshot Store starts copying [source],
    and has copied it. *)
| SnapshotBegin (source : jsstring)
| SnapshotEnd (source : jsstring).

(** The calls that change the file system when they succeed. *)
Definition mutating (c : Syscall) : bool :=
  match c with
  | SysUnlink _ | SysMkdir _ | SysSymlink _ _ | SysCopyFile _ _ | SysWriteFile _ _ => true
  | _ => false
  end.

Record World : Type := mkWorld {
  files : gmap (list N) node;
  (** [new Date().toISOString()] *)
  isoNow : jsstring;
  syscalls : list Syscall
}.

(** A computation on the world that may throw. *)
Definition M (A : Type) : Type := World -> Res A * World.

Definition ret {A} (a : A) : M A := fun w => (Ok a, w).

Definition throw {A} (e : JsVal) : M A := fun w => (Raise e, w).

Definition mbind {A B} (m : M A) (k : A -> M B) : M B :=
  fun w => match m w with
           | (Ok a, w') => k a w'
           | (Raise e, w') => (Raise e, w')
           end.

(** [try { m } catch { h }] *)
Definition try_catch {A} (m : M A) (h : JsVal -> M A) : M A :=
  fun w => match m w with
           | (Ok a, w') => (Ok a, w')
           | (Raise e, w') => h e w'
           end.

Lemma mbind_ok {A B} (m : M A) (k : A -> M B) w a w' :
  m w = (Ok a, w') -> mbind m k w = k a w'.
Proof. unfold mbind. by intros ->. Qed.

Lemma mbind_raise {A B} (m : M A) (k : A -> M B) w e w' :
  m w = (Raise e, w') -> mbind m k w = (Raise e, w').
Proof. unfold mbind. by intros ->. Qed.

Declare Scope io_scope.
Delimit Scope io_scope with io.
Notation "'let*' x ':=' m 'in' k" := (mbind m (fun x => k))
  (at level 10, x name, m at level 100, k at level 200) : io_scope.
Notation "'do*' m 'in' k" := (mbind m (fun _ => k))
  (at level 10, m at level 100, k at level 200) : io_scope.
Local Open Scope io_scope.

Definition emit (c : Syscall) : M unit :=
  fun w => (Ok tt, mkWorld (files w) (isoNow w) (syscalls w ++ [c])).

Definition get_files : M (gmap (list N) node) := fun w => (Ok (files w), w).

Definition set_files (fs : gmap (list N) node) : M unit :=
  fun w => (Ok tt, mkWorld fs (isoNow w) (syscalls w)).

(** A system error; [message] starts with the error code. *)
Definition SystemError (code : string) (p : jsstring) : JsVal :=
  Error (str code ++ str ": " ++ p).

(** The entry a path resolves to, following symbolic links (at most 40 of
    them, as the kernel does); [None] for a missing entry, a dangling link
    or a loop.  Link targets are absolute paths. *)
Fixpoint follow (fuel : nat) (fs : gmap (list N) node) (p : jsstring) : option (jsstring * node) :=
  match fs !! p with
  | None => None
  | Some (Symlink t) =>
      match fuel with
      | O => None
      | S fuel' => follow fuel' fs t
      end
  | Some n => Some (p, n)
  end.

Definition MAXSYMLINKS : nat := 40.

Definition exists_in (fs : gmap (list N) node) (p : jsstring) : bool :=
  match follow MAXSYMLINKS fs p with
  | Some _ => true
  | None => false
  end.

(** [existsSync(p)]: never throws. *)
Definition existsSync (p : jsstring) : M bool :=
  do* emit (SysExists p) in
  let* fs := get_files in
  ret (exists_in fs p).

(** [lstatSync(p)]: the entry itself, links not followed. *)
Definition lstatSync (p : jsstring) : M node :=
  do* emit (SysLstat p) in
  let* fs := get_files in
  match fs !! p with
  | Some n => ret n
  | None => throw (SystemError "ENOENT" p)
  end.

Definition isSymbolicLink (stat : node) : bool :=
  match stat with
  | Symlink _ => true
  | _ => false
  end.

Definition readlinkSync (p : jsstring) : M jsstring :=
  do* emit (SysReadlink p) in
  let* fs := get_files in
  match fs !! p with
  | Some (Symlink t) => ret t
  | Some _ => throw (SystemError "EINVAL" p)
  | None => throw (SystemError "ENOENT" p)
  end.

(** [readFileSync(p, 'utf-8')] *)
Definition readFileSync (p : jsstring) : M jsstring :=
  do* emit (SysReadFile p) in
  let* fs := get_files in
  match follow MAXSYMLINKS fs p with
  | Some (_, File data) => ret data
  | Some _ => throw (SystemError "EISDIR" p)
  | None => throw (SystemError "ENOENT" p)
  end.

(** [unlinkSync(p)] removes a file or a link (the link, not its target). *)
Definition unlinkSync (p : jsstring) : M unit :=
  do* emit (SysUnlink p) in
  let* fs := get_files in
  match fs !! p with
  | Some Dir => throw (SystemError "EISDIR" p)
  | Some _ => set_files (delete p fs)
  | None => throw (SystemError "ENOENT" p)
  end.

(** [mkdirSync(p, { recursive: true })]: no error when the directory is
    there already. *)
Definition mkdirSync (p : jsstring) : M unit :=
  do* emit (SysMkdir p) in
  let* fs := get_files in
  match follow MAXSYMLINKS fs p with
  | Some (_, Dir) => ret tt
  | Some _ => throw (SystemError "EEXIST" p)
  | None =>
      match fs !! p with
      | Some _ => throw (SystemError "EEXIST" p)
      | None => set_files (<[p := Dir]> fs)
      end
  end.

Section WithPaths.

Context {P : PathOps}.

(** The directory an entry is created in: [join(p, '..')]. *)
Definition parent (p : jsstring) : jsstring := join [p; str ".."].

Definition parent_is_dir (fs : gmap (list N) node) (p : jsstring) : bool :=
  match follow MAXSYMLINKS fs (parent p) with
  | Some (_, Dir) => true
  | _ => false
  end.

(** [symlinkSync(target, p)] *)
Definition symlinkSync (target p : jsstring) : M unit :=
  do* emit (SysSymlink target p) in
  let* fs := get_files in
  match fs !! p with
  | Some _ => throw (SystemError "EEXIST" p)
  | None =>
      if parent_is_dir fs p then set_files (<[p := Symlink target]> fs)
      else throw (SystemError "ENOENT" p)
  end.

(** Writing through [p]: the path written is the one [p] resolves to when
    it is a link. *)
Definition write_through (fs : gmap (list N) node) (p data : jsstring)
  : option (gmap (list N) node) :=
  match fs !! p with
  | None => if parent_is_dir fs p then Some (<[p := File data]> fs) else None
  | Some _ =>
      match follow MAXSYMLINKS fs p with
      | Some (q, File _) => Some (<[q := File data]> fs)
      | _ => None
      end
  end.

(** [copyFileSync(src, dst)]: [dst] is overwritten when it exists. *)
Definition copyFileSync (src dst : jsstring) : M unit :=
  do* emit (SysCopyFile src dst) in
  let* fs := get_files in
  match follow MAXSYMLINKS fs src with
  | Some (_, File data) =>
      match write_through fs dst data with
      | Some fs' => set_files fs'
      | None => throw (SystemError "ENOENT" dst)
      end
  | Some _ => throw (SystemError "EISDIR" src)
  | None => throw (SystemError "ENOENT" src)
  end.

(** [writeFileSync(p, data)] *)
Definition writeFileSync (p data : jsstring) : M unit :=
  do* emit (SysWriteFile p data) in
  let* fs := get_files in
  match write_through fs p data with
  | Some fs' => set_files fs'
  | None => throw (SystemError "ENOENT" p)
  end.

End WithPaths.

(** Normalises a world expression after a primitive was unfolded. *)
Ltac io_simpl :=
  cbn [files isoNow syscalls fst snd]; rewrite <- ?app_assoc; cbn [app].

(** [info(msg)] of ui.js: a line on the console. *)
Definition info (msg : jsstring) : M unit := emit (ConsoleInfo msg).

(** Paths as plain text: [join] puts a slash between its arguments.  It
    stands for [node:path] on paths that need no normalisation. *)
Fixpoint join_text (segs : list jsstring) : jsstring :=
  match segs with
  | [] => str "."
  | [s] => s
  | s :: rest => s ++ str "/" ++ join_text rest
  end.

Fixpoint last_segment (acc p : jsstring) : jsstring :=
  match p with
  | [] => acc
  | c :: p' => if N.eqb c 47 then last_segment [] p' else last_segment (acc ++ [c]) p'
  end.

Fixpoint drop_last_segment (p : jsstring) : jsstring :=
  match p with
  | [] => []
  | c :: p' =>
      if existsb (N.eqb 47) p' then c :: drop_last_segment p' else []
  end.

Lemma join_text_slash a b c d :
  join_text [a; b; c ++ str "/" ++ d] = join_text [a; b; c; d].
Proof. reflexivity. Qed.

Lemma join_text_nested a b c d :
  join_text [join_text [a; b; c]; d] = join_text [a; b; c; d].
Proof.
  cbn [join_text]. rewrite <- (app_assoc a). f_equal.
  rewrite <- (app_assoc (str "/")). f_equal.
  by rewrite <- (app_assoc b).
Qed.

Definition text_paths : PathOps :=
  {| join := join_text;
     basename := last_segment [];
     dirname := drop_last_segment;
     resolve := fun p => p;
     join_slash := join_text_slash;
     join_nested := join_text_nested |}.

End Fs.

(* ===================================================================== *)
(** * Configuration and user paths: src/config.js, src/lib/st-paths.js    *)
(* ===================================================================== *)

Module StPaths.

Import Fs.

(** The fields of [config] the operations read. *)
Record Config : Type := mkConfig {
  dataRoot : jsstring;
  scaffoldDir : jsstring;
  contentDir : jsstring;
  backupRoot : jsstring;
  dryRun : bool
}.

Section WithPaths.

Context {P : PathOps}.

Definition userCharactersDir (dataRoot handle : jsstring) : jsstring :=
  join [dataRoot; handle; str "characters"].

Definition userWorldsDir (dataRoot handle : jsstring) : jsstring :=
  join [dataRoot; handle; str "worlds"].

Definition userSettingsPath (dataRoot handle : jsstring) : jsstring :=
  join [dataRoot; handle; str "settings.json"].

Definition userContentLogPath (dataRoot handle : jsstring) : jsstring :=
  join [dataRoot; handle; str "content.log"].

Definition scaffoldIndexPath (scaffoldDir : jsstring) : jsstring :=
  join [scaffoldDir; str "index.json"].

End WithPaths.

End StPaths.

(* ===================================================================== *)
(** * The Index Repository: src/lib/content-index.js                      *)
(* ===================================================================== *)

Module ContentIndex.

Import Fs.
Local Open Scope io_scope.

(** A content-descriptor record: [{ filename, type, ...extra }]. *)
Record Entry : Type := mkEntry {
  filename : jsstring;
  type : jsstring;
  extra : list (jsstring * JsVal)
}.

(** [Array.isArray(v)] *)
Definition isArray (v : JsVal) : bool :=
  match v with
  | JArr _ _ => true
  | _ => false
  end.

(** A pure computation inside a world computation. *)
Definition lift {A} (r : Res A) : M A := fun w => (r, w).

Section WithJSON.

(** [JSON.parse] and [entries => JSON.stringify(entries, null, 2)] *)
Variable JSON_parse : jsstring -> Res JsVal.
Variable JSON_stringify : JsVal -> jsstring.

(** [readIndex(indexPath)] *)
Definition readIndex (indexPath : jsstring) : M JsVal :=
  let* present := existsSync indexPath in
  if negb present then ret (arr [])
  else
    try_catch
      (let* raw := readFileSync indexPath in
       let* parsed := lift (JSON_parse raw) in
       ret (if isArray parsed then parsed else arr []))
      (fun _ => ret (arr [])).

(** [writeIndex(indexPath, entries)] *)
Definition writeIndex {P : PathOps} (indexPath : jsstring) (entries : JsVal) : M unit :=
  do* mkdirSync (dirname indexPath) in
  writeFileSync indexPath (JSON_stringify entries ++ str (String "010" "")).

End WithJSON.

(** [addEntry(index, entry)] *)
Definition addEntry (index : list Entry) (entry : Entry) : list Entry :=
  let found := existsb (fun e => jsstring_eqb (filename e) (filename entry)) index in
  if found then index else index ++ [entry].

(** [removeEntries(index, filenames)] *)
Definition removeEntries (index : list Entry) (filenames : list jsstring) : list Entry :=
  List.filter (fun e => negb (existsb (jsstring_eqb (filename e)) filenames)) index.

(** [updateEntry(index, filename, updates)]; [updates] is a function on
    records for the spread [{ ...e, ...updates }]. *)
Definition updateEntry (index : list Entry) (name : jsstring) (updates : Entry -> Entry)
  : list Entry :=
  List.map (fun e => if jsstring_eqb (filename e) name then updates e else e) index.

(** The collection has a record with this filename. *)
Definition has_filename (index : list Entry) (name : jsstring) : Prop :=
  exists e, In e index /\ filename e = name.

Lemma existsb_filename index name :
  existsb (fun e => jsstring_eqb (filename e) name) index = true <-> has_filename index name.
Proof.
  unfold has_filename. rewrite existsb_exists.
  split; intros (e & Hin & He); exists e; split; auto; by apply jsstring_eqb_eq.
Qed.

Lemma includes_In (name : jsstring) (filenames : list jsstring) :
  existsb (jsstring_eqb name) filenames = true <-> In name filenames.
Proof.
  rewrite existsb_exists. split.
  - intros (x & Hin & Hx). apply jsstring_eqb_eq in Hx. by subst.
  - intros Hin. exists name. split; [done|]. apply jsstring_eqb_refl.
Qed.

(** C8. [readIndex] never throws and leaves the file system as it is.  It
    returns the empty array when the path does not exist, when the file
    cannot be read, when its text does not parse, and when the parsed value
    is not an array; otherwise it returns the parsed array. *)
Theorem readIndex_fails_open :
  forall (JSON_parse : jsstring -> Res JsVal) (indexPath : jsstring) (w : World),
    exists (v : JsVal) (w' : World),
      readIndex JSON_parse indexPath w = (Ok v, w')
      /\ files w' = files w
      /\ (exists_in (files w) indexPath = false -> v = arr [])
      /\ (forall q n, follow MAXSYMLINKS (files w) indexPath = Some (q, n) ->
                      (forall raw, n <> File raw) -> v = arr [])
      /\ (forall q raw,
            follow MAXSYMLINKS (files w) indexPath = Some (q, File raw) ->
            (forall e, JSON_parse raw = Raise e -> v = arr [])
            /\ (forall parsed, JSON_parse raw = Ok parsed ->
                               isArray parsed = false -> v = arr [])
            /\ (forall parsed, JSON_parse raw = Ok parsed ->
                               isArray parsed = true -> v = parsed)).
Proof.
  intros JSON_parse indexPath [fs now tr].
  unfold readIndex, existsSync, readFileSync, try_catch, lift, mbind, emit, get_files, ret,
    throw, exists_in.
  io_simpl.
  destruct (follow MAXSYMLINKS fs indexPath) as [[q n]|] eqn:Hf; cbn [negb].
  - io_simpl. rewrite Hf. destruct n as [raw| |t].
    + destruct (JSON_parse raw) as [parsed|e] eqn:Hp.
      * eexists _, _. split; [reflexivity|]. split; [done|]. split; [done|]. split.
        { intros q' n' [= <- <-] Hn. by destruct (Hn raw). }
        intros q' raw' [= <- <-]. rewrite Hp. split; [done|].
        split; intros parsed' [= <-] Harr; by rewrite Harr.
      * eexists _, _. split; [reflexivity|]. split; [done|]. split; [done|]. split; [done|].
        intros q' raw' [= <- <-]. rewrite Hp. by split; [|split].
    + eexists _, _. split; [reflexivity|]. split; [done|]. split; [done|]. split; [done|].
      by intros q' raw' [= <- ?].
    + eexists _, _. split; [reflexivity|]. split; [done|]. split; [done|]. split; [done|].
      by intros q' raw' [= <- ?].
  - eexists _, _. split; [reflexivity|]. by repeat split.
Qed.

Lemma removeEntries_In (index : list Entry) (filenames : list jsstring) (e : Entry) :
  In e (removeEntries index filenames) <-> In e index /\ ~ In (filename e) filenames.
Proof.
  unfold removeEntries. rewrite List.filter_In, negb_true_iff.
  rewrite <- includes_In. by destruct (existsb _ filenames); intuition.
Qed.

Lemma removeEntries_sublist (index : list Entry) (filenames : list jsstring) :
  sublist (removeEntries index filenames) index.
Proof.
  unfold removeEntries. induction index as [|e index IH]; simpl; [constructor|].
  destruct (negb _); by constructor.
Qed.

(** C9. Adding a record whose filename is already in the collection returns
    the collection itself, and otherwise appends the record at the end, so
    adding the same record twice is adding it once; removing keeps, in their
    order, exactly the records whose filename is not in the removal list.
    Adding [{filename: "a", type: "world"}] twice to the empty collection and
    removing ["a"] gives the empty collection. *)
Theorem index_add_remove_algebra :
  forall (C : list Entry) (r : Entry),
    (has_filename C (filename r) -> addEntry C r = C)
    /\ (~ has_filename C (filename r) -> addEntry C r = C ++ [r])
    /\ addEntry (addEntry C r) r = addEntry C r
    /\ (forall filenames e,
          In e (removeEntries C filenames) <-> In e C /\ ~ In (filename e) filenames)
    /\ (forall filenames, sublist (removeEntries C filenames) C)
    /\ removeEntries
         (addEntry (addEntry [] (mkEntry (str "a") (str "world") []))
            (mkEntry (str "a") (str "world") []))
         [str "a"] = [].
Proof.
  intros C r.
  assert (Hadd1 : has_filename C (filename r) -> addEntry C r = C).
  { intros H. unfold addEntry. apply existsb_filename in H. by rewrite H. }
  assert (Hadd2 : ~ has_filename C (filename r) -> addEntry C r = C ++ [r]).
  { intros H. unfold addEntry.
    destruct (existsb _ C) eqn:E; [|done]. by apply existsb_filename in E. }
  split; [exact Hadd1|]. split; [exact Hadd2|]. split.
  { unfold addEntry at 2. destruct (existsb _ C) eqn:E.
    - unfold addEntry. by rewrite E.
    - unfold addEntry. rewrite existsb_app, E. simpl. by rewrite jsstring_eqb_refl. }
  split; [intros; apply removeEntries_In|]. split; [|reflexivity].
  intros filenames. apply removeEntries_sublist.
Qed.

End ContentIndex.

(* ===================================================================== *)
(** * The Snapshot Store: src/backup.js                                   *)
(* ===================================================================== *)

Module Backup.

Import Fs.
Local Open Scope io_scope.

(** [s.replace(/[:.]/g, '-')] *)
Definition dash_colons_dots (s : jsstring) : jsstring :=
  List.map (fun c => if N.eqb c 58 || N.eqb c 46 then 45%N else c) s.

(** [s.replace('T', '-')]: the first ['T'] only. *)
Fixpoint dash_first_T (s : jsstring) : jsstring :=
  match s with
  | [] => []
  | c :: s' => if N.eqb c 84 then 45%N :: s' else c :: dash_first_T s'
  end.

(** [timestamp()] *)
Definition timestamp : M jsstring :=
  fun w => (Ok (firstn 19 (dash_first_T (dash_colons_dots (isoNow w)))), w).

Section WithPaths.

Context {P : PathOps}.

(** [backupFile(filePath, backupDir)]; [None] is [null]. *)
Definition backupFile (filePath backupDir : jsstring) : M (option jsstring) :=
  let* present := existsSync filePath in
  if negb present then ret None
  else
    let* ts := timestamp in
    let backupName := basename filePath ++ str "." ++ ts ++ str ".bak" in
    let backupPath := join [backupDir; backupName] in
    do* emit (SnapshotBegin filePath) in
    do* mkdirSync backupDir in
    do* copyFileSync filePath backupPath in
    do* emit (SnapshotEnd filePath) in
    ret (Some backupPath).

(** [backupUserFile(dataRoot, handle, relativeFilePath, dryRun = false)] *)
Definition backupUserFile (dataRoot handle relativeFilePath : jsstring) (dryRun : bool)
  : M (option jsstring) :=
  let source := join [dataRoot; handle; relativeFilePath] in
  let backupDir := join [dataRoot; handle; str "backups"; str "admin-snapshots"] in
  let* present := existsSync source in
  if negb present then ret None
  else if dryRun then
    do* info (str "[DRY RUN] Would backup " ++ source ++ str " -> " ++ backupDir ++ str "/") in
    ret None
  else backupFile source backupDir.

(** [backupToAdmin(backupRoot, filePath, label, dryRun = false)] *)
Definition backupToAdmin (backupRoot filePath label : jsstring) (dryRun : bool)
  : M (option jsstring) :=
  let* ts := timestamp in
  let dir := join [backupRoot; label ++ str "-" ++ ts] in
  if dryRun then
    do* info (str "[DRY RUN] Would backup " ++ filePath ++ str " -> " ++ dir ++ str "/") in
    ret None
  else backupFile filePath dir.

End WithPaths.

(** The world after the calls [cs] were made and changed nothing. *)
Definition logged (w : World) (cs : list Syscall) : World :=
  mkWorld (files w) (isoNow w) (syscalls w ++ cs).

Example timestamp_format :
  fst (timestamp (mkWorld ∅ (str "2025-01-15T14:30:22.123Z") []))
  = Ok (str "2025-01-15-14-30-22").
Proof. reflexivity. Qed.

(** C7. When the source path does not exist, [backupFile] returns [null]
    after the single [existsSync] test: it writes nothing and creates no
    directory (the file system is the one it started with, and no call that
    changes it was made).  The same holds for the owner-scoped
    [backupUserFile] and for the centralized [backupToAdmin]. *)
Theorem backupFile_missing_source :
  forall (P : PathOps) (w : World) (filePath : jsstring),
    exists_in (files w) filePath = false ->
    (forall backupDir,
        backupFile filePath backupDir w = (Ok None, logged w [SysExists filePath]))
    /\ (forall dataRoot handle relativeFilePath dryRun,
          join [dataRoot; handle; relativeFilePath] = filePath ->
          backupUserFile dataRoot handle relativeFilePath dryRun w
          = (Ok None, logged w [SysExists filePath]))
    /\ (forall backupRoot label,
          backupToAdmin backupRoot filePath label false w
          = (Ok None, logged w [SysExists filePath]))
    /\ (forall backupRoot label,
          exists msg,
            backupToAdmin backupRoot filePath label true w
            = (Ok None, logged w [ConsoleInfo msg]))
    /\ (forall cs, files (logged w cs) = files w)
    /\ (forall msg,
          forallb (fun c => negb (mutating c)) [SysExists filePath; ConsoleInfo msg] = true).
Proof.
  intros P w filePath Hmissing.
  assert (Hbackup : forall backupDir,
             backupFile filePath backupDir w = (Ok None, logged w [SysExists filePath])).
  { intros backupDir. unfold backupFile, existsSync, mbind, emit, get_files, ret.
    cbn [files]. by rewrite Hmissing. }
  split; [exact Hbackup|]. split.
  - intros dataRoot handle rel dryRun <-.
    unfold backupUserFile, existsSync, mbind, emit, get_files, ret.
    cbn [files]. by rewrite Hmissing.
  - split; [|split; [|split]]; [| |intros cs; reflexivity|intros msg; reflexivity].
    + intros backupRoot label.
      unfold backupToAdmin, mbind, timestamp. by rewrite Hbackup.
    + intros backupRoot label.
      unfold backupToAdmin, mbind, timestamp, info, emit, ret. by eexists.
Qed.

Lemma backupFile_missing_source_witness :
  backupFile (P := text_paths)
    (str "/data/alice/settings.json") (str "/data/alice/backups/admin-snapshots")
    (mkWorld (<[str "/data/alice" := Dir]> ∅) (str "2025-01-15T14:30:22.123Z") [])
  = (Ok None,
     mkWorld (<[str "/data/alice" := Dir]> ∅) (str "2025-01-15T14:30:22.123Z")
       [SysExists (str "/data/alice/settings.json")]).
Proof.
  destruct (backupFile_missing_source text_paths
              (mkWorld (<[str "/data/alice" := Dir]> ∅) (str "2025-01-15T14:30:22.123Z") [])
              (str "/data/alice/settings.json")) as [Hnull _].
  - vm_compute. reflexivity.
  - apply Hnull.
Defined.

End Backup.

(* ===================================================================== *)
(** * The Link Resolver: src/modules/lorebook-symlinks.js                 *)
(* ===================================================================== *)

Module Symlinks.

Import Fs.
Local Open Scope io_scope.

(** ['created' | 'already-linked' | 'replaced' | 'skipped'] *)
Inductive LinkOutcome : Type := Created | AlreadyLinked | Replaced | Skipped.

(** [lstatExists(path)] *)
Definition lstatExists (p : jsstring) : M bool :=
  try_catch (do* lstatSync p in ret true) (fun _ => ret false).

(** [existsSync(p) || lstatExists(p)]: the right operand is evaluated only
    when the left one is false. *)
Definition exists_or_lstat (p : jsstring) : M bool :=
  let* found := existsSync p in
  if found then ret true else lstatExists p.

Section WithPaths.

Context {P : PathOps}.

(** The block guarded by [existsSync(targetPath) || lstatExists(targetPath)].
    [Some o] is a [return o] inside the block; [None] means that control
    falls out of the block to the statements after it. *)
Definition existing_entry (sourceAbsolute targetPath handle overridePolicy : jsstring)
    (dryRun : bool) : M (option LinkOutcome) :=
  let* stat := lstatSync targetPath in
  if isSymbolicLink stat then
    let* currentTarget := readlinkSync targetPath in
    if bool_decide (resolve currentTarget = resolve sourceAbsolute) then
      ret (Some AlreadyLinked)
    else if jsstring_eqb overridePolicy (str "skip") then ret (Some Skipped)
    else if dryRun then
      do* info (str "[DRY RUN] Would replace symlink for " ++ handle ++ str ": "
                ++ currentTarget ++ str " -> " ++ sourceAbsolute) in
      ret (Some Replaced)
    else
      do* unlinkSync targetPath in
      ret None
  else
    if jsstring_eqb overridePolicy (str "skip") then ret (Some Skipped)
    else if dryRun then
      do* info (str "[DRY RUN] Would backup and replace file for " ++ handle) in
      ret (Some Replaced)
    else
      do* unlinkSync targetPath in
      ret None.

(** [createSymlinkForUser(sourceAbsolute, targetPath, handle, overridePolicy, dryRun)] *)
Definition createSymlinkForUser (sourceAbsolute targetPath handle overridePolicy : jsstring)
    (dryRun : bool) : M LinkOutcome :=
  let* present := exists_or_lstat targetPath in
  let* returned :=
    (if present
     then existing_entry sourceAbsolute targetPath handle overridePolicy dryRun
     else ret None) in
  match returned with
  | Some outcome => ret outcome
  | None =>
      if dryRun then
        do* info (str "[DRY RUN] Would create symlink: " ++ targetPath ++ str " -> "
                  ++ sourceAbsolute) in
        ret Created
      else
        do* mkdirSync (join [targetPath; str ".."]) in
        do* symlinkSync sourceAbsolute targetPath in
        ret Created
  end.

(** The unit operation of [run]: snapshot an ordinary file that is about
    to be replaced, resolve the link, classify the outcome. *)
Definition linkForUser (config : StPaths.Config) (filename absolutePath policy : jsstring)
    (handle : jsstring) : M JsVal :=
  let worldsDir := StPaths.userWorldsDir (StPaths.dataRoot config) handle in
  let targetPath := join [worldsDir; filename] in
  do* (if jsstring_eqb policy (str "all") then
         let* found := existsSync targetPath in
         if found then
           let* stat := lstatSync targetPath in
           if negb (isSymbolicLink stat) then
             do* Backup.backupUserFile (StPaths.dataRoot config) handle
                   (str "worlds/" ++ filename) (StPaths.dryRun config) in
             ret tt
           else ret tt
         else ret tt
       else ret tt) in
  let* result := createSymlinkForUser absolutePath targetPath handle policy
                   (StPaths.dryRun config) in
  match result with
  | AlreadyLinked => ret (JObj [(str "skipped", JStr (str "already symlinked to same source"))])
  | Skipped => ret (JObj [(str "skipped", JStr (str "existing file preserved"))])
  | _ => ret (JStr (str "success"))
  end.

(** The target holds an ordinary file, or a link to another source. *)
Definition occupied_by_other (sourceAbsolute : jsstring) (entry : node) : Prop :=
  match entry with
  | File _ => True
  | Symlink t => resolve t <> resolve sourceAbsolute
  | Dir => False
  end.

End WithPaths.

Lemma follow_not_link (fuel : nat) (fs : gmap (list N) node) (p : jsstring) (n : node) :
  fs !! p = Some n -> isSymbolicLink n = false -> follow fuel fs p = Some (p, n).
Proof. intros Hp Hn. destruct fuel; simpl; rewrite Hp; by destruct n. Qed.

Definition quiet (cs : list Syscall) : Prop :=
  forallb (fun c => negb (mutating c)) cs = true.

Lemma quiet_app cs1 cs2 : quiet cs1 -> quiet cs2 -> quiet (cs1 ++ cs2).
Proof. unfold quiet. rewrite forallb_app. by intros -> ->. Qed.

Section ResolverFacts.

Context {P : PathOps}.
Variables (fs : gmap (list N) node) (now : jsstring).
Variables (sourceAbsolute targetPath handle overridePolicy : jsstring) (entry : node).
Hypothesis Hentry : fs !! targetPath = Some entry.
Hypothesis Hother : occupied_by_other sourceAbsolute entry.
Hypothesis Hpolicy : overridePolicy <> str "skip".

(** The guard [existsSync(targetPath) || lstatExists(targetPath)] holds. *)
Lemma target_present tr :
  exists cs,
    exists_or_lstat targetPath (mkWorld fs now tr)
    = (Ok true, mkWorld fs now (tr ++ cs))
    /\ quiet cs.
Proof.
  unfold exists_or_lstat, existsSync, lstatExists, try_catch, lstatSync, mbind, emit, get_files, ret.
  io_simpl. destruct (exists_in fs targetPath).
  - by exists [SysExists targetPath].
  - io_simpl. rewrite Hentry. io_simpl.
    by exists [SysExists targetPath; SysLstat targetPath].
Qed.

Lemma policy_not_skip : jsstring_eqb overridePolicy (str "skip") = false.
Proof. unfold jsstring_eqb. by rewrite bool_decide_eq_false_2. Qed.

(** In a real run the block unlinks the entry and falls through. *)
Lemma existing_entry_real tr :
  exists cs,
    existing_entry sourceAbsolute targetPath handle overridePolicy false (mkWorld fs now tr)
    = (Ok None, mkWorld (delete targetPath fs) now (tr ++ cs ++ [SysUnlink targetPath]))
    /\ quiet cs.
Proof.
  unfold existing_entry, lstatSync, readlinkSync, unlinkSync,
    mbind, emit, get_files, set_files, ret.
  io_simpl. rewrite Hentry.
  destruct entry as [c| |t]; [| destruct Hother |]; cbn [isSymbolicLink].
  - rewrite policy_not_skip. io_simpl. rewrite Hentry. io_simpl.
    by exists [SysLstat targetPath].
  - io_simpl. rewrite Hentry.
    rewrite bool_decide_eq_false_2 by exact Hother.
    rewrite policy_not_skip. io_simpl. rewrite Hentry. io_simpl.
    by exists [SysLstat targetPath; SysReadlink targetPath].
Qed.

(** In a dry run the block returns ['replaced']. *)
Lemma existing_entry_dry tr :
  exists cs,
    existing_entry sourceAbsolute targetPath handle overridePolicy true (mkWorld fs now tr)
    = (Ok (Some Replaced), mkWorld fs now (tr ++ cs))
    /\ quiet cs.
Proof.
  unfold existing_entry, lstatSync, readlinkSync, info,
    mbind, emit, get_files, set_files, ret.
  io_simpl. rewrite Hentry.
  destruct entry as [c| |t]; [| destruct Hother |]; cbn [isSymbolicLink].
  - rewrite policy_not_skip. io_simpl.
    by eexists [SysLstat targetPath; ConsoleInfo _].
  - io_simpl. rewrite Hentry.
    rewrite bool_decide_eq_false_2 by exact Hother.
    rewrite policy_not_skip. io_simpl.
    by eexists [SysLstat targetPath; SysReadlink targetPath; ConsoleInfo _].
Qed.

Hypothesis Hparent : fs !! join [targetPath; str ".."] = Some Dir.

(** Once the entry is gone, the directory is found and the link is made. *)
Lemma link_created tr :
  (do* mkdirSync (join [targetPath; str ".."]) in
   do* symlinkSync sourceAbsolute targetPath in
   ret Created) (mkWorld (delete targetPath fs) now tr)
  = (Ok Created,
     mkWorld (<[targetPath := Symlink sourceAbsolute]> fs) now
       (tr ++ [SysMkdir (join [targetPath; str ".."]);
               SysSymlink sourceAbsolute targetPath])).
Proof.
  assert (Hne : join [targetPath; str ".."] <> targetPath).
  { intros Heq. rewrite Heq, Hentry in Hparent. inversion Hparent; subst.
    destruct Hother. }
  assert (Hp' : delete targetPath fs !! join [targetPath; str ".."] = Some Dir)
    by (by rewrite lookup_delete_ne).
  unfold mkdirSync, symlinkSync, parent_is_dir, parent, mbind, emit, get_files, set_files, ret.
  io_simpl.
  rewrite (follow_not_link _ _ _ Dir Hp' eq_refl).
  io_simpl.
  rewrite lookup_delete_eq, (follow_not_link _ _ _ Dir Hp' eq_refl).
  io_simpl.
  by rewrite insert_delete_eq.
Qed.

End ResolverFacts.

(** C2 (what the code does). When the target holds an ordinary file or a
    link to another source and the policy is not [skip], a real run removes
    the entry and creates the link, but the tag it returns is [Created]; the
    dry run of the same state and policy changes nothing and returns
    [Replaced]. *)
Theorem createSymlinkForUser_replace_all :
  forall (P : PathOps) (w : World) (sourceAbsolute targetPath handle overridePolicy : jsstring)
         (entry : node),
    files w !! targetPath = Some entry ->
    occupied_by_other sourceAbsolute entry ->
    overridePolicy <> str "skip" ->
    files w !! join [targetPath; str ".."] = Some Dir ->
    (exists cs,
        createSymlinkForUser sourceAbsolute targetPath handle overridePolicy false w
        = (Ok Created,
           mkWorld (<[targetPath := Symlink sourceAbsolute]> (files w)) (isoNow w)
             (syscalls w ++ cs ++ [SysUnlink targetPath;
                                   SysMkdir (join [targetPath; str ".."]);
                                   SysSymlink sourceAbsolute targetPath]))
        /\ quiet cs)
    /\ (exists cs,
          createSymlinkForUser sourceAbsolute targetPath handle overridePolicy true w
          = (Ok Replaced, mkWorld (files w) (isoNow w) (syscalls w ++ cs))
          /\ quiet cs).
Proof.
  intros P [fs now tr] src tgt handle policy entry Hentry Hocc Hpolicy Hparent.
  cbn [files isoNow syscalls] in *.
  destruct (target_present fs now tgt entry Hentry tr) as (cs1 & Hpres & Hq1).
  split.
  - destruct (existing_entry_real fs now src tgt handle policy entry Hentry Hocc Hpolicy
                (tr ++ cs1)) as (cs2 & Hblock & Hq2).
    exists (cs1 ++ cs2). split; [|by apply quiet_app].
    unfold createSymlinkForUser.
    rewrite (mbind_ok _ _ _ _ _ Hpres). cbn beta iota.
    rewrite (mbind_ok _ _ _ _ _ Hblock). cbn beta iota.
    rewrite (link_created fs now src tgt entry Hentry Hocc Hparent).
    by rewrite <- !app_assoc.
  - destruct (existing_entry_dry fs now src tgt handle policy entry Hentry Hocc Hpolicy
                (tr ++ cs1)) as (cs2 & Hblock & Hq2).
    exists (cs1 ++ cs2). split; [|by apply quiet_app].
    unfold createSymlinkForUser.
    rewrite (mbind_ok _ _ _ _ _ Hpres). cbn beta iota.
    rewrite (mbind_ok _ _ _ _ _ Hblock). cbn beta iota.
    unfold ret. by rewrite <- !app_assoc.
Qed.

(** A user whose worlds directory holds a copy of the lorebook.  With paths
    as plain text the directory of [p] is spelled [p/..]. *)
Definition alice_has_copy : World :=
  mkWorld (<[str "/data/alice/worlds/Lore.json" := File (str "{}")]>
             (<[str "/data/alice/worlds/Lore.json/.." := Dir]> ∅))
          (str "2025-01-15T14:30:22.123Z") [].

Lemma createSymlinkForUser_replace_all_witness :
  fst (createSymlinkForUser (P := text_paths) (str "/scaffold/worlds/Lore.json")
         (str "/data/alice/worlds/Lore.json") (str "alice") (str "all") false
         alice_has_copy) = Ok Created
  /\ fst (createSymlinkForUser (P := text_paths) (str "/scaffold/worlds/Lore.json")
            (str "/data/alice/worlds/Lore.json") (str "alice") (str "all") true
            alice_has_copy) = Ok Replaced.
Proof.
  destruct (createSymlinkForUser_replace_all text_paths alice_has_copy
              (str "/scaffold/worlds/Lore.json") (str "/data/alice/worlds/Lore.json")
              (str "alice") (str "all") (File (str "{}")))
    as [(cs & Hreal & _) (cs' & Hdry & _)].
  - vm_compute. reflexivity.
  - exact I.
  - discriminate.
  - vm_compute. reflexivity.
  - rewrite Hreal, Hdry. split; reflexivity.
Defined.

End Symlinks.

(* ===================================================================== *)
(** * The Batch Executor: [batchOperation]                                *)
(* ===================================================================== *)

Module Batch.

(** How one call of the per-user operation ends: the awaited promise is
    fulfilled with a value, or the call throws (or the promise rejects). *)
Inductive Completion : Type :=
| Returned (result : JsVal)
| Thrown (err : JsVal).

(** [BatchResults]. *)
Record BatchResults : Type := mkResults {
  success : list jsstring;
  skipped : list (jsstring * JsVal);   (* { handle, reason } *)
  failed : list (jsstring * JsVal)     (* { handle, error } *)
}.

(** What the executor does to the outside, in program order. *)
Inductive Event : Type :=
| EvConsoleLog
| EvBarStart (total : nat)
| EvBarUpdate (status : jsstring)
| EvCall (handle : jsstring)
| EvBarIncrement
| EvBarStop
| EvPrintBatchReport (results : BatchResults) (label : jsstring).

Definition push_success (r : BatchResults) (h : jsstring) : BatchResults :=
  mkResults (success r ++ [h]) (skipped r) (failed r).

Definition push_skipped (r : BatchResults) (h : jsstring) (reason : JsVal) : BatchResults :=
  mkResults (success r) (skipped r ++ [(h, reason)]) (failed r).

Definition push_failed (r : BatchResults) (h : jsstring) (error : JsVal) : BatchResults :=
  mkResults (success r) (skipped r) (failed r ++ [(h, error)]).

(** [result && typeof result === 'object' && result.skipped] *)
Definition is_skip_marker (result : JsVal) : bool :=
  truthy result && typeof_object result && truthy (own_prop result (str "skipped")).

(** The body of [try { ... } catch (err) { ... }] once [operationFn] has
    completed.  The [catch] block reads [err.message], which itself throws
    when [err] is [null] or [undefined]; that exception is not caught. *)
Definition record (r : BatchResults) (h : jsstring) (c : Completion) : Res BatchResults :=
  match c with
  | Returned result =>
      if is_skip_marker result
      then Ok (push_skipped r h (own_prop result (str "skipped")))
      else Ok (push_success r h)
  | Thrown err =>
      bind (member err (str "message")) (fun m => Ok (push_failed r h m))
  end.

Section Executor.

(** Everything the operation can read or change (the file system, its own
    closure variables) is the world [W]. *)
Context {W : Type}.

Definition Operation : Type := jsstring -> W -> Completion * W.

Record LoopState : Type := mkLoop {
  world : W;
  results : BatchResults;
  trace : list Event
}.

(** [for (const handle of users) { ... }].  An exception leaving the loop
    body ends the loop; the state reached so far is kept alongside it. *)
Fixpoint loop (operationFn : Operation) (users : list jsstring) (st : LoopState)
  : Res BatchResults * LoopState :=
  match users with
  | [] => (Ok (results st), st)
  | handle :: rest =>
      let tr := trace st ++ [EvBarUpdate handle; EvCall handle] in
      let (c, w') := operationFn handle (world st) in
      match record (results st) handle c with
      | Ok r' => loop operationFn rest (mkLoop w' r' (tr ++ [EvBarIncrement]))
      | Raise e => (Raise e, mkLoop w' (results st) tr)
      end
  end.

Definition empty_results : BatchResults := mkResults [] [] [].

(** [batchOperation(users, operationFn, label)]: the returned report (or the
    exception that left the function), the final world and the trace. *)
Definition batchOperation (users : list jsstring) (operationFn : Operation)
    (label : jsstring) (w : W) : Res BatchResults * W * list Event :=
  match users with
  | [] => (Ok empty_results, w, [EvConsoleLog])
  | _ =>
      let st0 := mkLoop w empty_results [EvConsoleLog; EvBarStart (length users)] in
      match loop operationFn users st0 with
      | (Ok r, st) =>
          (Ok r, world st,
           trace st ++ [EvBarUpdate (str "Done"); EvBarStop; EvPrintBatchReport r label])
      | (Raise e, st) => (Raise e, world st, trace st)
      end
  end.

(** The completions of the successive calls, each made in the world the
    previous one left. *)
Fixpoint completions (operationFn : Operation) (users : list jsstring) (w : W)
  : list Completion :=
  match users with
  | [] => []
  | h :: rest =>
      let (c, w') := operationFn h w in c :: completions operationFn rest w'
  end.

Fixpoint final_world (operationFn : Operation) (users : list jsstring) (w : W) : W :=
  match users with
  | [] => w
  | h :: rest => final_world operationFn rest (snd (operationFn h w))
  end.

End Executor.

(** The handles the operation was called with, in call order. *)
Definition calls (tr : list Event) : list jsstring :=
  omap (fun e => match e with EvCall h => Some h | _ => None end) tr.

(** A thrown value that is an error object (anything but [null] and
    [undefined]). *)
Definition throws_error (c : Completion) : Prop :=
  match c with
  | Thrown e => nullish e = false
  | Returned _ => True
  end.

(** The class of a completed call. *)
Inductive Class : Type := CSuccess | CSkipped (reason : JsVal) | CFailed (error : JsVal).

Definition classify (c : Completion) : Class :=
  match c with
  | Returned result =>
      if is_skip_marker result then CSkipped (own_prop result (str "skipped")) else CSuccess
  | Thrown err => CFailed (own_prop err (str "message"))
  end.

Definition successes (hcs : list (jsstring * Completion)) : list jsstring :=
  omap (fun hc => match classify hc.2 with CSuccess => Some hc.1 | _ => None end) hcs.

Definition skips (hcs : list (jsstring * Completion)) : list (jsstring * JsVal) :=
  omap (fun hc => match classify hc.2 with CSkipped r => Some (hc.1, r) | _ => None end) hcs.

Definition failures (hcs : list (jsstring * Completion)) : list (jsstring * JsVal) :=
  omap (fun hc => match classify hc.2 with CFailed e => Some (hc.1, e) | _ => None end) hcs.

(** Occurrences of a handle in a list of handles. *)
Definition count (h : jsstring) (l : list jsstring) : nat :=
  length (List.filter (jsstring_eqb h) l).

(** ** Properties *)

Section ExecutorFacts.

Context {W : Type}.
Implicit Types (op : @Operation W) (users : list jsstring) (w : W).

Lemma completions_length op users w :
  length (completions op users w) = length users.
Proof.
  revert w; induction users as [|h rest IH]; intros w; simpl; [done|].
  destruct (op h w) as [c w']; simpl; by rewrite IH.
Qed.

Lemma record_classify r h c :
  throws_error c ->
  record r h c =
    Ok (match classify c with
        | CSuccess => push_success r h
        | CSkipped reason => push_skipped r h reason
        | CFailed e => push_failed r h e
        end).
Proof.
  destruct c as [result|err]; simpl.
  - intros _. by destruct (is_skip_marker result).
  - by destruct err.
Qed.

(** The loop never leaves early, calls the operation on each handle in
    turn, and files every call under its class. *)
Lemma loop_spec op users st :
  Forall throws_error (completions op users (world st)) ->
  let hcs := zip users (completions op users (world st)) in
  exists tr,
    loop op users st =
      (Ok (mkResults (success (results st) ++ successes hcs)
                     (skipped (results st) ++ skips hcs)
                     (failed (results st) ++ failures hcs)),
       mkLoop (final_world op users (world st))
              (mkResults (success (results st) ++ successes hcs)
                         (skipped (results st) ++ skips hcs)
                         (failed (results st) ++ failures hcs))
              tr)
    /\ calls tr = calls (trace st) ++ users.
Proof.
  revert st; induction users as [|h rest IH]; intros [w r tr0]; simpl.
  - intros _. exists tr0. destruct r; simpl. by rewrite !app_nil_r.
  - destruct (op h w) as [c w'] eqn:Hop; simpl. intros Hall.
    apply Forall_cons in Hall as [Hc Hall].
    rewrite (record_classify r h c Hc).
    unfold successes, skips, failures; simpl.
    destruct (classify c) as [|reason|e] eqn:Hcl;
      match goal with
      | |- context [loop op rest ?s] => destruct (IH s Hall) as (tr & -> & Hcalls)
      end; simpl in *; exists tr;
      (split; [by rewrite <- ?app_assoc|]);
      rewrite Hcalls; unfold calls; rewrite !omap_app; simpl;
      by rewrite app_nil_r, <- app_assoc.
Qed.

Lemma batchOperation_spec op users label w :
  Forall throws_error (completions op users w) ->
  let hcs := zip users (completions op users w) in
  exists tr,
    batchOperation users op label w =
      (Ok (mkResults (successes hcs) (skips hcs) (failures hcs)),
       final_world op users w, tr)
    /\ calls tr = users.
Proof.
  intros Hall hcs. destruct users as [|h rest] eqn:Hu.
  - by exists [EvConsoleLog].
  - rewrite <- Hu in *. unfold batchOperation.
    destruct (loop_spec op users
                (mkLoop w empty_results [EvConsoleLog; EvBarStart (length users)]) Hall)
      as (tr & Hloop & Hcalls).
    simpl in Hloop, Hcalls. subst hcs. rewrite Hu in Hloop |- *. rewrite Hloop. simpl.
    eexists; split; [reflexivity|].
    unfold calls in *. rewrite omap_app. simpl. rewrite app_nil_r.
    by rewrite <- Hu.
Qed.

Lemma failures_lookup (hcs : list (jsstring * Completion)) i h err :
  hcs !! i = Some (h, Thrown err) ->
  In (h, own_prop err (str "message")) (failures hcs).
Proof.
  intros Hi. apply list_elem_of_In. unfold failures.
  apply list_elem_of_omap. exists (h, Thrown err). split; [|done].
  apply list_elem_of_lookup. by exists i.
Qed.

Lemma count_app h (l k : list jsstring) : count h (l ++ k) = count h l + count h k.
Proof. unfold count. by rewrite List.filter_app, length_app. Qed.

Lemma count_classes h (hcs : list (jsstring * Completion)) :
  count h (successes hcs) + count h (map fst (skips hcs)) + count h (map fst (failures hcs))
  = count h (map fst hcs).
Proof.
  induction hcs as [|[h' c] hcs IH]; [done|].
  unfold successes, skips, failures in *. cbn [omap list_omap map fst snd].
  change (count h (h' :: map fst hcs)) with (count h ([h'] ++ map fst hcs)).
  rewrite count_app, <- IH.
  destruct (classify c); cbn [map fst];
    repeat match goal with
           | |- context [count h (?x :: ?l)] =>
               lazymatch l with
               | [] => fail
               | _ => change (count h (x :: l)) with (count h ([x] ++ l)); rewrite count_app
               end
           end; lia.
Qed.

Lemma length_classes (hcs : list (jsstring * Completion)) :
  length (successes hcs) + length (skips hcs) + length (failures hcs) = length hcs.
Proof.
  induction hcs as [|[h' c] hcs IH]; [done|].
  unfold successes, skips, failures in *. cbn [omap list_omap fst snd].
  destruct (classify c); simpl; lia.
Qed.

Lemma classes_sublist (hcs : list (jsstring * Completion)) :
  sublist (successes hcs) (map fst hcs)
  /\ sublist (map fst (skips hcs)) (map fst hcs)
  /\ sublist (map fst (failures hcs)) (map fst hcs).
Proof.
  induction hcs as [|[h' c] hcs (IH1 & IH2 & IH3)]; [repeat split; constructor|].
  unfold successes, skips, failures in *. cbn [omap list_omap map fst snd].
  destruct (classify c); cbn [map fst]; repeat split; by constructor.
Qed.

Lemma zip_completions_fst op users w :
  map fst (zip users (completions op users w)) = users.
Proof. apply fst_zip. by rewrite completions_length. Qed.

End ExecutorFacts.

(** The claim's reading of the partition: all the occurrences of [h] sit in
    one of the three lists. *)
Definition in_exactly_one_list (h : jsstring) (r : BatchResults) (users : list jsstring) : Prop :=
  let n := count h users in
  let s := count h (success r) in
  let k := count h (map fst (skipped r)) in
  let f := count h (map fst (failed r)) in
  (s = n /\ k = 0 /\ f = 0) \/ (s = 0 /\ k = n /\ f = 0) \/ (s = 0 /\ k = 0 /\ f = n).

Lemma count_notin h (l : list jsstring) : ~ In h l -> count h l = 0.
Proof.
  induction l as [|x l IH]; [done|]. intros Hn. unfold count in *. simpl.
  unfold jsstring_eqb at 1. rewrite bool_decide_eq_false_2.
  - apply IH. intros Hin. apply Hn. by right.
  - intros ->. apply Hn. by left.
Qed.

Lemma count_NoDup h (l : list jsstring) : NoDup l -> In h l -> count h l = 1.
Proof.
  induction 1 as [|x l Hx Hnd IH]; [done|]. intros [->|Hin].
  - change (h :: l) with ([h] ++ l). rewrite count_app, (count_notin h l).
    + unfold count. simpl. unfold jsstring_eqb. by rewrite bool_decide_eq_true_2.
    + intros Hin. apply Hx. by apply list_elem_of_In.
  - change (x :: l) with ([x] ++ l). rewrite count_app, (IH Hin).
    unfold count. simpl. unfold jsstring_eqb. rewrite bool_decide_eq_false_2; [done|].
    intros ->. apply Hx. by apply list_elem_of_In.
Qed.

(** A three-unit operation whose second unit fails. *)
Definition second_fails : @Operation unit :=
  fun h w =>
    if jsstring_eqb h (str "u2")
    then (Thrown (Error (str "EACCES: permission denied")), w)
    else (Returned (JStr (str "success")), w).

(** An operation that succeeds on its first call and fails afterwards; its
    world is the number of calls made so far. *)
Definition first_call_only : @Operation nat :=
  fun h n =>
    (if Nat.eqb n 0 then Returned (JStr (str "success"))
     else Thrown (Error (str "ENOENT: no such file")), S n).



(** A thrown [null] has no [message] to read: the [catch] block itself
    throws and the exception leaves [batchOperation]. *)
Lemma batchOperation_thrown_null_escapes :
  exists e tr,
    batchOperation [str "u1"] (fun _ (w : unit) => (Thrown JNull, w)) (str "Delete") tt
    = (Raise e, tt, tr).
Proof. by eexists _, _. Qed.

(** C10 (as the code has it). Every call is filed under exactly one of the
    three lists, the one of its class: the lists are the handles of the
    successful, skipped and failed calls, each in call order.  Hence for
    every handle its occurrences in the three lists add up to its
    occurrences in the input, the three lengths add up to the length of the
    input, each list is a subsequence of the input, and a handle of an input
    without repetition is in exactly one list. *)
Theorem batchOperation_partitions_calls :
  forall (W : Type) (op : @Operation W) (users : list jsstring) (label : jsstring) (w : W),
    Forall throws_error (completions op users w) ->
    exists report tr,
      batchOperation users op label w = (Ok report, final_world op users w, tr)
      /\ (success report = successes (zip users (completions op users w))
          /\ skipped report = skips (zip users (completions op users w))
          /\ failed report = failures (zip users (completions op users w)))
      /\ (forall h,
            count h (success report) + count h (map fst (skipped report))
            + count h (map fst (failed report)) = count h users)
      /\ length (success report) + length (skipped report) + length (failed report)
         = length users
      /\ (sublist (success report) users
          /\ sublist (map fst (skipped report)) users
          /\ sublist (map fst (failed report)) users)
      /\ (NoDup users -> forall h, In h users -> in_exactly_one_list h report users).
Proof.
  intros W op users label w Hall.
  destruct (batchOperation_spec op users label w Hall) as (tr & Hrun & Hcalls).
  eexists _, tr. split; [exact Hrun|]. cbn [success skipped failed].
  set (hcs := zip users (completions op users w)).
  assert (Hfst : map fst hcs = users) by apply zip_completions_fst.
  assert (Hcount : forall h,
             count h (successes hcs) + count h (map fst (skips hcs))
             + count h (map fst (failures hcs)) = count h users).
  { intros h. by rewrite count_classes, Hfst. }
  split; [done|]. split; [exact Hcount|]. split.
  { rewrite length_classes, <- (length_map fst hcs). by rewrite Hfst. }
  split.
  { rewrite <- Hfst. apply classes_sublist. }
  intros Hnd h Hin. unfold in_exactly_one_list. cbn [success skipped failed].
  specialize (Hcount h). rewrite (count_NoDup h users Hnd Hin) in *. lia.
Qed.

Lemma batchOperation_partitions_calls_witness :
  exists report tr,
    batchOperation [str "u1"; str "u2"; str "u3"] second_fails (str "Delete") tt
    = (Ok report, tt, tr)
    /\ length (success report) + length (skipped report) + length (failed report) = 3
    /\ in_exactly_one_list (str "u2") report [str "u1"; str "u2"; str "u3"].
Proof.
  destruct (batchOperation_partitions_calls unit second_fails
              [str "u1"; str "u2"; str "u3"] (str "Delete") tt)
    as (report & tr & Hrun & _ & _ & Hlen & _ & Hone).
  - repeat constructor.
  - exists report, tr. split; [exact Hrun|]. split; [exact Hlen|].
    apply Hone.
    + repeat constructor; rewrite ?list_elem_of_In; simpl; intuition discriminate.
    + simpl; tauto.
Defined.

(** C10 as stated fails when a handle is listed twice and its two calls end
    differently: the handle is then in two of the lists. *)
Lemma batchOperation_repeated_handle_in_two_lists :
  exists report tr,
    batchOperation [str "u1"; str "u1"] first_call_only (str "Delete") 0
    = (Ok report, 2, tr)
    /\ Forall throws_error (completions first_call_only [str "u1"; str "u1"] 0)
    /\ In (str "u1") [str "u1"; str "u1"]
    /\ In (str "u1") (success report)
    /\ In (str "u1") (map fst (failed report))
    /\ ~ in_exactly_one_list (str "u1") report [str "u1"; str "u1"].
Proof.
  eexists _, _. split; [reflexivity|]. split; [repeat constructor|].
  split; [by left|]. split; [by left|]. split; [by left|].
  unfold in_exactly_one_list. vm_compute. intros [H|[H|H]]; destruct H as (? & ? & ?); discriminate.
Qed.

End Batch.

(* ===================================================================== *)
(** * Bulk edits of settings.json: src/modules/bulk-settings.js            *)
(* ===================================================================== *)

Module BulkSettings.

Import Fs Backup StPaths JsonMerge.
Import ContentIndex (lift).
Local Open Scope io_scope.

(** What a unit operation returns: ['success'] or [{ skipped: reason }]. *)
Definition success : JsVal := JStr (str "success").

Definition skipped (reason : string) : JsVal := JObj [(str "skipped", JStr (str reason))].

Definition CHARLORE_PATH : jsstring := str "world_info_settings.world_info.charLore".

(** [{ name: charName.trim(), extraBooks }] *)
Definition charLore_entry (name : jsstring) (extraBooks : list jsstring) : JsVal :=
  JObj [(str "name", JStr name); (str "extraBooks", arr (List.map JStr extraBooks))].

(** [v !== s] for a string [s]. *)
Definition differs_from_string (v : JsVal) (s : jsstring) : bool :=
  match v with
  | JStr s' => negb (jsstring_eqb s' s)
  | _ => true
  end.

(** [list.filter(fn)] with a callback that may throw. *)
Fixpoint filter_res (fn : JsVal -> Res bool) (l : list JsVal) : Res (list JsVal) :=
  match l with
  | [] => Ok []
  | e :: l' =>
      bind (fn e) (fun keep =>
      bind (filter_res fn l') (fun kept =>
      Ok (if keep then e :: kept else kept)))
  end.

(** [Array.isArray(current) ? current : []], as the list of elements. *)
Definition array_or_empty (current : JsVal) : list JsVal :=
  match current with
  | JArr es _ => es
  | _ => []
  end.

(** The named-list upsert of [addCharLore]: read the list, drop the entries
    of the same name, append the new entry, set the list at its path.
    Returns the new list and the updated settings. *)
Definition upsertCharLore (settings : JsVal) (name : jsstring) (extraBooks : list jsstring)
  : Res (list JsVal * JsVal) :=
  let entry := charLore_entry name extraBooks in
  let currentCharLore := Lodash.get settings CHARLORE_PATH (arr []) in
  let charLore := array_or_empty currentCharLore in
  bind (filter_res (fun e => bind (member e (str "name"))
                               (fun n => Ok (differs_from_string n name))) charLore)
    (fun kept =>
       let filtered := kept ++ [entry] in
       bind (applyMutations settings [(CHARLORE_PATH, arr filtered)])
         (fun updated => Ok (filtered, updated))).

Section WithJSON.

Variable JSON_parse : jsstring -> Res JsVal.
Variable JSON_stringify : JsVal -> jsstring.
Context {P : PathOps}.

(** [readSettings(path)] *)
Definition readSettings (path : jsstring) : M JsVal :=
  let* present := existsSync path in
  if negb present then ret JNull
  else
    let* raw := readFileSync path in
    lift (JSON_parse raw).

(** [writeSettings(path, settings)] *)
Definition writeSettings (path : jsstring) (settings : JsVal) : M unit :=
  writeFileSync path (JSON_stringify settings ++ str (String "010" "")).

(** The frame shared by the four unit operations: find and read the
    settings, take the snapshot in a real run, compute the update with
    [edit], then report in a dry run or write in a real one. *)
Definition edit_settings (config : Config) (handle : jsstring)
    (edit : JsVal -> Res (jsstring * JsVal)) : M JsVal :=
  let settingsPath := userSettingsPath (dataRoot config) handle in
  let* present := existsSync settingsPath in
  if negb present then ret (skipped "no settings.json")
  else
    let* settings := readSettings settingsPath in
    match settings with
    | JNull => ret (skipped "no settings.json")
    | _ =>
        do* (if negb (dryRun config)
             then do* backupUserFile (dataRoot config) handle (str "settings.json") false in
                  ret tt
             else ret tt) in
        let* result := lift (edit settings) in
        let (message, updated) := result in
        do* (if dryRun config then info message else writeSettings settingsPath updated) in
        ret success
    end.

(** The unit operation of [setKeyValues]. *)
Definition setKeyValues (config : Config) (mutations : list (jsstring * JsVal))
    (handle : jsstring) : M JsVal :=
  edit_settings config handle (fun settings =>
    bind (applyMutations settings mutations) (fun updated =>
    Ok (str "[DRY RUN] Would update " ++ userSettingsPath (dataRoot config) handle,
        updated))).

(** The unit operation of [syncFromTemplate]. *)
Definition syncFromTemplate (config : Config) (template : JsVal)
    (selectedKeys : list jsstring) (handle : jsstring) : M JsVal :=
  edit_settings config handle (fun settings =>
    bind (syncSections settings template selectedKeys) (fun updated =>
    Ok (str "[DRY RUN] Would sync sections to "
        ++ userSettingsPath (dataRoot config) handle, updated))).

(** [list.includes(name)] for a string [name]. *)
Definition includes_string (list : list JsVal) (name : jsstring) : bool :=
  existsb (fun e => negb (differs_from_string e name)) list.

(** The unit operation of [linkLorebook].  The name is pushed onto the
    array found in [settings]; the copy made by [applyMutations] then has
    the extended array at the key in either case. *)
Definition linkLorebook (config : Config) (lorebookName settingsKey : jsstring)
    (handle : jsstring) : M JsVal :=
  edit_settings config handle (fun settings =>
    let currentList := Lodash.get settings settingsKey (arr []) in
    let list := array_or_empty currentList in
    let list' := if includes_string list (trim lorebookName) then list
                 else list ++ [JStr (trim lorebookName)] in
    bind (applyMutations settings [(settingsKey, arr list')]) (fun updated =>
    Ok (str "[DRY RUN] Would add " ++ quoted lorebookName ++ str " to " ++ settingsKey
        ++ str " in " ++ userSettingsPath (dataRoot config) handle, updated))).

(** The unit operation of [addCharLore]. *)
Definition addCharLore (config : Config) (name : jsstring) (extraBooks : list jsstring)
    (handle : jsstring) : M JsVal :=
  edit_settings config handle (fun settings =>
    bind (upsertCharLore settings name extraBooks) (fun fu =>
    let (filtered, updated) := fu in
    let charLore :=
      array_or_empty (Lodash.get settings CHARLORE_PATH (arr [])) in
    let action := if Nat.eqb (length filtered) (length charLore)
                  then str "add" else str "replace" in
    Ok (str "[DRY RUN] Would " ++ action ++ str " charLore entry for "
        ++ quoted name ++ str " in " ++ userSettingsPath (dataRoot config) handle,
        updated))).

End WithJSON.

(** ** The named-list upsert *)

(** The list the upsert starts from. *)
Definition charLore_of (settings : JsVal) : list JsVal :=
  array_or_empty (Lodash.get settings CHARLORE_PATH (arr [])).

(** The record carries another name (or none). *)
Definition other_name (name : jsstring) (e : JsVal) : bool :=
  differs_from_string (own_prop e (str "name")) name.

Lemma filter_res_records (name : jsstring) (l : list JsVal) :
  Forall (fun e => nullish e = false) l ->
  filter_res (fun e => bind (member e (str "name"))
                         (fun n => Ok (differs_from_string n name))) l
  = Ok (List.filter (other_name name) l).
Proof.
  induction 1 as [|e l He Hl IH]; [done|].
  cbn [filter_res List.filter]. rewrite IH. unfold other_name.
  destruct e; try done; cbn [member bind]; by case_match.
Qed.

Lemma charLore_keys :
  Lodash.split_dots CHARLORE_PATH []
  = [str "world_info_settings"; str "world_info"; str "charLore"].
Proof. vm_compute. reflexivity. Qed.

Lemma plain_key_by_test (k : jsstring) :
  array_index k = None -> jsstring_eqb k (str "length") = false -> Lodash.plain_key k.
Proof.
  intros Hidx Hlen. split; [done|]. intros ->. by rewrite jsstring_eqb_refl in Hlen.
Qed.

Lemma charLore_path_plain :
  Lodash.plain_key CHARLORE_PATH
  /\ Forall Lodash.plain_key (Lodash.split_dots CHARLORE_PATH [])
  /\ hd [] (Lodash.split_dots CHARLORE_PATH []) <> CHARLORE_PATH.
Proof.
  rewrite charLore_keys. split; [|split].
  - apply plain_key_by_test; vm_compute; reflexivity.
  - repeat (apply List.Forall_cons;
            [apply plain_key_by_test; vm_compute; reflexivity|]).
    apply List.Forall_nil.
  - cbn [hd]. intros Heq. apply (f_equal (@length N)) in Heq. vm_compute in Heq.
    discriminate.
Qed.

Lemma json_copy_isObject (v : JsVal) :
  Lodash.isObject v = true -> Lodash.isObject (json_copy v) = true.
Proof. by destruct v. Qed.

(** Setting the list at the charLore path of any object or array. *)
Lemma applyMutations_charLore (settings : JsVal) (l : list JsVal) :
  Lodash.isObject settings = true ->
  exists updated,
    applyMutations settings [(CHARLORE_PATH, arr l)] = Ok updated
    /\ Lodash.isObject updated = true
    /\ Lodash.get updated CHARLORE_PATH (arr []) = arr l.
Proof.
  intros Hobj. unfold applyMutations, deep_clone.
  destruct charLore_path_plain as (H1 & H2 & H3).
  destruct (Lodash.get_set (json_copy settings) CHARLORE_PATH (arr l) (arr [])
              (json_copy_isObject _ Hobj) H1 H2 H3 ltac:(done))
    as (updated & Hset & Hobj' & Hget).
  exists updated. destruct settings; try done; cbn [bind set_all]; by rewrite Hset.
Qed.

Lemma other_name_entry (name : jsstring) (books : list jsstring) :
  other_name name (charLore_entry name books) = false.
Proof.
  unfold other_name, charLore_entry. cbn [own_prop assoc].
  rewrite jsstring_eqb_refl. cbn [default from_option id differs_from_string].
  by rewrite jsstring_eqb_refl.
Qed.

Lemma filter_filter_same {A} (f : A -> bool) (l : list A) :
  List.filter f (List.filter f l) = List.filter f l.
Proof.
  induction l as [|e l IH]; [done|]. cbn [List.filter].
  destruct (f e) eqn:E; cbn [List.filter]; by rewrite ?E, IH.
Qed.

Lemma filter_filter_negb {A} (f : A -> bool) (l : list A) :
  List.filter (fun e => negb (f e)) (List.filter f l) = [].
Proof.
  induction l as [|e l IH]; [done|]. cbn [List.filter].
  destruct (f e) eqn:E; cbn [List.filter]; by rewrite ?E.
Qed.

Lemma filter_other_idem (name : jsstring) (books : list jsstring) (l : list JsVal) :
  List.filter (other_name name) (List.filter (other_name name) l ++ [charLore_entry name books])
  = List.filter (other_name name) l.
Proof.
  rewrite List.filter_app. cbn [List.filter]. rewrite other_name_entry.
  by rewrite app_nil_r, filter_filter_same.
Qed.

Lemma filter_same_name (name : jsstring) (books : list jsstring) (l : list JsVal) :
  List.filter (fun e => negb (other_name name e))
    (List.filter (other_name name) l ++ [charLore_entry name books])
  = [charLore_entry name books].
Proof.
  rewrite List.filter_app. cbn [List.filter]. rewrite other_name_entry.
  by rewrite filter_filter_negb.
Qed.

Lemma upsertCharLore_spec (settings : JsVal) (name : jsstring) (books : list jsstring) :
  Lodash.isObject settings = true ->
  Forall (fun e => nullish e = false) (charLore_of settings) ->
  exists updated,
    upsertCharLore settings name books
    = Ok (List.filter (other_name name) (charLore_of settings) ++ [charLore_entry name books],
          updated)
    /\ Lodash.isObject updated = true
    /\ charLore_of updated
       = List.filter (other_name name) (charLore_of settings) ++ [charLore_entry name books].
Proof.
  intros Hobj Hrec. unfold upsertCharLore. fold (charLore_of settings).
  rewrite (filter_res_records name _ Hrec). cbn [bind].
  destruct (applyMutations_charLore settings
              (List.filter (other_name name) (charLore_of settings)
               ++ [charLore_entry name books]) Hobj) as (updated & Happly & Hobj' & Hget).
  exists updated. rewrite Happly. cbn [bind]. split; [done|]. split; [done|].
  unfold charLore_of. by rewrite Hget.
Qed.


(** Settings with three charLore records, the second one for Seraphina. *)
Definition three_records : JsVal :=
  JObj [(str "world_info_settings",
         JObj [(str "world_info",
                JObj [(str "charLore",
                       arr [charLore_entry (str "Aria") [str "a"];
                            charLore_entry (str "Seraphina") [str "old"];
                            charLore_entry (str "Zed") [str "z"]])])])].


End BulkSettings.

(* ===================================================================== *)
(** * The other unit operations                                           *)
(* ===================================================================== *)

(** src/modules/reset-content-log.js *)
Module ResetContentLog.

Import Fs Backup StPaths.
Local Open Scope io_scope.

Section WithPaths.

Context {P : PathOps}.

(** The unit operation of [fullReset]. *)
Definition fullReset (config : Config) (handle : jsstring) : M JsVal :=
  let logPath := userContentLogPath (dataRoot config) handle in
  let* present := existsSync logPath in
  if negb present then ret (BulkSettings.skipped "no content.log")
  else if dryRun config then
    do* info (str "[DRY RUN] Would delete " ++ logPath) in
    ret BulkSettings.success
  else
    do* backupUserFile (dataRoot config) handle (str "content.log") false in
    do* unlinkSync logPath in
    ret BulkSettings.success.

End WithPaths.

End ResetContentLog.

(** src/modules/bulk-delete.js *)
Module BulkDelete.

Import Fs Backup StPaths.
Local Open Scope io_scope.

Section WithPaths.

Context {P : PathOps}.

(** The unit operation of [run]; [backupFirst] is the operator's answer to
    [Create backups before deleting?]. *)
Definition deleteForUser (config : Config) (subDir filename : jsstring) (backupFirst : bool)
    (handle : jsstring) : M JsVal :=
  let filePath := join [dataRoot config; handle; subDir; JsonMerge.trim filename] in
  let* present := existsSync filePath in
  if negb present then ret (BulkSettings.skipped "file not found")
  else if dryRun config then
    do* info (str "[DRY RUN] Would delete " ++ filePath) in
    ret BulkSettings.success
  else
    do* (if backupFirst
         then do* backupUserFile (dataRoot config) handle
                    (subDir ++ str "/" ++ JsonMerge.trim filename) false in
              ret tt
         else ret tt) in
    do* unlinkSync filePath in
    ret BulkSettings.success.

End WithPaths.

End BulkDelete.

(** src/modules/push-characters.js *)
Module PushCharacters.

Import Fs StPaths.
Local Open Scope io_scope.

Section WithPaths.

Context {P : PathOps}.

(** The unit operation of [immediatePush]. *)
Definition pushForUser (config : Config) (sourcePath filename : jsstring)
    (handle : jsstring) : M JsVal :=
  let targetDir := userCharactersDir (dataRoot config) handle in
  let targetPath := join [targetDir; filename] in
  if dryRun config then
    do* info (str "[DRY RUN] Would copy " ++ sourcePath ++ str " -> " ++ targetPath) in
    ret BulkSettings.success
  else
    do* mkdirSync targetDir in
    do* copyFileSync sourcePath targetPath in
    ret BulkSettings.success.

End WithPaths.

End PushCharacters.

(* ===================================================================== *)
(** * The backup-before-write protocol                                    *)
(* ===================================================================== *)

Module Protocol.

Import Fs Backup StPaths.
Local Open Scope io_scope.

(** The path itself holds an ordinary file. *)
Definition holds_file (fs : gmap (list N) node) (p : jsstring) : bool :=
  match fs !! p with
  | Some (File _) => true
  | _ => false
  end.

(** The path leads to an ordinary file, directly or through links. *)
Definition resolves_to_file (fs : gmap (list N) node) (p : jsstring) : bool :=
  match follow MAXSYMLINKS fs p with
  | Some (_, File _) => true
  | _ => false
  end.

(** The existing file that a call deletes or overwrites, if any; [fs] is
    the file system the operation started in. *)
Definition destroyed (fs : gmap (list N) node) (c : Syscall) : option jsstring :=
  match c with
  | SysUnlink p => if holds_file fs p then Some p else None
  | SysWriteFile p _ => if resolves_to_file fs p then Some p else None
  | SysCopyFile _ p => if resolves_to_file fs p then Some p else None
  | _ => None
  end.

(** The protocol on a sequence of calls: a call that destroys an existing
    file comes after the Snapshot Store has copied that file.  The calls the
    store makes itself, between its two markers, are its own business;
    [inside] tells whether the store is at work and [snapped] lists the
    files it has copied so far. *)
Fixpoint snapshots_first (fs : gmap (list N) node) (inside : bool)
    (snapped : list jsstring) (calls : list Syscall) : bool :=
  match calls with
  | [] => true
  | SnapshotBegin _ :: rest => snapshots_first fs true snapped rest
  | SnapshotEnd source :: rest => snapshots_first fs false (source :: snapped) rest
  | c :: rest =>
      (inside
       || match destroyed fs c with
          | Some p => existsb (jsstring_eqb p) snapped
          | None => true
          end)
      && snapshots_first fs inside snapped rest
  end.

(** The calls a computation adds to the log. *)
Definition new_calls {A} (m : M A) (w : World) : list Syscall :=
  drop (length (syscalls w)) (syscalls (snd (m w))).

(** The computation follows the protocol from every world. *)
Definition snapshot_before_write {A} (m : M A) : Prop :=
  forall w, snapshots_first (files w) false [] (new_calls m w) = true.

Lemma holds_file_exists (fs : gmap (list N) node) (p : jsstring) :
  exists_in fs p = false -> holds_file fs p = false.
Proof.
  unfold exists_in, holds_file. destruct (fs !! p) as [[c| |t]|] eqn:E; try done.
  by rewrite (Symlinks.follow_not_link _ _ _ _ E eq_refl).
Qed.

Lemma resolves_to_file_exists (fs : gmap (list N) node) (p : jsstring) :
  exists_in fs p = false -> resolves_to_file fs p = false.
Proof. unfold exists_in, resolves_to_file. by destruct (follow _ fs p). Qed.

(** ** A weakest-precondition calculus for the protocol *)

Section Logic.

(** The file system the operation started in. *)
Variable fs0 : gmap (list N) node.

(** The state of the check: is the store at work, and what has it copied. *)
Definition pstate : Type := bool * list jsstring.

Definition step (st : pstate) (c : Syscall) : option pstate :=
  match c with
  | SnapshotBegin _ => Some (true, st.2)
  | SnapshotEnd source => Some (false, source :: st.2)
  | _ =>
      if st.1 || match destroyed fs0 c with
                 | Some p => existsb (jsstring_eqb p) st.2
                 | None => true
                 end
      then Some st else None
  end.

Fixpoint advance (st : pstate) (cs : list Syscall) : option pstate :=
  match cs with
  | [] => Some st
  | c :: cs' =>
      match step st c with
      | Some st' => advance st' cs'
      | None => None
      end
  end.

Lemma advance_app st cs1 cs2 :
  advance st (cs1 ++ cs2) =
  match advance st cs1 with
  | Some st' => advance st' cs2
  | None => None
  end.
Proof.
  revert st; induction cs1 as [|c cs1 IH]; intros st; [done|].
  simpl. destruct (step st c); [apply IH|done].
Qed.

Lemma advance_snapshots_first st cs st' :
  advance st cs = Some st' -> snapshots_first fs0 st.1 st.2 cs = true.
Proof.
  revert st; induction cs as [|c cs IH]; intros [inside snapped]; [done|].
  cbn [advance]. destruct (step (inside, snapped) c) as [st1|] eqn:Hstep; [|done].
  intros Hadv. specialize (IH _ Hadv).
  destruct c; cbn [step fst snd] in Hstep; cbn [snapshots_first fst snd];
    try (by simplify_eq);
    (destruct (inside || _) eqn:E; [|done]; by simplify_eq).
Qed.

(** [wp m Q st fs]: run from any world whose files are [fs], with the check
    in state [st], the calls that [m] makes pass the check, and its result,
    the state of the check and the files it leaves satisfy [Q]. *)
Definition wp {A} (m : M A) (Q : Res A -> pstate -> gmap (list N) node -> Prop)
    (st : pstate) (fs : gmap (list N) node) : Prop :=
  forall now tr,
    exists r fs' cs st',
      m (mkWorld fs now tr) = (r, mkWorld fs' now (tr ++ cs))
      /\ advance st cs = Some st'
      /\ Q r st' fs'.

Lemma wp_mono {A} (m : M A) (Q Q' : Res A -> pstate -> gmap (list N) node -> Prop) st fs :
  (forall r st' fs', Q r st' fs' -> Q' r st' fs') -> wp m Q st fs -> wp m Q' st fs.
Proof.
  intros HQ Hwp now tr. destruct (Hwp now tr) as (r & fs' & cs & st' & Hrun & Hadv & Hq).
  exists r, fs', cs, st'. auto.
Qed.

Lemma wp_ret {A} (a : A) Q st fs : Q (Ok a) st fs -> wp (ret a) Q st fs.
Proof. intros HQ now tr. exists (Ok a), fs, [], st. by rewrite app_nil_r. Qed.

Lemma wp_throw {A} (e : JsVal) (Q : Res A -> _) st fs :
  Q (Raise e) st fs -> wp (throw e) Q st fs.
Proof. intros HQ now tr. exists (Raise e), fs, [], st. by rewrite app_nil_r. Qed.

Lemma wp_lift {A} (x : Res A) Q st fs : Q x st fs -> wp (ContentIndex.lift x) Q st fs.
Proof. intros HQ now tr. exists x, fs, [], st. by rewrite app_nil_r. Qed.

Lemma wp_timestamp Q st fs : (forall ts, Q (Ok ts) st fs) -> wp timestamp Q st fs.
Proof. intros HQ now tr. eexists _, fs, [], st. rewrite app_nil_r. by split; [|split]. Qed.

Lemma wp_get_files Q st fs : Q (Ok fs) st fs -> wp get_files Q st fs.
Proof. intros HQ now tr. exists (Ok fs), fs, [], st. by rewrite app_nil_r. Qed.

Lemma wp_set_files fs' Q st fs : Q (Ok tt) st fs' -> wp (set_files fs') Q st fs.
Proof. intros HQ now tr. exists (Ok tt), fs', [], st. by rewrite app_nil_r. Qed.

Lemma wp_emit c Q st fs st' :
  step st c = Some st' -> Q (Ok tt) st' fs -> wp (emit c) Q st fs.
Proof.
  intros Hstep HQ now tr. exists (Ok tt), fs, [c], st'.
  split; [done|]. split; [|done]. cbn [advance]. by rewrite Hstep.
Qed.

Lemma wp_bind {A B} (m : M A) (k : A -> M B) Q st fs :
  wp m (fun r st' fs' =>
          match r with
          | Ok a => wp (k a) Q st' fs'
          | Raise e => Q (Raise e) st' fs'
          end) st fs ->
  wp (mbind m k) Q st fs.
Proof.
  intros Hm now tr. destruct (Hm now tr) as (r & fs1 & cs1 & st1 & Hrun & Hadv & Hk).
  unfold mbind. rewrite Hrun. destruct r as [a|e].
  - destruct (Hk now (tr ++ cs1)) as (r2 & fs2 & cs2 & st2 & Hrun2 & Hadv2 & HQ).
    exists r2, fs2, (cs1 ++ cs2), st2. rewrite Hrun2, app_assoc.
    split; [done|]. split; [|done]. by rewrite advance_app, Hadv.
  - by exists (Raise e), fs1, cs1, st1.
Qed.

Lemma wp_try_catch {A} (m : M A) (h : JsVal -> M A) Q st fs :
  wp m (fun r st' fs' =>
          match r with
          | Ok a => Q (Ok a) st' fs'
          | Raise e => wp (h e) Q st' fs'
          end) st fs ->
  wp (try_catch m h) Q st fs.
Proof.
  intros Hm now tr. destruct (Hm now tr) as (r & fs1 & cs1 & st1 & Hrun & Hadv & Hk).
  unfold try_catch. rewrite Hrun. destruct r as [a|e].
  - by exists (Ok a), fs1, cs1, st1.
  - destruct (Hk now (tr ++ cs1)) as (r2 & fs2 & cs2 & st2 & Hrun2 & Hadv2 & HQ).
    exists r2, fs2, (cs1 ++ cs2), st2. rewrite Hrun2, app_assoc.
    split; [done|]. split; [|done]. by rewrite advance_app, Hadv.
Qed.

(** A call that destroys nothing, or nothing that was not copied, passes. *)
Definition may_call (st : pstate) (c : Syscall) : Prop :=
  st.1 = true
  \/ match destroyed fs0 c with
     | Some p => In p st.2
     | None => True
     end.

Lemma step_may_call st c :
  match c with SnapshotBegin _ | SnapshotEnd _ => False | _ => True end ->
  may_call st c -> step st c = Some st.
Proof.
  intros Hc Hmay.
  assert (Hb : st.1 || match destroyed fs0 c with
                       | Some p => existsb (jsstring_eqb p) st.2
                       | None => true
                       end = true).
  { destruct Hmay as [->|Hmay]; [done|]. apply orb_true_iff. right.
    destruct (destroyed fs0 c) as [p|]; [|done].
    apply existsb_exists. exists p. split; [done|]. apply jsstring_eqb_refl. }
  destruct c; try done; cbn [step]; by rewrite Hb.
Qed.

Lemma wp_quiet c Q st fs :
  match c with
  | SysUnlink _ | SysWriteFile _ _ | SysCopyFile _ _ | SnapshotBegin _ | SnapshotEnd _ => False
  | _ => True
  end ->
  Q (Ok tt) st fs -> wp (emit c) Q st fs.
Proof.
  intros Hc HQ. apply wp_emit with (st' := st); [|done].
  apply step_may_call; [by destruct c|]. right. by destruct c.
Qed.

Lemma wp_call c Q st fs :
  match c with SnapshotBegin _ | SnapshotEnd _ => False | _ => True end ->
  may_call st c -> Q (Ok tt) st fs -> wp (emit c) Q st fs.
Proof. intros Hc Hmay HQ. apply wp_emit with (st' := st); [by apply step_may_call|done]. Qed.

(** The calls of [node:fs]. *)

Lemma wp_existsSync p Q st fs :
  Q (Ok (exists_in fs p)) st fs -> wp (existsSync p) Q st fs.
Proof.
  intros HQ. unfold existsSync. apply wp_bind, wp_quiet; [done|].
  apply wp_bind, wp_get_files. by apply wp_ret.
Qed.

Lemma wp_lstatSync p Q st fs :
  (forall n, fs !! p = Some n -> Q (Ok n) st fs) ->
  (forall e, fs !! p = None -> Q (Raise e) st fs) ->
  wp (lstatSync p) Q st fs.
Proof.
  intros Hok Herr. unfold lstatSync. apply wp_bind, wp_quiet; [done|].
  apply wp_bind, wp_get_files. cbn beta iota.
  destruct (fs !! p) eqn:E; [apply wp_ret|apply wp_throw]; auto.
Qed.

Lemma wp_readlinkSync p Q st fs :
  (forall r, Q r st fs) -> wp (readlinkSync p) Q st fs.
Proof.
  intros HQ. unfold readlinkSync. apply wp_bind, wp_quiet; [done|].
  apply wp_bind, wp_get_files. cbn beta iota.
  destruct (fs !! p) as [[]|]; first [apply wp_ret|apply wp_throw]; auto.
Qed.

Lemma wp_readFileSync p Q st fs :
  (forall r, Q r st fs) -> wp (readFileSync p) Q st fs.
Proof.
  intros HQ. unfold readFileSync. apply wp_bind, wp_quiet; [done|].
  apply wp_bind, wp_get_files. cbn beta iota.
  destruct (follow _ fs p) as [[? []]|]; first [apply wp_ret|apply wp_throw]; auto.
Qed.

Lemma wp_info msg Q st fs : Q (Ok tt) st fs -> wp (info msg) Q st fs.
Proof. intros HQ. by apply wp_quiet. Qed.

Lemma wp_unlinkSync p Q st fs :
  may_call st (SysUnlink p) -> (forall r fs', Q r st fs') -> wp (unlinkSync p) Q st fs.
Proof.
  intros Hmay HQ. unfold unlinkSync. apply wp_bind, wp_call; [done|done|].
  apply wp_bind, wp_get_files. cbn beta iota.
  destruct (fs !! p) as [[]|]; first [apply wp_set_files|apply wp_throw]; auto.
Qed.

Lemma wp_mkdirSync p Q st fs :
  (forall r fs', Q r st fs') -> wp (mkdirSync p) Q st fs.
Proof.
  intros HQ. unfold mkdirSync. apply wp_bind, wp_quiet; [done|].
  apply wp_bind, wp_get_files. cbn beta iota.
  destruct (follow _ fs p) as [[? []]|]; [| | |destruct (fs !! p)];
    first [apply wp_ret|apply wp_set_files|apply wp_throw]; auto.
Qed.

Section WithPaths.

Context {P : PathOps}.

Lemma wp_symlinkSync target p Q st fs :
  (forall r fs', Q r st fs') -> wp (symlinkSync target p) Q st fs.
Proof.
  intros HQ. unfold symlinkSync. apply wp_bind, wp_quiet; [done|].
  apply wp_bind, wp_get_files. cbn beta iota.
  destruct (fs !! p); [|destruct (parent_is_dir fs p)];
    first [apply wp_set_files|apply wp_throw]; auto.
Qed.

Lemma wp_copyFileSync src dst Q st fs :
  may_call st (SysCopyFile src dst) -> (forall r fs', Q r st fs') ->
  wp (copyFileSync src dst) Q st fs.
Proof.
  intros Hmay HQ. unfold copyFileSync. apply wp_bind, wp_call; [done|done|].
  apply wp_bind, wp_get_files. cbn beta iota.
  destruct (follow _ fs src) as [[? [data| |]]|]; [destruct (write_through fs dst data)| | |];
    first [apply wp_set_files|apply wp_throw]; auto.
Qed.

Lemma wp_writeFileSync p data Q st fs :
  may_call st (SysWriteFile p data) -> (forall r fs', Q r st fs') ->
  wp (writeFileSync p data) Q st fs.
Proof.
  intros Hmay HQ. unfold writeFileSync. apply wp_bind, wp_call; [done|done|].
  apply wp_bind, wp_get_files. cbn beta iota.
  destruct (write_through fs p data); first [apply wp_set_files|apply wp_throw]; auto.
Qed.

(** What a real run of the Snapshot Store on [source] establishes, started
    outside the store with [snapped] copied: when it returns, the store is
    done and [source] was absent at the start or is now copied. *)
Definition backed_up {A} (snapped : list jsstring) (source : jsstring)
    (r : Res A) (st : pstate) : Prop :=
  match r with
  | Ok _ =>
      st.1 = false
      /\ (exists_in fs0 source = false \/ In source st.2)
      /\ (forall p, In p snapped -> In p st.2)
  | Raise _ => True
  end.

Lemma wp_backupFile filePath backupDir Q snapped :
  (forall r st' fs', backed_up snapped filePath r st' -> Q r st' fs') ->
  wp (backupFile filePath backupDir) Q (false, snapped) fs0.
Proof.
  intros HQ. unfold backupFile. apply wp_bind, wp_existsSync. cbn beta iota.
  destruct (exists_in fs0 filePath) eqn:Hex; cbn [negb].
  - apply wp_bind, wp_timestamp. intros ts. cbn beta iota.
    apply wp_bind. apply wp_emit with (st' := (true, snapped)); [done|].
    apply wp_bind, wp_mkdirSync. intros [[]|e] fs1; [|by apply HQ].
    apply wp_bind, wp_copyFileSync; [by left|]. intros [[]|e] fs2; [|by apply HQ].
    apply wp_bind. apply wp_emit with (st' := (false, filePath :: snapped)); [done|].
    apply wp_ret, HQ. split; [done|]. split; [right; by left|]. intros p Hp. by right.
  - apply wp_ret, HQ. by split; [|split; [left|]].
Qed.

Lemma wp_backupUserFile dataRoot handle rel Q snapped :
  (forall r st' fs', backed_up snapped (join [dataRoot; handle; rel]) r st' -> Q r st' fs') ->
  wp (backupUserFile dataRoot handle rel false) Q (false, snapped) fs0.
Proof.
  intros HQ. unfold backupUserFile. apply wp_bind, wp_existsSync. cbn beta iota.
  destruct (exists_in fs0 _) eqn:Hex; cbn [negb].
  - by apply wp_backupFile.
  - apply wp_ret, HQ. by split; [|split; [left|]].
Qed.

Lemma wp_backupUserFile_dry dataRoot handle rel Q st :
  Q (Ok None) st fs0 ->
  wp (backupUserFile dataRoot handle rel true) Q st fs0.
Proof.
  intros HQ. unfold backupUserFile. apply wp_bind, wp_existsSync. cbn beta iota.
  destruct (exists_in fs0 _); cbn [negb]; [|by apply wp_ret].
  apply wp_bind, wp_info. by apply wp_ret.
Qed.

(** After a snapshot of [p], or when [p] was absent, [p] may be destroyed. *)
Lemma may_unlink st p :
  exists_in fs0 p = false \/ In p st.2 -> may_call st (SysUnlink p).
Proof.
  intros H. right. cbn [destroyed]. destruct (holds_file fs0 p) eqn:E; [|done].
  destruct H as [H|H]; [|done]. apply holds_file_exists in H. congruence.
Qed.

Lemma may_write st p data :
  exists_in fs0 p = false \/ In p st.2 -> may_call st (SysWriteFile p data).
Proof.
  intros H. right. cbn [destroyed]. destruct (resolves_to_file fs0 p) eqn:E; [|done].
  destruct H as [H|H]; [|done]. apply resolves_to_file_exists in H. congruence.
Qed.

End WithPaths.

End Logic.

Lemma wp_snapshot_before_write {A} (m : M A) :
  (forall fs0, wp fs0 m (fun _ _ _ => True) (false, []) fs0) ->
  snapshot_before_write m.
Proof.
  intros Hwp [fs now tr]. unfold new_calls.
  destruct (Hwp fs now tr) as (r & fs' & cs & st' & Hrun & Hadv & _).
  rewrite Hrun. cbn [snd syscalls files]. rewrite drop_app_length.
  by apply (advance_snapshots_first fs (false, []) cs st').
Qed.

Section Operations.

Context {P : PathOps}.
Variable JSON_parse : jsstring -> Res JsVal.
Variable JSON_stringify : JsVal -> jsstring.
Variable fs0 : gmap (list N) node.

Abbreviation done_ := (fun _ _ _ => True).

Lemma wp_readSettings path Q st fs :
  (forall r, Q r st fs) -> wp fs0 (BulkSettings.readSettings JSON_parse path) Q st fs.
Proof.
  intros HQ. unfold BulkSettings.readSettings. apply wp_bind, wp_existsSync. cbn beta iota.
  destruct (exists_in fs path); cbn [negb]; [|by apply wp_ret].
  apply wp_bind, wp_readFileSync. intros [raw|e]; [|done]. by apply wp_lift.
Qed.

(** The frame of the settings edits, whatever the edit. *)
Lemma edit_settings_protocol config handle edit :
  wp fs0 (BulkSettings.edit_settings JSON_parse JSON_stringify config handle edit)
    done_ (false, []) fs0.
Proof.
  unfold BulkSettings.edit_settings. apply wp_bind, wp_existsSync. cbn beta iota.
  destruct (exists_in fs0 _); cbn [negb]; [|by apply wp_ret].
  apply wp_bind, wp_readSettings. intros [settings|e]; [|done].
  assert (Hrest :
    wp fs0
      (do* (if negb (dryRun config)
            then do* backupUserFile (dataRoot config) handle (str "settings.json") false in
                 ret tt
            else ret tt) in
       let* result := ContentIndex.lift (edit settings) in
       let (message, updated) := result in
       do* (if dryRun config then info message
            else BulkSettings.writeSettings JSON_stringify
                   (userSettingsPath (dataRoot config) handle) updated) in
       ret BulkSettings.success) done_ (false, []) fs0).
  { apply wp_bind. destruct (dryRun config); cbn [negb].
    - apply wp_ret. apply wp_bind, wp_lift. destruct (edit settings) as [[msg upd]|]; [|done].
      apply wp_bind, wp_info. by apply wp_ret.
    - apply wp_bind, wp_backupUserFile. intros [bp|e] st' fs' Hb; [|done].
      destruct Hb as (Hout & Hsnap & _). apply wp_ret.
      apply wp_bind, wp_lift. destruct (edit settings) as [[msg upd]|]; [|done].
      apply wp_bind. unfold BulkSettings.writeSettings.
      apply wp_writeFileSync; [by apply may_write|]. intros [[]|e] fs''; [|done].
      by apply wp_ret. }
  destruct settings; first [exact Hrest | by apply wp_ret].
Qed.

Lemma fullReset_protocol config handle :
  wp fs0 (ResetContentLog.fullReset config handle) done_ (false, []) fs0.
Proof.
  unfold ResetContentLog.fullReset. apply wp_bind, wp_existsSync. cbn beta iota.
  destruct (exists_in fs0 _); cbn [negb]; [|by apply wp_ret].
  destruct (dryRun config).
  - apply wp_bind, wp_info. by apply wp_ret.
  - apply wp_bind, wp_backupUserFile. intros [bp|e] st' fs' Hb; [|done].
    destruct Hb as (Hout & Hsnap & _).
    apply wp_bind, wp_unlinkSync; [by apply may_unlink|]. intros [[]|e] fs''; [|done].
    by apply wp_ret.
Qed.

Lemma deleteForUser_protocol config subDir filename handle :
  wp fs0 (BulkDelete.deleteForUser config subDir filename true handle) done_ (false, []) fs0.
Proof.
  unfold BulkDelete.deleteForUser. apply wp_bind, wp_existsSync. cbn beta iota.
  destruct (exists_in fs0 _); cbn [negb]; [|by apply wp_ret].
  destruct (dryRun config).
  - apply wp_bind, wp_info. by apply wp_ret.
  - apply wp_bind, wp_bind, wp_backupUserFile. intros [bp|e] st' fs' Hb; [|done].
    destruct Hb as (Hout & Hsnap & _). rewrite join_slash in Hsnap.
    apply wp_ret.
    apply wp_bind, wp_unlinkSync; [by apply may_unlink|]. intros [[]|e] fs''; [|done].
    by apply wp_ret.
Qed.

(** The resolver unlinks nothing in a dry run or under the policy [skip];
    otherwise the only thing it may destroy is the entry at the target. *)
Lemma wp_createSymlinkForUser src target handle policy dry Q st fs :
  dry = true \/ policy = str "skip" \/ may_call fs0 st (SysUnlink target) ->
  (forall r fs', Q r st fs') ->
  wp fs0 (Symlinks.createSymlinkForUser src target handle policy dry) Q st fs.
Proof.
  intros Hsafe HQ. unfold Symlinks.createSymlinkForUser.
  assert (Hcreate : forall fs1,
    wp fs0 (if dry
            then do* info (str "[DRY RUN] Would create symlink: " ++ target ++ str " -> "
                           ++ src) in ret Symlinks.Created
            else do* mkdirSync (join [target; str ".."]) in
                 do* symlinkSync src target in ret Symlinks.Created) Q st fs1).
  { intros fs1. destruct dry.
    - apply wp_bind, wp_info. by apply wp_ret.
    - apply wp_bind, wp_mkdirSync. intros [[]|e] fs2; [|done].
      apply wp_bind, wp_symlinkSync. intros [[]|e] fs3; [|done]. by apply wp_ret. }
  assert (Hunlink : dry = false -> jsstring_eqb policy (str "skip") = false ->
                    may_call fs0 st (SysUnlink target)).
  { intros Hd Hp. destruct Hsafe as [?|[->|?]]; [congruence| |done].
    by rewrite jsstring_eqb_refl in Hp. }
  apply wp_bind. unfold Symlinks.exists_or_lstat. apply wp_bind, wp_existsSync.
  cbn beta iota.
  assert (Hblock :
    wp fs0
      (let* returned := Symlinks.existing_entry src target handle policy dry in
       match returned with
       | Some outcome => ret outcome
       | None =>
           if dry
           then do* info (str "[DRY RUN] Would create symlink: " ++ target ++ str " -> "
                          ++ src) in ret Symlinks.Created
           else do* mkdirSync (join [target; str ".."]) in
                do* symlinkSync src target in ret Symlinks.Created
       end) Q st fs).
  { apply wp_bind. unfold Symlinks.existing_entry.
    apply wp_bind, wp_lstatSync; [|done]. intros n Hn.
    destruct (isSymbolicLink n).
    - apply wp_bind, wp_readlinkSync. intros [t|e]; [|done].
      destruct (bool_decide _); [by apply wp_ret, wp_ret|].
      destruct (jsstring_eqb policy (str "skip")) eqn:Hp; [by apply wp_ret, wp_ret|].
      destruct dry eqn:Hd.
      + apply wp_bind, wp_info. by apply wp_ret, wp_ret.
      + apply wp_bind, wp_unlinkSync; [by apply Hunlink|]. intros [[]|e] fs1; [|done].
        apply wp_ret. apply (Hcreate fs1).
    - destruct (jsstring_eqb policy (str "skip")) eqn:Hp; [by apply wp_ret, wp_ret|].
      destruct dry eqn:Hd.
      + apply wp_bind, wp_info. by apply wp_ret, wp_ret.
      + apply wp_bind, wp_unlinkSync; [by apply Hunlink|]. intros [[]|e] fs1; [|done].
        apply wp_ret. apply (Hcreate fs1). }
  destruct (exists_in fs target).
  - apply wp_ret. exact Hblock.
  - unfold Symlinks.lstatExists. apply wp_try_catch, wp_bind, wp_lstatSync.
    + intros n Hn. apply wp_ret. exact Hblock.
    + intros e Hn. apply wp_ret, wp_bind, wp_ret. apply (Hcreate fs).
Qed.

Lemma worlds_path dataRoot handle filename :
  join [userWorldsDir dataRoot handle; filename]
  = join [dataRoot; handle; str "worlds/" ++ filename].
Proof.
  unfold userWorldsDir. rewrite join_nested.
  change (str "worlds/" ++ filename) with (str "worlds" ++ str "/" ++ filename).
  by rewrite join_slash.
Qed.

Lemma linkForUser_protocol config filename absolutePath policy handle :
  policy = str "all" \/ policy = str "skip" ->
  wp fs0 (Symlinks.linkForUser config filename absolutePath policy handle)
    done_ (false, []) fs0.
Proof.
  intros Hpolicy. unfold Symlinks.linkForUser.
  set (target := join [userWorldsDir (dataRoot config) handle; filename]).
  assert (Hresolve : forall st fs,
    dryRun config = true \/ policy = str "skip" \/ may_call fs0 st (SysUnlink target) ->
    wp fs0
      (let* result := Symlinks.createSymlinkForUser absolutePath target handle policy
                        (dryRun config) in
       match result with
       | Symlinks.AlreadyLinked =>
           ret (JObj [(str "skipped", JStr (str "already symlinked to same source"))])
       | Symlinks.Skipped =>
           ret (JObj [(str "skipped", JStr (str "existing file preserved"))])
       | _ => ret (JStr (str "success"))
       end) done_ st fs).
  { intros st fs Hsafe. apply wp_bind, wp_createSymlinkForUser; [done|].
    intros [[]|e] fs'; [..|done]; by apply wp_ret. }
  apply wp_bind. destruct Hpolicy as [-> | ->].
  - rewrite jsstring_eqb_refl. apply wp_bind, wp_existsSync. cbn beta iota.
    destruct (exists_in fs0 target) eqn:Hex.
    + apply wp_bind, wp_lstatSync; [|done]. intros n Hn.
      destruct (isSymbolicLink n) eqn:Hlink; cbn [negb].
      * apply wp_ret. apply Hresolve. right; right. right. cbn [destroyed].
        unfold holds_file. rewrite Hn. by destruct n.
      * destruct (dryRun config) eqn:Hdry.
        { apply wp_bind, wp_backupUserFile_dry, wp_ret. apply Hresolve. by left. }
        apply wp_bind, wp_backupUserFile. intros [bp|e] st' fs' Hb; [|done].
        destruct Hb as (Hout & Hsnap & _). rewrite <- worlds_path in Hsnap.
        apply wp_ret. apply Hresolve. right; right. by apply may_unlink.
    + apply wp_ret. apply Hresolve. right; right. apply may_unlink. by left.
  - rewrite jsstring_eqb_neq by done. apply wp_ret. apply Hresolve. right. by left.
Qed.

End Operations.


(** A user who already has the character card, and the card to push. *)
Definition alice_has_card : World :=
  mkWorld (<[str "/data/alice/characters/Card.png" := File (str "old card")]>
             (<[str "/data/alice/characters" := Dir]>
                (<[str "/incoming/Card.png" := File (str "new card")]> ∅)))
          (str "2025-01-15T14:30:22.123Z") [].

Definition real_run : Config :=
  mkConfig (str "/data") (str "/data/default/scaffold") (str "/data/default/content")
    (str "/data/_admin-backups") false.


End Protocol.

(* ===================================================================== *)
(** * What the Document Mutator writes and what it keeps                  *)
(* ===================================================================== *)

(** Facts about [applyMutations] and [syncSections] of
    src/lib/json-merge.js on plain data. *)
Module MutatorFacts.

Import Lodash JsonMerge.

(** The first key of a path, whichever way [castPath] reads it, is the
    path itself or its first dot-separated segment. *)
Definition names_key (path k : jsstring) : Prop :=
  k = path \/ k = hd [] (split_dots path []).

(** The top-level keys a list of paths can reach. *)
Definition untouched (paths : list jsstring) (k : jsstring) : Prop :=
  forall path, In path paths -> ~ names_key path k.

Lemma split_dots_nonempty (p cur : jsstring) : split_dots p cur <> [].
Proof.
  revert cur. induction p as [|c p IH]; intros cur; simpl; [done|].
  by destruct (N.eqb c 46).
Qed.

Lemma castPath_hd (path : jsstring) (object : JsVal) :
  names_key path (hd [] (castPath path object)).
Proof.
  unfold castPath, names_key.
  destruct (negb (existsb (N.eqb 46) path) || has_prop object path); simpl; auto.
Qed.

Lemma castPath_nonempty (path : jsstring) (object : JsVal) : castPath path object <> [].
Proof.
  unfold castPath.
  destruct (negb (existsb (N.eqb 46) path) || has_prop object path); [done|].
  apply split_dots_nonempty.
Qed.

(** The first segment of a path holds no dot beyond those of [cur]. *)
Lemma split_dots_hd_dots (p cur : jsstring) :
  existsb (N.eqb 46) (hd [] (split_dots p cur)) = existsb (N.eqb 46) cur.
Proof.
  revert cur. induction p as [|c p IH]; intros cur; simpl; [done|].
  destruct (N.eqb c 46) eqn:E; [done|].
  rewrite IH, existsb_app. cbn [existsb]. by rewrite (N.eqb_sym 46 c), E, !orb_false_r.
Qed.

Lemma dotted_path_hd (path : jsstring) :
  existsb (N.eqb 46) path = true -> hd [] (split_dots path []) <> path.
Proof.
  intros Hdot Heq. pose proof (split_dots_hd_dots path []) as H.
  rewrite Heq, Hdot in H. discriminate.
Qed.

Lemma baseSet_two_keys nested k k2 rest value :
  baseSet nested (k :: k2 :: rest) value
  = let objValue := own_prop nested k in
    let newValue :=
      if isObject objValue then objValue
      else if isIndex k2 then arr [] else JObj [] in
    bind (assign nested k newValue) (fun nested1 =>
    bind (baseSet (own_prop nested1 k) (k2 :: rest) value) (fun child =>
    assign nested1 k child)).
Proof. reflexivity. Qed.

Lemma assign_isObject object k v object' :
  isObject object = true -> assign object k v = Ok object' -> isObject object' = true.
Proof.
  destruct object as [| | | | |es ex|ps]; try done; simpl; intros _.
  - destruct (array_index k); [by intros [= <-]|].
    destruct (jsstring_eqb k (str "length")); [|by intros [= <-]].
    destruct v as [| | |[n [| |]]| | |]; try done.
    destruct ((0 <=? n)%Z && (n <? 4294967296)%Z); [by intros [= <-]|done].
  - by intros [= <-].
Qed.

Lemma baseSet_isObject keys nested value nested' :
  isObject nested = true -> baseSet nested keys value = Ok nested' ->
  isObject nested' = true.
Proof.
  intros Hobj. destruct keys as [|k [|k2 rest]].
  - by intros [= <-].
  - by apply assign_isObject.
  - rewrite baseSet_two_keys. cbn zeta.
    destruct (assign nested k _) as [n1|e] eqn:H1; [|done]. cbn [bind].
    destruct (baseSet _ (k2 :: rest) value) as [child|e]; [|done]. cbn [bind].
    apply assign_isObject. by eapply assign_isObject.
Qed.

Lemma set_isObject object path value object' :
  isObject object = true -> set object path value = Ok object' ->
  isObject object' = true.
Proof. unfold set. intros Hobj. rewrite Hobj. by apply baseSet_isObject. Qed.

Lemma set_all_isObject mutations : forall result result',
  isObject result = true -> set_all result mutations = Ok result' ->
  isObject result' = true.
Proof.
  induction mutations as [|[path value] rest IH]; intros result result' Hobj.
  - by intros [= <-].
  - cbn [set_all]. destruct (set result path value) as [r1|e] eqn:Hset; [|done].
    cbn [bind]. apply IH. by eapply set_isObject.
Qed.

Lemma set_all_app (l1 l2 : list (jsstring * JsVal)) (result : JsVal) :
  set_all result (l1 ++ l2) = bind (set_all result l1) (fun r => set_all r l2).
Proof.
  revert result. induction l1 as [|[path value] l1 IH]; intros result; [done|].
  cbn [app set_all]. destruct (set result path value); cbn [bind]; [apply IH|done].
Qed.

(** [set] then [get] on a path of plain keys, dotted or not. *)
Lemma get_set_plain (object : JsVal) (path : jsstring) (value dflt : JsVal) :
  isObject object = true ->
  Forall plain_key (path :: split_dots path []) ->
  value <> JUndefined ->
  exists object',
    set object path value = Ok object'
    /\ isObject object' = true
    /\ get object' path dflt = value.
Proof.
  intros Hobj Hkeys Hval. apply List.Forall_cons_iff in Hkeys as [Hpath Hsegs].
  unfold set, get. rewrite Hobj. unfold castPath.
  destruct (negb (existsb (N.eqb 46) path) || has_prop object path) eqn:Hcast.
  - destruct (baseSet_walk [path] object value ltac:(done) ltac:(by constructor) Hobj)
      as (o' & Hset & Hobj' & Hwalk & Hown & _).
    exists o'. split; [done|]. split; [done|].
    cbn [hd] in Hown. rewrite Hown, orb_true_r.
    destruct o'; try done; rewrite Hwalk; by destruct value.
  - apply orb_false_iff in Hcast as [Hdot Hhas].
    apply negb_false_iff in Hdot.
    destruct (baseSet_walk _ object value (split_dots_nonempty path []) Hsegs Hobj)
      as (o' & Hset & Hobj' & Hwalk & _ & Hsame).
    exists o'. split; [done|]. split; [done|].
    rewrite Hdot, (Hsame path (dotted_path_hd path Hdot)), Hhas. cbn [negb orb].
    destruct o'; try done; rewrite Hwalk; by destruct value.
Qed.

(** [set] on an object changes one top-level key only. *)
Lemma baseSet_other_keys keys ps value r :
  keys <> [] ->
  baseSet (JObj ps) keys value = Ok r ->
  exists ps', r = JObj ps' /\ forall k, k <> hd [] keys -> assoc k ps' = assoc k ps.
Proof.
  intros Hne. destruct keys as [|k [|k2 rest]]; [done| |].
  - cbn [baseSet assign]. intros [= <-]. eexists; split; [done|].
    intros k' Hk'. by apply assoc_set_prop_ne.
  - rewrite baseSet_two_keys. cbn zeta. cbn [assign bind].
    destruct (baseSet _ (k2 :: rest) value) as [child|e]; [|done]. cbn [bind assign].
    intros [= <-]. eexists; split; [done|].
    intros k' Hk'. cbn [hd] in Hk'. by rewrite !assoc_set_prop_ne.
Qed.

Lemma set_other_keys ps path value r :
  set (JObj ps) path value = Ok r ->
  exists ps', r = JObj ps'
    /\ forall k, ~ names_key path k -> assoc k ps' = assoc k ps.
Proof.
  unfold set. cbn [isObject]. intros Hset.
  apply baseSet_other_keys in Hset as (ps' & -> & Hsame); [|apply castPath_nonempty].
  exists ps'. split; [done|]. intros k Hk. apply Hsame. intros ->. apply Hk.
  apply castPath_hd.
Qed.

Lemma set_all_other_keys mutations : forall ps r,
  set_all (JObj ps) mutations = Ok r ->
  exists ps', r = JObj ps'
    /\ forall k, untouched (List.map fst mutations) k -> assoc k ps' = assoc k ps.
Proof.
  induction mutations as [|[path value] rest IH]; intros ps r.
  - intros [= <-]. by exists ps.
  - cbn [set_all]. destruct (set (JObj ps) path value) as [r1|e] eqn:Hset; [|done].
    cbn [bind]. apply set_other_keys in Hset as (ps1 & -> & Hsame1).
    intros Hrest. apply IH in Hrest as (ps' & -> & Hsame).
    exists ps'. split; [done|]. intros k Hk. rewrite Hsame, Hsame1; [done| |].
    + apply Hk. by left.
    + intros p Hp. apply Hk. by right.
Qed.





Lemma json_copy_defined (v : JsVal) : v <> JUndefined -> json_copy v <> JUndefined.
Proof. by destruct v. Qed.

Lemma sync_all_unfold result template key rest :
  sync_all result template (key :: rest)
  = match get template key JUndefined with
    | JUndefined => sync_all result template rest
    | templateValue =>
        bind (deep_clone templateValue) (fun copy =>
        bind (set result key copy) (fun result' =>
        sync_all result' template rest))
    end.
Proof. reflexivity. Qed.

(** One round of the loop of [syncSections], by cases on the template. *)
Lemma sync_all_step result template key rest :
  (get template key JUndefined = JUndefined
   /\ sync_all result template (key :: rest) = sync_all result template rest)
  \/ (get template key JUndefined <> JUndefined
      /\ sync_all result template (key :: rest)
         = bind (set result key (json_copy (get template key JUndefined)))
             (fun result' => sync_all result' template rest)).
Proof.
  rewrite sync_all_unfold.
  destruct (get template key JUndefined) eqn:E; [by left|right..]; by split.
Qed.

Lemma sync_all_absent keys : forall result template,
  (forall key, In key keys -> get template key JUndefined = JUndefined) ->
  sync_all result template keys = Ok result.
Proof.
  induction keys as [|key rest IH]; intros result template Habsent; [done|].
  destruct (sync_all_step result template key rest) as [[_ ->]|[Hne _]].
  - apply IH. intros k Hk. apply Habsent. by right.
  - destruct Hne. apply Habsent. by left.
Qed.

Lemma sync_all_other_keys keys : forall ps template r,
  sync_all (JObj ps) template keys = Ok r ->
  exists ps', r = JObj ps'
    /\ forall k, untouched keys k -> assoc k ps' = assoc k ps.
Proof.
  induction keys as [|key rest IH]; intros ps template r.
  - intros [= <-]. by exists ps.
  - destruct (sync_all_step (JObj ps) template key rest) as [[_ ->]|[_ ->]].
    + intros Hrest. apply IH in Hrest as (ps' & -> & Hsame).
      exists ps'. split; [done|]. intros k Hk. apply Hsame.
      intros p Hp. apply Hk. by right.
    + destruct (set (JObj ps) key _) as [r1|e] eqn:Hset; [|done]. cbn [bind].
      apply set_other_keys in Hset as (ps1 & -> & Hsame1).
      intros Hrest. apply IH in Hrest as (ps' & -> & Hsame).
      exists ps'. split; [done|]. intros k Hk. rewrite Hsame, Hsame1; [done| |].
      * apply Hk. by left.
      * intros p Hp. apply Hk. by right.
Qed.

Lemma sync_all_isObject keys : forall result template result',
  isObject result = true -> sync_all result template keys = Ok result' ->
  isObject result' = true.
Proof.
  induction keys as [|key rest IH]; intros result template result' Hobj.
  - by intros [= <-].
  - destruct (sync_all_step result template key rest) as [[_ ->]|[_ ->]].
    + by apply IH.
    + destruct (set result key _) as [r1|e] eqn:Hset; [|done]. cbn [bind].
      apply IH. by eapply set_isObject.
Qed.

Lemma sync_all_app (l1 l2 : list jsstring) (result template : JsVal) :
  sync_all result template (l1 ++ l2)
  = bind (sync_all result template l1) (fun r => sync_all r template l2).
Proof.
  revert result. induction l1 as [|key l1 IH]; intros result; [done|].
  cbn [app]. destruct (sync_all_step result template key (l1 ++ l2)) as [[Hu ->]|[Hd ->]];
    destruct (sync_all_step result template key l1) as [[Hu' ->]|[Hd' ->]]; try done.
  destruct (set result key _); cbn [bind]; [apply IH|done].
Qed.



(** ** [parseValue] and white space *)

Definition spaces (s : jsstring) : Prop := Forall (fun c => is_js_space c = true) s.

Lemma trim_start_spaces (pre s : jsstring) :
  spaces pre -> trim_start (pre ++ s) = trim_start s.
Proof. induction 1 as [|c pre Hc Hpre IH]; [done|]. cbn [app trim_start]. by rewrite Hc. Qed.

Lemma trim_start_head (s : jsstring) c t :
  trim_start s = c :: t -> is_js_space c = false.
Proof.
  induction s as [|d s IH]; [done|]. cbn [trim_start].
  destruct (is_js_space d) eqn:E; [done|]. by intros [= <- <-].
Qed.

Lemma trim_start_nil (s : jsstring) : trim_start s = [] -> spaces s.
Proof.
  induction s as [|d s IH]; [constructor|]. cbn [trim_start].
  destruct (is_js_space d) eqn:E; [|done]. intros H. constructor; [done|by apply IH].
Qed.

Lemma trim_start_fixed (s : jsstring) c t :
  s = c :: t -> is_js_space c = false -> trim_start s = s.
Proof. intros -> Hc. cbn [trim_start]. by rewrite Hc. Qed.

Lemma trim_start_app (s t : jsstring) :
  trim_start s <> [] -> trim_start (s ++ t) = trim_start s ++ t.
Proof.
  induction s as [|d s IH]; [done|]. cbn [app trim_start].
  destruct (is_js_space d); [done|]. done.
Qed.

(** [s.trimEnd()] *)
Definition trim_end (s : jsstring) : jsstring := rev (trim_start (rev s)).

Lemma trim_end_spaces (s post : jsstring) : spaces post -> trim_end (s ++ post) = trim_end s.
Proof.
  intros Hpost. unfold trim_end. rewrite rev_app_distr, trim_start_spaces; [done|].
  by apply Forall_rev.
Qed.

Lemma trim_end_idem (s : jsstring) : trim_end (trim_end s) = trim_end s.
Proof.
  unfold trim_end. rewrite rev_involutive. f_equal.
  destruct (trim_start (rev s)) as [|c t] eqn:E; [done|].
  eapply trim_start_fixed; [done|]. by eapply trim_start_head.
Qed.

(** The text left by [trimEnd] is the text without its trailing spaces. *)
Lemma trim_end_prefix (s : jsstring) : exists post, s = trim_end s ++ post /\ spaces post.
Proof.
  unfold trim_end. assert (H : forall x : jsstring, exists pre, x = pre ++ trim_start x /\ spaces pre).
  { induction x as [|d x (pre & Hx & Hpre)]; [exists []; split; [done|constructor]|].
    cbn [trim_start].
    destruct (is_js_space d) eqn:E; [|exists []; split; [done|constructor]].
    exists (d :: pre). split; [cbn [app]; by f_equal|by constructor]. }
  destruct (H (rev s)) as (pre & Hs & Hpre). exists (rev pre). split.
  - rewrite <- rev_app_distr, <- Hs. by rewrite rev_involutive.
  - by apply Forall_rev.
Qed.

Lemma trim_end_all_spaces (s : jsstring) : spaces s -> trim_end s = [].
Proof.
  intros Hs. rewrite <- (app_nil_l s). rewrite trim_end_spaces; [done|exact Hs].
Qed.

Lemma trim_trim (s : jsstring) : trim (trim s) = trim s.
Proof.
  change (trim_end (trim_start (trim_end (trim_start s))) = trim_end (trim_start s)).
  set (a := trim_start s).
  assert (Hb : trim_start (trim_end a) = trim_end a).
  { destruct (trim_end a) as [|c b] eqn:Eb; [done|].
    eapply trim_start_fixed; [done|].
    destruct (trim_end_prefix a) as (post & Ha & _). rewrite Eb in Ha.
    subst a. by eapply trim_start_head. }
  by rewrite Hb, trim_end_idem.
Qed.

Lemma trim_padding (pre s post : jsstring) :
  spaces pre -> spaces post -> trim (pre ++ s ++ post) = trim s.
Proof.
  intros Hpre Hpost.
  change (trim_end (trim_start (pre ++ s ++ post)) = trim_end (trim_start s)).
  rewrite trim_start_spaces by done.
  destruct (trim_start s) as [|c t] eqn:E.
  - apply trim_start_nil in E. rewrite trim_end_all_spaces; [done|].
    apply trim_start_nil. rewrite trim_start_spaces; [|done].
    clear -Hpost. induction Hpost as [|d post Hd _ IH]; [done|].
    cbn [trim_start]. by rewrite Hd.
  - rewrite trim_start_app by (by rewrite E). rewrite E. by apply trim_end_spaces.
Qed.

(** X5. [parseValue] reads its input without the white space around it:
    padding an input with white space on either side does not change the
    value, and parsing the trimmed input gives the same value as parsing
    the input. *)
Theorem parseValue_ignores_padding :
  forall (JSON_parse : jsstring -> Res JsVal) (pre input post : jsstring),
    spaces pre -> spaces post ->
    parseValue JSON_parse (pre ++ input ++ post) = parseValue JSON_parse input
    /\ parseValue JSON_parse (trim input) = parseValue JSON_parse input.
Proof.
  intros JSON_parse pre input post Hpre Hpost. unfold parseValue.
  by rewrite trim_padding, trim_trim.
Qed.

Lemma parseValue_ignores_padding_witness :
  parseValue JSON.parse (str "  " ++ str "[1,2]" ++ [9%N; 10%N]) = arr [int 1; int 2].
Proof.
  rewrite (proj1 (parseValue_ignores_padding JSON.parse (str "  ") (str "[1,2]") [9%N; 10%N]
                    ltac:(repeat constructor) ltac:(repeat constructor))).
  by vm_compute.
Defined.

End MutatorFacts.

(* ===================================================================== *)
(** * Facts about the file system                                         *)
(* ===================================================================== *)

Module FsFacts.

Import Fs.
Local Open Scope io_scope.

(** The text [readFileSync(p)] returns, if it returns. *)
Definition file_at (fs : gmap (list N) node) (p : jsstring) : option jsstring :=
  match follow MAXSYMLINKS fs p with
  | Some (_, File data) => Some data
  | _ => None
  end.

(** [mkdirSync(p, { recursive: true })] succeeds: nothing is at [p], or a
    directory is. *)
Definition can_mkdir (fs : gmap (list N) node) (p : jsstring) : Prop :=
  fs !! p = None \/ exists d, follow MAXSYMLINKS fs p = Some (d, Dir).

(** The file system after that call. *)
Definition with_dir (fs : gmap (list N) node) (p : jsstring) : gmap (list N) node :=
  match fs !! p with
  | None => <[p := Dir]> fs
  | Some _ => fs
  end.

(** A unit operation as the Batch Executor sees it. *)
Definition as_operation (op : jsstring -> M JsVal) : @Batch.Operation World :=
  fun handle w =>
    match op handle w with
    | (Ok v, w') => (Batch.Returned v, w')
    | (Raise e, w') => (Batch.Thrown e, w')
    end.

(** The computation leaves the files as they are and makes no call that
    could change them. *)
Definition quiet_run {A} (m : M A) : Prop :=
  forall w, exists cs, snd (m w) = Backup.logged w cs /\ Symlinks.quiet cs.

Lemma follow_None fuel fs p : fs !! p = None -> follow fuel fs p = None.
Proof. intros Hp. destruct fuel; simpl; by rewrite Hp. Qed.

Lemma follow_lookup fuel : forall fs p q n,
  follow fuel fs p = Some (q, n) -> fs !! q = Some n /\ isSymbolicLink n = false.
Proof.
  induction fuel as [|fuel IH]; intros fs p q n; simpl;
    destruct (fs !! p) as [[c| |t]|] eqn:Hp; try done;
    try (intros [= <- <-]; by split).
  apply IH.
Qed.

Lemma follow_is_Some fuel fs p r : follow fuel fs p = Some r -> is_Some (fs !! p).
Proof. destruct fuel; simpl; destruct (fs !! p); by eauto. Qed.

(** A new entry does not change where the existing paths lead. *)
Lemma follow_insert_fresh fuel : forall fs (p k : jsstring) n r,
  fs !! k = None -> follow fuel fs p = Some r -> follow fuel (<[k := n]> fs) p = Some r.
Proof.
  induction fuel as [|fuel IH]; intros fs p k n r Hk; simpl;
    destruct (fs !! p) as [x|] eqn:Hp; try done;
    (rewrite lookup_insert_ne by (intros ->; congruence)); rewrite Hp; [done|].
  destruct x; try done. by apply IH.
Qed.

(** Overwriting the file a path leads to. *)
Lemma follow_overwrite fuel : forall fs (p q : jsstring) c d,
  follow fuel fs p = Some (q, File c) ->
  follow fuel (<[q := File d]> fs) p = Some (q, File d).
Proof.
  induction fuel as [|fuel IH]; intros fs p q c d; simpl;
    destruct (fs !! p) as [[c'| |t]|] eqn:Hp; try done.
  - intros [= <- <-]. by rewrite lookup_insert_eq.
  - intros [= <- <-]. by rewrite lookup_insert_eq.
  - intros Hfollow. pose proof (follow_lookup _ _ _ _ _ Hfollow) as [Hq _].
    rewrite lookup_insert_ne by (intros ->; congruence). rewrite Hp. by eapply IH.
Qed.

Lemma follow_direct fuel fs p n :
  fs !! p = Some n -> isSymbolicLink n = false -> follow fuel fs p = Some (p, n).
Proof. intros Hp Hn. destruct fuel; simpl; rewrite Hp; by destruct n. Qed.

Lemma file_at_exists fs p data : file_at fs p = Some data -> exists_in fs p = true.
Proof. unfold file_at, exists_in. by destruct (follow _ fs p). Qed.

Lemma file_at_follow fs p data :
  file_at fs p = Some data <-> exists q, follow MAXSYMLINKS fs p = Some (q, File data).
Proof.
  unfold file_at. split.
  - destruct (follow _ fs p) as [[q [c| |t]]|]; try done. intros [= <-]. by exists q.
  - by intros (q & ->).
Qed.

Lemma file_at_direct fs p data : fs !! p = Some (File data) -> file_at fs p = Some data.
Proof. intros Hp. unfold file_at. by rewrite (follow_direct _ _ _ _ Hp eq_refl). Qed.

Lemma file_at_insert_fresh fs p k n data :
  fs !! k = None -> file_at fs p = Some data -> file_at (<[k := n]> fs) p = Some data.
Proof.
  intros Hk Hp. apply file_at_follow in Hp as (q & Hq). apply file_at_follow.
  exists q. by apply follow_insert_fresh.
Qed.

Lemma with_dir_follow fuel fs p k r :
  follow fuel fs p = Some r -> follow fuel (with_dir fs k) p = Some r.
Proof.
  intros Hp. unfold with_dir. destruct (fs !! k) eqn:Hk; [done|].
  by apply follow_insert_fresh.
Qed.

Lemma with_dir_is_dir fs p :
  can_mkdir fs p -> exists d, follow MAXSYMLINKS (with_dir fs p) p = Some (d, Dir).
Proof.
  unfold with_dir. intros [Hp|(d & Hd)].
  - rewrite Hp. exists p. apply follow_direct; [|done]. by rewrite lookup_insert_eq.
  - destruct (follow_is_Some _ _ _ _ Hd) as [x ->]. by exists d.
Qed.

Lemma with_dir_lookup fs k p : p <> k -> with_dir fs k !! p = fs !! p.
Proof.
  intros Hne. unfold with_dir. destruct (fs !! k); [done|]. by rewrite lookup_insert_ne.
Qed.

(** ** The calls of [node:fs], run *)

Lemma existsSync_run p fs now tr :
  existsSync p (mkWorld fs now tr) = (Ok (exists_in fs p), mkWorld fs now (tr ++ [SysExists p])).
Proof. reflexivity. Qed.

Lemma readFileSync_run p fs now tr data :
  file_at fs p = Some data ->
  readFileSync p (mkWorld fs now tr) = (Ok data, mkWorld fs now (tr ++ [SysReadFile p])).
Proof.
  intros Hp. apply file_at_follow in Hp as (q & Hq).
  unfold readFileSync, mbind, emit, get_files, ret. io_simpl. by rewrite Hq.
Qed.

Lemma mkdirSync_run p fs now tr :
  can_mkdir fs p ->
  mkdirSync p (mkWorld fs now tr) = (Ok tt, mkWorld (with_dir fs p) now (tr ++ [SysMkdir p])).
Proof.
  unfold mkdirSync, with_dir, mbind, emit, get_files, set_files, ret. io_simpl.
  intros [Hp|(d & Hd)].
  - by rewrite (follow_None _ _ _ Hp), Hp.
  - rewrite Hd. by destruct (follow_is_Some _ _ _ _ Hd) as [x ->].
Qed.

Lemma unlinkSync_run p fs now tr n :
  fs !! p = Some n -> n <> Dir ->
  unlinkSync p (mkWorld fs now tr) = (Ok tt, mkWorld (delete p fs) now (tr ++ [SysUnlink p])).
Proof.
  intros Hp Hn. unfold unlinkSync, mbind, emit, get_files, set_files. io_simpl.
  rewrite Hp. by destruct n.
Qed.

Section WithPaths.

Context {P : PathOps}.

Lemma write_through_new fs p data :
  fs !! p = None -> parent_is_dir fs p = true ->
  write_through fs p data = Some (<[p := File data]> fs).
Proof. intros Hp Hdir. unfold write_through. by rewrite Hp, Hdir. Qed.

Lemma write_through_existing fs p q c data :
  follow MAXSYMLINKS fs p = Some (q, File c) ->
  write_through fs p data = Some (<[q := File data]> fs).
Proof.
  intros Hq. unfold write_through. destruct (follow_is_Some _ _ _ _ Hq) as [x ->].
  by rewrite Hq.
Qed.

(** What was written is what is read. *)
Lemma write_through_reads fs p data fs' :
  write_through fs p data = Some fs' -> file_at fs' p = Some data.
Proof.
  unfold write_through. destruct (fs !! p) eqn:Hp.
  - destruct (follow MAXSYMLINKS fs p) as [[q [c| |t]]|] eqn:Hq; try done.
    intros [= <-]. apply file_at_follow. exists q. by eapply follow_overwrite.
  - destruct (parent_is_dir fs p); [|done]. intros [= <-].
    apply file_at_direct. by rewrite lookup_insert_eq.
Qed.

Lemma copyFileSync_run src dst fs now tr data fs' :
  file_at fs src = Some data -> write_through fs dst data = Some fs' ->
  copyFileSync src dst (mkWorld fs now tr)
  = (Ok tt, mkWorld fs' now (tr ++ [SysCopyFile src dst])).
Proof.
  intros Hsrc Hdst. apply file_at_follow in Hsrc as (q & Hq).
  unfold copyFileSync, mbind, emit, get_files, set_files. io_simpl.
  by rewrite Hq, Hdst.
Qed.

Lemma writeFileSync_run p data fs now tr fs' :
  write_through fs p data = Some fs' ->
  writeFileSync p data (mkWorld fs now tr)
  = (Ok tt, mkWorld fs' now (tr ++ [SysWriteFile p data])).
Proof.
  intros Hp. unfold writeFileSync, mbind, emit, get_files, set_files. io_simpl.
  by rewrite Hp.
Qed.

(** A successful [writeFileSync] leaves the text at the path. *)
Lemma writeFileSync_reads p data w w' :
  writeFileSync p data w = (Ok tt, w') -> file_at (files w') p = Some data.
Proof.
  destruct w as [fs now tr].
  unfold writeFileSync, mbind, emit, get_files, set_files, throw. io_simpl.
  destruct (write_through fs p data) as [fs'|] eqn:Hw; [|done].
  intros [= <-]. cbn [files]. by eapply write_through_reads.
Qed.

End WithPaths.

(** A computation that returned, taken apart. *)
Lemma mbind_inv {A B} (m : M A) (k : A -> M B) w b w2 :
  mbind m k w = (Ok b, w2) -> exists a w1, m w = (Ok a, w1) /\ k a w1 = (Ok b, w2).
Proof. unfold mbind. destruct (m w) as [[a|e] w1]; [by eauto|done]. Qed.

Lemma ret_inv {A} (a b : A) w w' : ret a w = (Ok b, w') -> a = b /\ w = w'.
Proof. by intros [= -> ->]. Qed.

(** ** Computations that change nothing *)

Lemma quiet_ret {A} (a : A) : quiet_run (ret a).
Proof. intros [fs now tr]. exists []. unfold Backup.logged. cbn. by rewrite app_nil_r. Qed.

Lemma quiet_throw {A} (e : JsVal) : quiet_run (@throw A e).
Proof. intros [fs now tr]. exists []. unfold Backup.logged. cbn. by rewrite app_nil_r. Qed.

Lemma quiet_lift {A} (r : Res A) : quiet_run (ContentIndex.lift r).
Proof. intros [fs now tr]. exists []. unfold Backup.logged. cbn. by rewrite app_nil_r. Qed.

Lemma quiet_timestamp : quiet_run Backup.timestamp.
Proof. intros [fs now tr]. exists []. unfold Backup.logged. cbn. by rewrite app_nil_r. Qed.

Lemma quiet_emit (c : Syscall) : mutating c = false -> quiet_run (emit c).
Proof.
  intros Hc [fs now tr]. exists [c]. split; [done|].
  unfold Symlinks.quiet. cbn. by rewrite Hc.
Qed.

Lemma logged_logged w cs1 cs2 :
  Backup.logged (Backup.logged w cs1) cs2 = Backup.logged w (cs1 ++ cs2).
Proof. unfold Backup.logged. cbn. by rewrite app_assoc. Qed.

Lemma quiet_bind {A B} (m : M A) (k : A -> M B) :
  quiet_run m -> (forall a, quiet_run (k a)) -> quiet_run (mbind m k).
Proof.
  intros Hm Hk w. destruct (Hm w) as (cs1 & Hw1 & Hq1). unfold mbind.
  destruct (m w) as [[a|e] w1]; cbn [snd] in Hw1; subst w1.
  - destruct (Hk a (Backup.logged w cs1)) as (cs2 & Hw2 & Hq2).
    exists (cs1 ++ cs2). rewrite Hw2, logged_logged. split; [done|].
    by apply Symlinks.quiet_app.
  - by exists cs1.
Qed.

Lemma quiet_try_catch {A} (m : M A) (h : JsVal -> M A) :
  quiet_run m -> (forall e, quiet_run (h e)) -> quiet_run (try_catch m h).
Proof.
  intros Hm Hh w. destruct (Hm w) as (cs1 & Hw1 & Hq1). unfold try_catch.
  destruct (m w) as [[a|e] w1]; cbn [snd] in Hw1; subst w1.
  - by exists cs1.
  - destruct (Hh e (Backup.logged w cs1)) as (cs2 & Hw2 & Hq2).
    exists (cs1 ++ cs2). rewrite Hw2, logged_logged. split; [done|].
    by apply Symlinks.quiet_app.
Qed.

Lemma quiet_get_files : quiet_run get_files.
Proof. intros [fs now tr]. exists []. unfold Backup.logged. cbn. by rewrite app_nil_r. Qed.

Lemma quiet_existsSync p : quiet_run (existsSync p).
Proof.
  unfold existsSync. apply quiet_bind; [by apply quiet_emit|]. intros _.
  apply quiet_bind; [apply quiet_get_files|]. intros fs. apply quiet_ret.
Qed.

Lemma quiet_lstatSync p : quiet_run (lstatSync p).
Proof.
  unfold lstatSync. apply quiet_bind; [by apply quiet_emit|]. intros _.
  apply quiet_bind; [apply quiet_get_files|]. intros fs.
  destruct (fs !! p); [apply quiet_ret|apply quiet_throw].
Qed.

Lemma quiet_readlinkSync p : quiet_run (readlinkSync p).
Proof.
  unfold readlinkSync. apply quiet_bind; [by apply quiet_emit|]. intros _.
  apply quiet_bind; [apply quiet_get_files|]. intros fs.
  destruct (fs !! p) as [[]|]; first [apply quiet_ret|apply quiet_throw].
Qed.

Lemma quiet_readFileSync p : quiet_run (readFileSync p).
Proof.
  unfold readFileSync. apply quiet_bind; [by apply quiet_emit|]. intros _.
  apply quiet_bind; [apply quiet_get_files|]. intros fs.
  destruct (follow _ fs p) as [[? []]|]; first [apply quiet_ret|apply quiet_throw].
Qed.

Lemma quiet_info msg : quiet_run (info msg).
Proof. by apply quiet_emit. Qed.

Lemma quiet_files {A} (m : M A) w : quiet_run m -> files (snd (m w)) = files w.
Proof. intros Hm. by destruct (Hm w) as (cs & -> & _). Qed.

(** A batch of quiet operations leaves the files as they are. *)
Lemma quiet_batch (op : jsstring -> M JsVal) (users : list jsstring) :
  (forall h, quiet_run (op h)) ->
  forall w, files (Batch.final_world (as_operation op) users w) = files w.
Proof.
  intros Hop. induction users as [|h rest IH]; intros w; [done|].
  cbn [Batch.final_world]. rewrite IH. unfold as_operation.
  pose proof (quiet_files (op h) w (Hop h)) as Hfiles.
  by destruct (op h w) as [[v|e] w'].
Qed.

End FsFacts.

(* ===================================================================== *)
(** * Bulk backups: src/modules/backup-ops.js                             *)
(* ===================================================================== *)

Module BackupOps.

Import Fs Backup StPaths.
Local Open Scope io_scope.

Section WithPaths.

Context {P : PathOps}.

(** The unit operation of [backupSpecificFile]; [backupDir] is the
    directory of the run, [join(config.backupRoot, timestampedDir(...))]. *)
Definition backupForUser (config : Config) (backupDir fileToBackup : jsstring)
    (handle : jsstring) : M JsVal :=
  let filePath := join [dataRoot config; handle; fileToBackup] in
  let* present := existsSync filePath in
  if negb present then ret (JObj [(str "skipped", JStr (str "no " ++ fileToBackup))])
  else if dryRun config then
    do* info (str "[DRY RUN] Would backup " ++ filePath) in
    ret BulkSettings.success
  else
    let targetDir := join [backupDir; handle] in
    do* mkdirSync targetDir in
    do* copyFileSync filePath (join [targetDir; fileToBackup]) in
    ret BulkSettings.success.

(** The unit operation of [backupAllSettings]. *)
Definition backupSettingsForUser (config : Config) (backupDir : jsstring)
    (handle : jsstring) : M JsVal :=
  let settingsPath := userSettingsPath (dataRoot config) handle in
  let* present := existsSync settingsPath in
  if negb present then ret (BulkSettings.skipped "no settings.json")
  else if dryRun config then
    do* info (str "[DRY RUN] Would backup " ++ settingsPath) in
    ret BulkSettings.success
  else
    let targetDir := join [backupDir; handle] in
    do* mkdirSync targetDir in
    do* copyFileSync settingsPath (join [targetDir; str "settings.json"]) in
    ret BulkSettings.success.

End WithPaths.

End BackupOps.

(* ===================================================================== *)
(** * Dry runs                                                            *)
(* ===================================================================== *)

(** The unit operations of the modules, run with [dryRun] set. *)
Module DryRun.

Import Fs Backup StPaths FsFacts.
Local Open Scope io_scope.

Section WithPaths.

Context {P : PathOps}.
Variable JSON_parse : jsstring -> Res JsVal.
Variable JSON_stringify : JsVal -> jsstring.

(** The per-user operations the modules hand to [batchOperation]. *)
Inductive unit_operation (config : Config) : (jsstring -> M JsVal) -> Prop :=
| op_setKeyValues mutations :
    unit_operation config (BulkSettings.setKeyValues JSON_parse JSON_stringify config mutations)
| op_syncFromTemplate template selectedKeys :
    unit_operation config
      (BulkSettings.syncFromTemplate JSON_parse JSON_stringify config template selectedKeys)
| op_linkLorebook lorebookName settingsKey :
    unit_operation config
      (BulkSettings.linkLorebook JSON_parse JSON_stringify config lorebookName settingsKey)
| op_addCharLore name extraBooks :
    unit_operation config
      (BulkSettings.addCharLore JSON_parse JSON_stringify config name extraBooks)
| op_fullReset :
    unit_operation config (ResetContentLog.fullReset config)
| op_deleteForUser subDir filename backupFirst :
    unit_operation config (BulkDelete.deleteForUser config subDir filename backupFirst)
| op_pushForUser sourcePath filename :
    unit_operation config (PushCharacters.pushForUser config sourcePath filename)
| op_linkForUser filename absolutePath policy :
    unit_operation config (Symlinks.linkForUser config filename absolutePath policy)
| op_backupForUser backupDir fileToBackup :
    unit_operation config (BackupOps.backupForUser config backupDir fileToBackup)
| op_backupSettingsForUser backupDir :
    unit_operation config (BackupOps.backupSettingsForUser config backupDir).

Lemma quiet_backupUserFile dataRoot handle rel :
  quiet_run (backupUserFile dataRoot handle rel true).
Proof.
  unfold backupUserFile. apply quiet_bind; [apply quiet_existsSync|]. intros present.
  destruct present; cbn [negb]; [|apply quiet_ret].
  apply quiet_bind; [apply quiet_info|]. intros _. apply quiet_ret.
Qed.

Lemma quiet_backupToAdmin backupRoot filePath label :
  quiet_run (backupToAdmin backupRoot filePath label true).
Proof.
  unfold backupToAdmin. apply quiet_bind; [apply quiet_timestamp|]. intros ts.
  apply quiet_bind; [apply quiet_info|]. intros _. apply quiet_ret.
Qed.

Lemma quiet_readSettings path : quiet_run (BulkSettings.readSettings JSON_parse path).
Proof.
  unfold BulkSettings.readSettings. apply quiet_bind; [apply quiet_existsSync|].
  intros present. destruct present; cbn [negb]; [|apply quiet_ret].
  apply quiet_bind; [apply quiet_readFileSync|]. intros raw. apply quiet_lift.
Qed.

Lemma quiet_edit_settings config handle edit :
  dryRun config = true ->
  quiet_run (BulkSettings.edit_settings JSON_parse JSON_stringify config handle edit).
Proof.
  intros Hdry. unfold BulkSettings.edit_settings. rewrite Hdry. cbn [negb].
  apply quiet_bind; [apply quiet_existsSync|]. intros present.
  destruct present; cbn [negb]; [|apply quiet_ret].
  apply quiet_bind; [apply quiet_readSettings|]. intros settings.
  assert (Hrest : quiet_run
            (do* ret tt in
             let* result := ContentIndex.lift (edit settings) in
             let (message, updated) := result in
             do* info message in ret BulkSettings.success)).
  { apply quiet_bind; [apply quiet_ret|]. intros _.
    apply quiet_bind; [apply quiet_lift|]. intros [message updated].
    apply quiet_bind; [apply quiet_info|]. intros _. apply quiet_ret. }
  destruct settings; first [apply quiet_ret|exact Hrest].
Qed.

Lemma quiet_fullReset config handle :
  dryRun config = true -> quiet_run (ResetContentLog.fullReset config handle).
Proof.
  intros Hdry. unfold ResetContentLog.fullReset. rewrite Hdry.
  apply quiet_bind; [apply quiet_existsSync|]. intros present.
  destruct present; cbn [negb]; [|apply quiet_ret].
  apply quiet_bind; [apply quiet_info|]. intros _. apply quiet_ret.
Qed.

Lemma quiet_deleteForUser config subDir filename backupFirst handle :
  dryRun config = true ->
  quiet_run (BulkDelete.deleteForUser config subDir filename backupFirst handle).
Proof.
  intros Hdry. unfold BulkDelete.deleteForUser. rewrite Hdry.
  apply quiet_bind; [apply quiet_existsSync|]. intros present.
  destruct present; cbn [negb]; [|apply quiet_ret].
  apply quiet_bind; [apply quiet_info|]. intros _. apply quiet_ret.
Qed.

Lemma quiet_pushForUser config sourcePath filename handle :
  dryRun config = true ->
  quiet_run (PushCharacters.pushForUser config sourcePath filename handle).
Proof.
  intros Hdry. unfold PushCharacters.pushForUser. rewrite Hdry.
  apply quiet_bind; [apply quiet_info|]. intros _. apply quiet_ret.
Qed.

Lemma quiet_backupForUser config backupDir fileToBackup handle :
  dryRun config = true ->
  quiet_run (BackupOps.backupForUser config backupDir fileToBackup handle).
Proof.
  intros Hdry. unfold BackupOps.backupForUser. rewrite Hdry.
  apply quiet_bind; [apply quiet_existsSync|]. intros present.
  destruct present; cbn [negb]; [|apply quiet_ret].
  apply quiet_bind; [apply quiet_info|]. intros _. apply quiet_ret.
Qed.

Lemma quiet_lstatExists p : quiet_run (Symlinks.lstatExists p).
Proof.
  unfold Symlinks.lstatExists. apply quiet_try_catch.
  - apply quiet_bind; [apply quiet_lstatSync|]. intros _. apply quiet_ret.
  - intros e. apply quiet_ret.
Qed.

(** The Link Resolver in a dry run. *)
Lemma quiet_createSymlinkForUser sourceAbsolute targetPath handle policy :
  quiet_run (Symlinks.createSymlinkForUser sourceAbsolute targetPath handle policy true).
Proof.
  unfold Symlinks.createSymlinkForUser.
  apply quiet_bind.
  { unfold Symlinks.exists_or_lstat. apply quiet_bind; [apply quiet_existsSync|].
    intros found. destruct found; [apply quiet_ret|apply quiet_lstatExists]. }
  intros present. apply quiet_bind.
  { destruct present; [|apply quiet_ret]. unfold Symlinks.existing_entry.
    apply quiet_bind; [apply quiet_lstatSync|]. intros stat.
    destruct (isSymbolicLink stat).
    - apply quiet_bind; [apply quiet_readlinkSync|]. intros currentTarget.
      destruct (bool_decide _); [apply quiet_ret|].
      destruct (jsstring_eqb policy (str "skip")); [apply quiet_ret|].
      apply quiet_bind; [apply quiet_info|]. intros _. apply quiet_ret.
    - destruct (jsstring_eqb policy (str "skip")); [apply quiet_ret|].
      apply quiet_bind; [apply quiet_info|]. intros _. apply quiet_ret. }
  intros [outcome|]; [apply quiet_ret|].
  apply quiet_bind; [apply quiet_info|]. intros _. apply quiet_ret.
Qed.

Lemma quiet_linkForUser config filename absolutePath policy handle :
  dryRun config = true ->
  quiet_run (Symlinks.linkForUser config filename absolutePath policy handle).
Proof.
  intros Hdry. unfold Symlinks.linkForUser. rewrite Hdry.
  apply quiet_bind.
  { destruct (jsstring_eqb policy (str "all")); [|apply quiet_ret].
    apply quiet_bind; [apply quiet_existsSync|]. intros found.
    destruct found; [|apply quiet_ret].
    apply quiet_bind; [apply quiet_lstatSync|]. intros stat.
    destruct (negb (isSymbolicLink stat)); [|apply quiet_ret].
    apply quiet_bind; [apply quiet_backupUserFile|]. intros _. apply quiet_ret. }
  intros _. apply quiet_bind; [apply quiet_createSymlinkForUser|].
  intros result. destruct result; apply quiet_ret.
Qed.

Lemma quiet_unit_operation config op :
  dryRun config = true -> unit_operation config op -> forall handle, quiet_run (op handle).
Proof.
  intros Hdry Hop handle. destruct Hop.
  - by apply quiet_edit_settings.
  - by apply quiet_edit_settings.
  - by apply quiet_edit_settings.
  - by apply quiet_edit_settings.
  - by apply quiet_fullReset.
  - by apply quiet_deleteForUser.
  - by apply quiet_pushForUser.
  - by apply quiet_linkForUser.
  - by apply quiet_backupForUser.
  - by apply (quiet_backupForUser config backupDir (str "settings.json")).
Qed.

End WithPaths.

(** X6. With [dryRun] set, no unit operation changes anything: whatever
    the state of the file system, the user and the other arguments, the
    operation (the four settings edits, the content-log reset, the bulk
    delete, the character push, the lorebook link, the bulk backup) leaves
    every file as it is and makes only calls that read or print; so does a
    whole batch of them, and so do the two dry-run entries of the Snapshot
    Store. *)
Theorem dry_run_changes_nothing :
  forall (P : PathOps) (JSON_parse : jsstring -> Res JsVal)
         (JSON_stringify : JsVal -> jsstring) (config : Config),
    dryRun config = true ->
    (forall op,
        unit_operation JSON_parse JSON_stringify config op ->
        (forall handle w,
            exists cs, snd (op handle w) = logged w cs /\ Symlinks.quiet cs)
        /\ (forall users w,
              files (Batch.final_world (as_operation op) users w) = files w))
    /\ (forall dataRoot handle rel w,
          exists cs,
            snd (backupUserFile dataRoot handle rel true w) = logged w cs
            /\ Symlinks.quiet cs)
    /\ (forall backupRoot filePath label w,
          exists cs,
            snd (backupToAdmin backupRoot filePath label true w) = logged w cs
            /\ Symlinks.quiet cs).
Proof.
  intros P JSON_parse JSON_stringify config Hdry. split; [|split].
  - intros op Hop.
    pose proof (quiet_unit_operation JSON_parse JSON_stringify config op Hdry Hop) as Hq.
    split; [exact Hq|]. intros users w. by apply quiet_batch.
  - intros dataRoot handle rel. apply quiet_backupUserFile.
  - intros backupRoot filePath label. apply quiet_backupToAdmin.
Qed.

(** Two users with a content log each, and a configuration with [dryRun]
    set. *)
Definition two_logs : World :=
  mkWorld (<[str "/data/alice/content.log" := File (str "a.png")]>
             (<[str "/data/bob/content.log" := File (str "b.png")]> ∅))
          (str "2025-01-15T14:30:22.123Z") [].

Definition dry_config : Config :=
  mkConfig (str "/data") (str "/data/default/scaffold") (str "/data/default/content")
    (str "/data/_admin-backups") true.

Lemma dry_run_changes_nothing_witness :
  files (Batch.final_world
           (as_operation (ResetContentLog.fullReset (P := text_paths) dry_config))
           [str "alice"; str "bob"] two_logs)
  = files two_logs.
Proof.
  destruct (dry_run_changes_nothing text_paths JSON.parse (fun _ => []) dry_config)
    as [Hops _].
  - reflexivity.
  - destruct (Hops _ (op_fullReset JSON.parse (fun _ => []) dry_config)) as [_ Hbatch].
    apply Hbatch.
Defined.

End DryRun.

(* ===================================================================== *)
(** * Real runs                                                           *)
(* ===================================================================== *)

(** What the Snapshot Store and the unit operations leave on disk when
    they run for real and nothing fails. *)
Module RealRun.

Import Fs Backup StPaths FsFacts.
Local Open Scope io_scope.

(** The text [timestamp()] makes of the clock. *)
Definition stamp (now : jsstring) : jsstring :=
  firstn 19 (dash_first_T (dash_colons_dots now)).

Lemma timestamp_run fs now tr :
  timestamp (mkWorld fs now tr) = (Ok (stamp now), mkWorld fs now tr).
Proof. reflexivity. Qed.

Lemma emit_run c fs now tr :
  emit c (mkWorld fs now tr) = (Ok tt, mkWorld fs now (tr ++ [c])).
Proof. reflexivity. Qed.

Lemma ret_run {A} (a : A) w : ret a w = (Ok a, w).
Proof. reflexivity. Qed.

(** Runs the first computation of a sequence with its known result. *)
Ltac run H := rewrite (mbind_ok _ _ _ _ _ H); cbn beta iota.

Section WithPaths.

Context {P : PathOps}.

(** Where [backupFile(filePath, backupDir)] puts the copy. *)
Definition backup_path (now filePath backupDir : jsstring) : jsstring :=
  join [backupDir; basename filePath ++ str "." ++ stamp now ++ str ".bak"].

(** There is room for the copy: the backup directory is there or can be
    made, the name of the copy is free, and it is a name inside that
    directory (its parent is the backup directory, or some directory that
    exists). *)
Definition can_backup (fs : gmap (list N) node) (now filePath backupDir : jsstring) : Prop :=
  let backupPath := backup_path now filePath backupDir in
  can_mkdir fs backupDir
  /\ fs !! backupPath = None
  /\ backupPath <> backupDir
  /\ (parent backupPath = backupDir \/ parent_is_dir fs backupPath = true).

(** The files after the copy was made. *)
Definition with_backup (fs : gmap (list N) node) (now filePath backupDir data : jsstring)
  : gmap (list N) node :=
  <[backup_path now filePath backupDir := File data]> (with_dir fs backupDir).

Lemma with_backup_follow fuel fs now filePath backupDir data p r :
  fs !! backup_path now filePath backupDir = None ->
  backup_path now filePath backupDir <> backupDir ->
  follow fuel fs p = Some r ->
  follow fuel (with_backup fs now filePath backupDir data) p = Some r.
Proof.
  intros Hfree Hne Hp. unfold with_backup. apply follow_insert_fresh.
  - by rewrite with_dir_lookup.
  - by apply with_dir_follow.
Qed.

Lemma with_backup_file_at fs now filePath backupDir data p c :
  fs !! backup_path now filePath backupDir = None ->
  backup_path now filePath backupDir <> backupDir ->
  file_at fs p = Some c ->
  file_at (with_backup fs now filePath backupDir data) p = Some c.
Proof.
  intros Hfree Hne Hp. apply file_at_follow in Hp as (q & Hq). apply file_at_follow.
  exists q. by apply with_backup_follow.
Qed.

Lemma with_backup_lookup fs now filePath backupDir data p n :
  fs !! backup_path now filePath backupDir = None ->
  fs !! p = Some n ->
  with_backup fs now filePath backupDir data !! p = Some n.
Proof.
  intros Hfree Hp. unfold with_backup.
  rewrite lookup_insert_ne by (intros Heq; unfold jsstring in *; congruence).
  unfold with_dir. destruct (fs !! backupDir) eqn:Hd; [done|].
  rewrite lookup_insert_ne; [done|]. intros Heq. unfold jsstring in *. congruence.
Qed.

Lemma with_backup_other fs now filePath backupDir data p :
  p <> backup_path now filePath backupDir -> p <> backupDir ->
  with_backup fs now filePath backupDir data !! p = fs !! p.
Proof.
  intros H1 H2. unfold with_backup. rewrite lookup_insert_ne by done.
  by apply with_dir_lookup.
Qed.

Lemma with_backup_copy fs now filePath backupDir data :
  file_at (with_backup fs now filePath backupDir data) (backup_path now filePath backupDir)
  = Some data.
Proof. apply file_at_direct. unfold with_backup. by rewrite lookup_insert_eq. Qed.

(** The Snapshot Store, run. *)
Lemma backupFile_run fs now tr filePath backupDir data :
  file_at fs filePath = Some data ->
  can_backup fs now filePath backupDir ->
  exists tr',
    backupFile filePath backupDir (mkWorld fs now tr)
    = (Ok (Some (backup_path now filePath backupDir)),
       mkWorld (with_backup fs now filePath backupDir data) now tr').
Proof.
  intros Hsrc (Hmk & Hfree & Hne & Hparent).
  unfold backupFile.
  run (existsSync_run filePath fs now tr).
  rewrite (file_at_exists _ _ _ Hsrc). cbn [negb].
  run (timestamp_run fs now (tr ++ [SysExists filePath])).
  run (emit_run (SnapshotBegin filePath) fs now (tr ++ [SysExists filePath])).
  run (mkdirSync_run backupDir fs now
         ((tr ++ [SysExists filePath]) ++ [SnapshotBegin filePath]) Hmk).
  fold (backup_path now filePath backupDir).
  assert (Hsrc' : file_at (with_dir fs backupDir) filePath = Some data).
  { apply file_at_follow in Hsrc as (q & Hq). apply file_at_follow. exists q.
    by apply with_dir_follow. }
  assert (Hwrite : write_through (with_dir fs backupDir) (backup_path now filePath backupDir) data
                   = Some (with_backup fs now filePath backupDir data)).
  { apply write_through_new; [by rewrite with_dir_lookup|].
    unfold parent_is_dir. destruct Hparent as [-> | Hdir].
    - by destruct (with_dir_is_dir fs backupDir Hmk) as (d & ->).
    - unfold parent_is_dir in Hdir.
      destruct (follow MAXSYMLINKS fs (parent _)) as [[d [| |]]|] eqn:Hd; try done.
      by rewrite (with_dir_follow _ _ _ _ _ Hd). }
  run (copyFileSync_run filePath _ _ now
         (((tr ++ [SysExists filePath]) ++ [SnapshotBegin filePath]) ++ [SysMkdir backupDir])
         data _ Hsrc' Hwrite).
  run (emit_run (SnapshotEnd filePath) (with_backup fs now filePath backupDir data) now
         ((((tr ++ [SysExists filePath]) ++ [SnapshotBegin filePath]) ++ [SysMkdir backupDir])
          ++ [SysCopyFile filePath (backup_path now filePath backupDir)])).
  by eexists.
Qed.

(** The owner-scoped store, run. *)
Definition snapshots_dir (dataRoot handle : jsstring) : jsstring :=
  join [dataRoot; handle; str "backups"; str "admin-snapshots"].

Lemma backupUserFile_run fs now tr dataRoot handle rel data :
  let source := join [dataRoot; handle; rel] in
  file_at fs source = Some data ->
  can_backup fs now source (snapshots_dir dataRoot handle) ->
  exists tr',
    backupUserFile dataRoot handle rel false (mkWorld fs now tr)
    = (Ok (Some (backup_path now source (snapshots_dir dataRoot handle))),
       mkWorld (with_backup fs now source (snapshots_dir dataRoot handle) data) now tr').
Proof.
  intros source Hsrc Hroom. unfold backupUserFile. fold source.
  run (existsSync_run source fs now tr).
  rewrite (file_at_exists _ _ _ Hsrc). cbn [negb].
  by apply backupFile_run.
Qed.

End WithPaths.


(** A user whose settings are about to be backed up.  With paths as plain
    text the directory of [p] is spelled [p/..]. *)
Definition alice_settings : World :=
  mkWorld
    (<[str "/data/alice/settings.json" := File (str "{}")]>
       (<[str "/data/alice/backups/admin-snapshots/settings.json.2025-01-15-14-30-22.bak/.."
          := Dir]> ∅))
    (str "2025-01-15T14:30:22.123Z") [].


(** ** The settings edits *)

Lemma lift_run {A} (r : Res A) w : ContentIndex.lift r w = (r, w).
Proof. reflexivity. Qed.

Lemma file_at_entry fs p data :
  file_at fs p = Some data -> exists n, fs !! p = Some n /\ n <> Dir.
Proof.
  intros Hp. apply file_at_follow in Hp as (q & Hq).
  destruct (follow_is_Some _ _ _ _ Hq) as [n Hn]. exists n. split; [done|].
  intros ->. by rewrite (follow_direct _ _ _ _ Hn eq_refl) in Hq.
Qed.

Lemma readSettings_run (JSON_parse : jsstring -> Res JsVal) path fs now tr raw :
  file_at fs path = Some raw ->
  BulkSettings.readSettings JSON_parse path (mkWorld fs now tr)
  = (JSON_parse raw, mkWorld fs now (tr ++ [SysExists path; SysReadFile path])).
Proof.
  intros Hraw. unfold BulkSettings.readSettings.
  run (existsSync_run path fs now tr). rewrite (file_at_exists _ _ _ Hraw). cbn [negb].
  run (readFileSync_run path fs now (tr ++ [SysExists path]) raw Hraw).
  by rewrite lift_run, <- app_assoc.
Qed.

(** X7. A settings file that is missing, or holds the JSON text [null],
    makes a settings edit return the skip marker; one that is a directory or
    does not parse makes it throw (the Batch Executor then files the user
    under [failed]).  In all four cases, dry run or not, the edit has only
    looked: no snapshot is made and no file is written. *)
Theorem edit_settings_unreadable :
  forall (P : PathOps) (JSON_parse : jsstring -> Res JsVal)
         (JSON_stringify : JsVal -> jsstring) (config : Config) (handle : jsstring)
         (edit : JsVal -> Res (jsstring * JsVal)) (w : World),
    let settingsPath := userSettingsPath (dataRoot config) handle in
    let run := BulkSettings.edit_settings JSON_parse JSON_stringify config handle edit w in
    (exists_in (files w) settingsPath = false ->
     run = (Ok (BulkSettings.skipped "no settings.json"), logged w [SysExists settingsPath]))
    /\ (forall raw,
          file_at (files w) settingsPath = Some raw ->
          JSON_parse raw = Ok JNull ->
          run = (Ok (BulkSettings.skipped "no settings.json"),
                 logged w [SysExists settingsPath; SysExists settingsPath;
                           SysReadFile settingsPath]))
    /\ (forall raw e,
          file_at (files w) settingsPath = Some raw ->
          JSON_parse raw = Raise e ->
          run = (Raise e,
                 logged w [SysExists settingsPath; SysExists settingsPath;
                           SysReadFile settingsPath]))
    /\ (forall q,
          follow MAXSYMLINKS (files w) settingsPath = Some (q, Dir) ->
          run = (Raise (SystemError "EISDIR" settingsPath),
                 logged w [SysExists settingsPath; SysExists settingsPath;
                           SysReadFile settingsPath])).
Proof.
  intros P JSON_parse JSON_stringify config handle edit [fs now tr] settingsPath run.
  subst run. unfold BulkSettings.edit_settings. fold settingsPath.
  cbn [files]. unfold logged. cbn [files isoNow syscalls].
  split; [|split; [|split]].
  - intros Hmissing. run (existsSync_run settingsPath fs now tr). by rewrite Hmissing.
  - intros raw Hraw Hnull. run (existsSync_run settingsPath fs now tr).
    rewrite (file_at_exists _ _ _ Hraw). cbn [negb].
    rewrite (mbind_ok _ _ _ JNull _
               (eq_trans (readSettings_run JSON_parse settingsPath fs now _ raw Hraw)
                         (f_equal (fun r => (r, _)) Hnull))).
    by rewrite ret_run, <- app_assoc.
  - intros raw e Hraw Hbad. run (existsSync_run settingsPath fs now tr).
    rewrite (file_at_exists _ _ _ Hraw). cbn [negb].
    rewrite (mbind_raise _ _ _ e _
               (eq_trans (readSettings_run JSON_parse settingsPath fs now _ raw Hraw)
                         (f_equal (fun r => (r, _)) Hbad))).
    by rewrite <- app_assoc.
  - intros q Hdir. run (existsSync_run settingsPath fs now tr).
    unfold exists_in. rewrite Hdir. cbn [negb].
    unfold BulkSettings.readSettings, readFileSync, existsSync, exists_in,
      mbind, emit, get_files, ret, throw.
    io_simpl. rewrite Hdir. cbn [negb]. io_simpl. by rewrite Hdir.
Qed.

(** A user whose settings file is cut short. *)
Definition alice_cut_short : World :=
  mkWorld (<[str "/data/alice/settings.json" := File (str "{")]> ∅)
          (str "2025-01-15T14:30:22.123Z") [].

Definition real_config : Config :=
  mkConfig (str "/data") (str "/data/default/scaffold") (str "/data/default/content")
    (str "/data/_admin-backups") false.

Lemma edit_settings_unreadable_witness :
  exists e w',
    BulkSettings.setKeyValues (P := text_paths) JSON.parse (fun _ => []) real_config
      [(str "a", int 1)] (str "alice") alice_cut_short = (Raise e, w')
    /\ files w' = files alice_cut_short.
Proof.
  destruct (edit_settings_unreadable text_paths JSON.parse (fun _ => []) real_config
              (str "alice")
              (fun settings =>
                 bind (JsonMerge.applyMutations settings [(str "a", int 1)]) (fun updated =>
                 Ok (str "[DRY RUN] Would update "
                     ++ userSettingsPath (P := text_paths) (str "/data") (str "alice"),
                     updated)))
              alice_cut_short) as (_ & _ & Hbad & _).
  eexists _, _. split.
  - apply (Hbad (str "{")); by vm_compute.
  - reflexivity.
Defined.


(** A serialiser that prints [text] whatever it is given: it stands for
    [JSON.stringify] in an example that writes one value. *)
Definition printed (text : jsstring) : JsVal -> jsstring := fun _ => text.


(** ** The content-log reset and the bulk delete *)

Section WithPaths.

Context {P : PathOps}.

(** Snapshot, then unlink. *)
Lemma backup_then_unlink fs now tr dataRoot handle rel data :
  let source := join [dataRoot; handle; rel] in
  let dir := snapshots_dir dataRoot handle in
  file_at fs source = Some data ->
  can_backup fs now source dir ->
  exists tr',
    (do* backupUserFile dataRoot handle rel false in
     do* unlinkSync source in
     ret BulkSettings.success) (mkWorld fs now tr)
    = (Ok BulkSettings.success,
       mkWorld (delete source (with_backup fs now source dir data)) now tr').
Proof.
  intros source dir Hsrc Hroom.
  destruct (backupUserFile_run fs now tr dataRoot handle rel data Hsrc Hroom) as (tr1 & Hbackup).
  fold source dir in Hbackup. run Hbackup.
  destruct Hroom as (Hmk & Hfree & Hne & Hparent).
  destruct (file_at_entry _ _ _ Hsrc) as (n & Hn & Hnd).
  pose proof (with_backup_lookup fs now source dir data _ _ Hfree Hn) as Hn'.
  run (unlinkSync_run source _ now tr1 n Hn' Hnd).
  by eexists.
Qed.

Lemma deleted_backed_up fs now source dir data :
  fs !! backup_path now source dir = None ->
  is_Some (fs !! source) ->
  delete source (with_backup fs now source dir data) !! source = None
  /\ file_at (delete source (with_backup fs now source dir data)) (backup_path now source dir)
     = Some data
  /\ (forall p, p <> source -> p <> backup_path now source dir -> p <> dir ->
                delete source (with_backup fs now source dir data) !! p = fs !! p).
Proof.
  intros Hfree [n Hn]. split; [apply lookup_delete_eq|]. split.
  - apply file_at_direct. rewrite lookup_delete_ne.
    + unfold with_backup. by rewrite lookup_insert_eq.
    + intros Heq. unfold jsstring in *. congruence.
  - intros p H1 H2 H3. rewrite lookup_delete_ne by done. by apply with_backup_other.
Qed.

End WithPaths.


(** A user with a content log and room for its snapshot. *)
Definition alice_log : World :=
  mkWorld
    (<[str "/data/alice/content.log" := File (str "a.png")]>
       (<[str "/data/alice/backups/admin-snapshots/content.log.2025-01-15-14-30-22.bak/.."
          := Dir]> ∅))
    (str "2025-01-15T14:30:22.123Z") [].



(** A user with a character card and room for its snapshot. *)
Definition alice_card : World :=
  mkWorld
    (<[str "/data/alice/characters/Old.png" := File (str "PNG")]>
       (<[str "/data/alice/backups/admin-snapshots/Old.png.2025-01-15-14-30-22.bak/.."
          := Dir]> ∅))
    (str "2025-01-15T14:30:22.123Z") [].


(** ** The character push *)

Lemma follow_overwrite_other fuel : forall fs (p q q' : jsstring) n c d,
  follow fuel fs p = Some (q', n) -> fs !! q = Some (File c) -> q' <> q ->
  follow fuel (<[q := File d]> fs) p = Some (q', n).
Proof.
  induction fuel as [|fuel IH]; intros fs p q q' n c d; simpl;
    destruct (fs !! p) as [[c'| |t]|] eqn:Hp; try done.
  - intros [= <- <-] Hq Hne. by rewrite lookup_insert_ne, Hp.
  - intros [= <- <-] Hq Hne. by rewrite lookup_insert_ne, Hp.
  - intros [= <- <-] Hq Hne. by rewrite lookup_insert_ne, Hp.
  - intros [= <- <-] Hq Hne. by rewrite lookup_insert_ne, Hp.
  - intros Hfollow Hq Hne.
    rewrite lookup_insert_ne by (intros ->; unfold jsstring in *; congruence).
    rewrite Hp. by eapply IH.
Qed.

Section WithPaths.

Context {P : PathOps}.

(** A file can be written at [path] under the directory [dir]: the name is
    free in it, or it leads to a file. *)
Definition can_write (fs : gmap (list N) node) (dir path : jsstring) : Prop :=
  (fs !! path = None /\ path <> dir
   /\ (parent path = dir \/ parent_is_dir fs path = true))
  \/ exists old, file_at fs path = Some old.

Lemma write_under_dir fs dir path data :
  can_mkdir fs dir -> can_write fs dir path ->
  exists fs',
    write_through (with_dir fs dir) path data = Some fs'
    /\ forall p c, file_at fs p = Some c ->
                   p = path \/ file_at fs' p = Some c
                   \/ follow MAXSYMLINKS fs p = follow MAXSYMLINKS fs path.
Proof.
  intros Hmk [(Hfree & Hne & Hparent)|(old & Hold)].
  - exists (<[path := File data]> (with_dir fs dir)). split.
    + apply write_through_new; [by rewrite with_dir_lookup|].
      unfold parent_is_dir. destruct Hparent as [-> | Hdir].
      * by destruct (with_dir_is_dir fs dir Hmk) as (d & ->).
      * unfold parent_is_dir in Hdir.
        destruct (follow MAXSYMLINKS fs (parent _)) as [[d [| |]]|] eqn:Hd; try done.
        by rewrite (with_dir_follow _ _ _ _ _ Hd).
    + intros p c Hp. right. left. apply file_at_insert_fresh; [by rewrite with_dir_lookup|].
      apply file_at_follow in Hp as (q & Hq). apply file_at_follow. exists q.
      by apply with_dir_follow.
  - apply file_at_follow in Hold as (q & Hq).
    exists (<[q := File data]> (with_dir fs dir)). split.
    + eapply write_through_existing. by apply with_dir_follow.
    + intros p c Hp. apply file_at_follow in Hp as (q' & Hq').
      destruct (decide (q' = q)) as [->|Hne].
      * right. right. rewrite Hq, Hq'. repeat f_equal.
        destruct (follow_lookup _ _ _ _ _ Hq) as [H1 _].
        destruct (follow_lookup _ _ _ _ _ Hq') as [H2 _]. congruence.
      * right. left. apply file_at_follow. exists q'.
        destruct (follow_lookup _ _ _ _ _ Hq) as [H1 _].
        eapply follow_overwrite_other; [by apply with_dir_follow| |done].
        pose proof (with_dir_follow _ _ _ dir _ Hq) as Hq2.
        by destruct (follow_lookup _ _ _ _ _ Hq2).
Qed.

End WithPaths.

Section WithPaths.

Context {P : PathOps}.

(** Make the directory, copy the file into it. *)
Lemma mkdir_then_copy fs now tr dir src dst data :
  file_at fs src = Some data ->
  can_mkdir fs dir ->
  can_write fs dir dst ->
  exists fs',
    (do* mkdirSync dir in
     do* copyFileSync src dst in
     ret BulkSettings.success) (mkWorld fs now tr)
    = (Ok BulkSettings.success,
       mkWorld fs' now ((tr ++ [SysMkdir dir]) ++ [SysCopyFile src dst]))
    /\ file_at fs' dst = Some data
    /\ file_at fs' src = Some data.
Proof.
  intros Hsrc Hmk Hwrite.
  destruct (write_under_dir fs dir dst data Hmk Hwrite) as (fs' & Hw & Hkept).
  assert (Hsrc' : file_at (with_dir fs dir) src = Some data).
  { apply file_at_follow in Hsrc as (q & Hq). apply file_at_follow. exists q.
    by apply with_dir_follow. }
  pose proof (write_through_reads _ _ _ _ Hw) as Hread.
  exists fs'. split; [|split].
  - run (mkdirSync_run dir fs now tr Hmk).
    by run (copyFileSync_run src dst _ now (tr ++ [SysMkdir dir]) data fs' Hsrc' Hw).
  - exact Hread.
  - destruct (Hkept src data Hsrc) as [->|[Hsame|Hsame]]; [done|done|].
    (* the source and the target are one file *)
    revert Hw. unfold write_through.
    destruct (with_dir fs dir !! dst) eqn:Ht.
    + apply file_at_follow in Hsrc as (q & Hq). rewrite Hq in Hsame.
      rewrite (with_dir_follow _ _ _ dir _ (eq_sym Hsame)).
      intros [= <-]. apply file_at_follow. exists q.
      eapply follow_overwrite. by apply with_dir_follow.
    + apply file_at_follow in Hsrc as (q & Hq). rewrite Hq in Hsame.
      destruct (follow_is_Some _ _ _ _ (eq_sym Hsame)) as [x Hx].
      pose proof (with_dir_follow _ _ _ dir _ (eq_sym Hsame)) as Hf.
      destruct (follow_is_Some _ _ _ _ Hf) as [y Hy]. unfold jsstring in *. congruence.
Qed.

End WithPaths.

(** X12. A real run of the character push with a readable source: the
    operation returns ['success'] and the card in the user's [characters]
    directory then holds the text of the source, whether the name was free
    there or a card of that name existed (which is overwritten; no copy of
    it is kept).  The source reads as before. *)
Theorem pushForUser_copies_card :
  forall (P : PathOps) (config : Config) (sourcePath filename handle : jsstring) (w : World)
         (data : jsstring),
    let targetDir := userCharactersDir (dataRoot config) handle in
    let targetPath := join [targetDir; filename] in
    dryRun config = false ->
    file_at (files w) sourcePath = Some data ->
    can_mkdir (files w) targetDir ->
    can_write (files w) targetDir targetPath ->
    exists w',
      PushCharacters.pushForUser config sourcePath filename handle w
      = (Ok BulkSettings.success, w')
      /\ file_at (files w') targetPath = Some data
      /\ file_at (files w') sourcePath = Some data.
Proof.
  intros P config sourcePath filename handle [fs now tr] data targetDir targetPath
    Hreal Hsrc Hmk Hwrite. cbn [files] in *.
  destruct (mkdir_then_copy fs now tr targetDir sourcePath targetPath data Hsrc Hmk Hwrite)
    as (fs' & Hrun & Hcard & Hsource).
  exists (mkWorld fs' now ((tr ++ [SysMkdir targetDir]) ++ [SysCopyFile sourcePath targetPath])).
  split; [|split; [exact Hcard|exact Hsource]].
  unfold PushCharacters.pushForUser. fold targetDir targetPath. rewrite Hreal. exact Hrun.
Qed.

(** A source card, and a user who has a card of the same name. *)
Definition card_to_push : World :=
  mkWorld
    (<[str "/cards/New.png" := File (str "new card")]>
       (<[str "/data/alice/characters/New.png" := File (str "old card")]> ∅))
    (str "2025-01-15T14:30:22.123Z") [].

Lemma pushForUser_copies_card_witness :
  exists w',
    PushCharacters.pushForUser (P := text_paths) real_config (str "/cards/New.png")
      (str "New.png") (str "alice") card_to_push = (Ok BulkSettings.success, w')
    /\ file_at (files w') (str "/data/alice/characters/New.png") = Some (str "new card").
Proof.
  destruct (pushForUser_copies_card text_paths real_config (str "/cards/New.png")
              (str "New.png") (str "alice") card_to_push (str "new card"))
    as (w' & Hrun & Hcard & _).
  - reflexivity.
  - by vm_compute.
  - left. by vm_compute.
  - right. exists (str "old card"). by vm_compute.
  - exists w'. split; [exact Hrun|exact Hcard].
Defined.

(** X24. A real run of the bulk backup for a user who has the file: the
    operation returns ['success'], the copy under the run's backup directory
    and the user's handle holds the text of the file, and the file reads as
    before.  A user without the file is skipped and nothing is made.  The
    unit operation of [backupAllSettings] is that of [backupSpecificFile]
    for [settings.json]. *)
Theorem backupForUser_copies_file :
  forall (P : PathOps) (config : Config) (backupDir fileToBackup handle : jsstring) (w : World),
    let filePath := join [dataRoot config; handle; fileToBackup] in
    let targetDir := join [backupDir; handle] in
    let copy := join [targetDir; fileToBackup] in
    (forall data,
        dryRun config = false ->
        file_at (files w) filePath = Some data ->
        can_mkdir (files w) targetDir ->
        can_write (files w) targetDir copy ->
        exists w',
          BackupOps.backupForUser config backupDir fileToBackup handle w
          = (Ok BulkSettings.success, w')
          /\ file_at (files w') copy = Some data
          /\ file_at (files w') filePath = Some data)
    /\ (exists_in (files w) filePath = false ->
        BackupOps.backupForUser config backupDir fileToBackup handle w
        = (Ok (JObj [(str "skipped", JStr (str "no " ++ fileToBackup))]),
           logged w [SysExists filePath]))
    /\ BackupOps.backupSettingsForUser config backupDir handle
       = BackupOps.backupForUser config backupDir (str "settings.json") handle.
Proof.
  intros P config backupDir fileToBackup handle [fs now tr] filePath targetDir copy.
  cbn [files]. split; [|split; [|reflexivity]].
  - intros data Hreal Hfile Hmk Hwrite.
    destruct (mkdir_then_copy fs now (tr ++ [SysExists filePath]) targetDir filePath copy data
                Hfile Hmk Hwrite) as (fs' & Hrun & Hcopy & Hsource).
    exists (mkWorld fs' now (((tr ++ [SysExists filePath]) ++ [SysMkdir targetDir])
                               ++ [SysCopyFile filePath copy])).
    split; [|split; [exact Hcopy|exact Hsource]].
    unfold BackupOps.backupForUser. fold filePath targetDir copy. rewrite Hreal.
    run (existsSync_run filePath fs now tr).
    rewrite (file_at_exists _ _ _ Hfile). cbn [negb]. exact Hrun.
  - intros Hmissing. unfold BackupOps.backupForUser. fold filePath.
    run (existsSync_run filePath fs now tr). by rewrite Hmissing.
Qed.

(** A run of the settings backup for a user with settings. *)
Definition alice_before_backup : World :=
  mkWorld
    (<[str "/data/alice/settings.json" := File (str "{}")]>
       (<[str "/data/_admin-backups/settings-backup-2025-01-15-14-30-22/alice/settings.json/.."
          := Dir]> ∅))
    (str "2025-01-15T14:30:22.123Z") [].

Lemma backupForUser_copies_file_witness :
  exists w',
    BackupOps.backupForUser (P := text_paths) real_config
      (str "/data/_admin-backups/settings-backup-2025-01-15-14-30-22")
      (str "settings.json") (str "alice") alice_before_backup
    = (Ok BulkSettings.success, w')
    /\ file_at (files w')
         (str "/data/_admin-backups/settings-backup-2025-01-15-14-30-22/alice/settings.json")
       = Some (str "{}").
Proof.
  destruct (backupForUser_copies_file text_paths real_config
              (str "/data/_admin-backups/settings-backup-2025-01-15-14-30-22")
              (str "settings.json") (str "alice") alice_before_backup) as (Hcopy & _ & _).
  destruct (Hcopy (str "{}")) as (w' & Hrun & Hfile & _).
  - reflexivity.
  - by vm_compute.
  - left. by vm_compute.
  - left. split; [by vm_compute|]. split.
    + intros Heq. apply (f_equal (@length N)) in Heq. vm_compute in Heq. discriminate.
    + right. by vm_compute.
  - exists w'. split; [exact Hrun|exact Hfile].
Defined.

End RealRun.

(* ===================================================================== *)
(** * The Link Resolver, run                                              *)
(* ===================================================================== *)

(** Facts about [createSymlinkForUser] and the unit operation of
    src/modules/lorebook-symlinks.js. *)
Module LinkFacts.

Import Fs Backup StPaths FsFacts RealRun Symlinks.
Local Open Scope io_scope.

Section WithPaths.

Context {P : PathOps}.

(** The block for an existing entry never returns ['created']. *)
Lemma existing_entry_not_created source target handle policy dry w o w' :
  existing_entry source target handle policy dry w = (Ok (Some o), w') -> o <> Created.
Proof.
  unfold existing_entry. intros Hrun.
  apply mbind_inv in Hrun as (stat & w1 & _ & Hrun).
  destruct (isSymbolicLink stat).
  - apply mbind_inv in Hrun as (cur & w2 & _ & Hrun).
    destruct (bool_decide _); [by apply ret_inv in Hrun as [[= <-] _]|].
    destruct (jsstring_eqb policy (str "skip")); [by apply ret_inv in Hrun as [[= <-] _]|].
    destruct dry; apply mbind_inv in Hrun as (? & w3 & _ & Hrun);
      apply ret_inv in Hrun as [Heq _]; by simplify_eq.
  - destruct (jsstring_eqb policy (str "skip")); [by apply ret_inv in Hrun as [[= <-] _]|].
    destruct dry; apply mbind_inv in Hrun as (? & w3 & _ & Hrun);
      apply ret_inv in Hrun as [Heq _]; by simplify_eq.
Qed.

Lemma symlinkSync_made source target w w' :
  symlinkSync source target w = (Ok tt, w') -> files w' !! target = Some (Symlink source).
Proof.
  destruct w as [fs now tr].
  unfold symlinkSync, mbind, emit, get_files, set_files, throw. io_simpl.
  destruct (fs !! target); [done|]. destruct (parent_is_dir fs target); [|done].
  intros [= <-]. cbn [files]. by rewrite lookup_insert_eq.
Qed.

(** A real run that returns ['created'] has made the link. *)
Lemma created_is_linked source target handle policy w w' :
  createSymlinkForUser source target handle policy false w = (Ok Created, w') ->
  files w' !! target = Some (Symlink source).
Proof.
  unfold createSymlinkForUser. intros Hrun.
  apply mbind_inv in Hrun as (present & w1 & _ & Hrun).
  apply mbind_inv in Hrun as (returned & w2 & Hblock & Hrun).
  destruct returned as [o|].
  - apply ret_inv in Hrun as [-> _]. destruct present.
    + by apply existing_entry_not_created in Hblock.
    + by apply ret_inv in Hblock as [[=] _].
  - apply mbind_inv in Hrun as ([] & w3 & _ & Hrun).
    apply mbind_inv in Hrun as ([] & w4 & Hlink & Hrun).
    apply ret_inv in Hrun as [_ <-]. by eapply symlinkSync_made.
Qed.

(** On a target that is a link to the source, the resolver only looks. *)
Lemma already_linked_run source target handle policy dry fs now tr t :
  fs !! target = Some (Symlink t) ->
  resolve t = resolve source ->
  exists cs,
    createSymlinkForUser source target handle policy dry (mkWorld fs now tr)
    = (Ok AlreadyLinked, mkWorld fs now (tr ++ cs))
    /\ quiet cs.
Proof.
  intros Hlink Hsame.
  destruct (target_present fs now target _ Hlink tr) as (cs1 & Hpres & Hq1).
  exists (cs1 ++ [SysLstat target; SysReadlink target]). split; [|by apply quiet_app].
  unfold createSymlinkForUser. run Hpres.
  unfold existing_entry, lstatSync, readlinkSync, mbind, emit, get_files, ret.
  io_simpl. rewrite Hlink. cbn [isSymbolicLink]. io_simpl. rewrite Hlink.
  by rewrite bool_decide_eq_true_2.
Qed.

(** With the policy ['skip'] an existing entry is looked at and left. *)
Lemma skip_run source target handle dry fs now tr entry :
  fs !! target = Some entry ->
  exists o cs,
    createSymlinkForUser source target handle (str "skip") dry (mkWorld fs now tr)
    = (Ok o, mkWorld fs now (tr ++ cs))
    /\ quiet cs
    /\ (o = AlreadyLinked \/ o = Skipped).
Proof.
  intros Hentry.
  destruct (target_present fs now target _ Hentry tr) as (cs1 & Hpres & Hq1).
  unfold createSymlinkForUser. run Hpres.
  unfold existing_entry, lstatSync, readlinkSync, mbind, emit, get_files, ret.
  io_simpl. rewrite Hentry. destruct entry as [c| |t]; cbn [isSymbolicLink].
  - exists Skipped, (cs1 ++ [SysLstat target]).
    split; [done|]. split; [by apply quiet_app|by right].
  - exists Skipped, (cs1 ++ [SysLstat target]).
    split; [done|]. split; [by apply quiet_app|by right].
  - io_simpl. rewrite Hentry.
    destruct (bool_decide (resolve t = resolve source)).
    + exists AlreadyLinked, (cs1 ++ [SysLstat target; SysReadlink target]).
      split; [done|]. split; [by apply quiet_app|by left].
    + exists Skipped, (cs1 ++ [SysLstat target; SysReadlink target]).
      split; [done|]. split; [by apply quiet_app|by right].
Qed.

End WithPaths.

(** X13. Linking twice is linking once: after a real run of
    [createSymlinkForUser] that returned ['created'], the target is a link
    to the source, and any further run for the same source and target
    (whatever the policy, dry or not) returns ['already-linked'] and changes
    nothing. *)
Theorem createSymlinkForUser_again :
  forall (P : PathOps) (sourceAbsolute targetPath handle policy : jsstring) (w w1 : World),
    createSymlinkForUser sourceAbsolute targetPath handle policy false w = (Ok Created, w1) ->
    files w1 !! targetPath = Some (Symlink sourceAbsolute)
    /\ forall handle' policy' dry,
         exists cs,
           createSymlinkForUser sourceAbsolute targetPath handle' policy' dry w1
           = (Ok AlreadyLinked, logged w1 cs)
           /\ quiet cs.
Proof.
  intros P source target handle policy w [fs1 now1 tr1] Hrun.
  pose proof (created_is_linked _ _ _ _ _ _ Hrun) as Hlink. cbn [files] in Hlink.
  split; [exact Hlink|]. intros handle' policy' dry.
  by apply already_linked_run with (t := source).
Qed.

(** The world of [alice_has_copy] after the link was made. *)
Definition alice_linked : World :=
  mkWorld (<[str "/data/alice/worlds/Lore.json" := Symlink (str "/scaffold/worlds/Lore.json")]>
             (<[str "/data/alice/worlds/Lore.json/.." := Dir]> ∅))
          (str "2025-01-15T14:30:22.123Z")
          [SysExists (str "/data/alice/worlds/Lore.json");
           SysLstat (str "/data/alice/worlds/Lore.json");
           SysUnlink (str "/data/alice/worlds/Lore.json");
           SysMkdir (str "/data/alice/worlds/Lore.json/..");
           SysSymlink (str "/scaffold/worlds/Lore.json") (str "/data/alice/worlds/Lore.json")].

Lemma createSymlinkForUser_again_witness :
  exists cs,
    createSymlinkForUser (P := text_paths) (str "/scaffold/worlds/Lore.json")
      (str "/data/alice/worlds/Lore.json") (str "alice") (str "skip") false alice_linked
    = (Ok AlreadyLinked, logged alice_linked cs).
Proof.
  destruct (createSymlinkForUser_again text_paths (str "/scaffold/worlds/Lore.json")
              (str "/data/alice/worlds/Lore.json") (str "alice") (str "all")
              alice_has_copy alice_linked) as [_ Hagain].
  - vm_compute. reflexivity.
  - destruct (Hagain (str "alice") (str "skip") false) as (cs & Hrun & _).
    by exists cs.
Defined.

(** X14. With the policy ['skip'] the lorebook link leaves whatever is at
    the target: when the user's [worlds] directory has an entry of that name
    (a file, a link, a directory), the unit operation returns a skip marker
    and has only looked, in a dry run and in a real one. *)
Theorem linkForUser_skip_keeps_entry :
  forall (P : PathOps) (config : Config) (filename absolutePath handle : jsstring)
         (w : World) (entry : node),
    files w !! join [userWorldsDir (dataRoot config) handle; filename] = Some entry ->
    exists reason cs,
      linkForUser config filename absolutePath (str "skip") handle w
      = (Ok (JObj [(str "skipped", JStr reason)]), logged w cs)
      /\ quiet cs.
Proof.
  intros P config filename absolutePath handle [fs now tr] entry Hentry.
  cbn [files] in Hentry.
  destruct (skip_run absolutePath _ handle (dryRun config) fs now tr entry Hentry)
    as (o & cs & Hrun & Hq & Ho).
  unfold linkForUser.
  change (jsstring_eqb (str "skip") (str "all")) with false. cbn iota.
  run (ret_run tt (mkWorld fs now tr)). run Hrun.
  destruct Ho as [-> | ->]; eexists _, cs; by split.
Qed.

Lemma linkForUser_skip_keeps_entry_witness :
  exists reason cs,
    linkForUser (P := text_paths) real_config (str "Lore.json")
      (str "/scaffold/worlds/Lore.json") (str "skip") (str "alice") alice_has_copy
    = (Ok (JObj [(str "skipped", JStr reason)]), logged alice_has_copy cs).
Proof.
  destruct (linkForUser_skip_keeps_entry text_paths real_config (str "Lore.json")
              (str "/scaffold/worlds/Lore.json") (str "alice") alice_has_copy
              (File (str "{}"))) as (reason & cs & Hrun & _).
  - by vm_compute.
  - by exists reason, cs.
Defined.


(** A user whose worlds directory holds a copy of the lorebook, with room
    for its snapshot. *)
Definition alice_copy_with_room : World :=
  mkWorld
    (<[str "/data/alice/worlds/Lore.json" := File (str "{}")]>
       (<[str "/data/alice/worlds/Lore.json/.." := Dir]>
          (<[str "/data/alice/backups/admin-snapshots/Lore.json.2025-01-15-14-30-22.bak/.."
             := Dir]> ∅)))
    (str "2025-01-15T14:30:22.123Z") [].


End LinkFacts.

(* ===================================================================== *)
(** * The Index Repository, further                                       *)
(* ===================================================================== *)

(** Facts about src/lib/content-index.js. *)
Module IndexFacts.

Import Fs ContentIndex FsFacts.
Local Open Scope io_scope.

(** The filenames of a collection, in order. *)
Definition filenames (index : list Entry) : list jsstring := List.map filename index.

Lemma has_filename_In (index : list Entry) (name : jsstring) :
  has_filename index name <-> In name (filenames index).
Proof.
  unfold has_filename, filenames. rewrite in_map_iff.
  split; intros (e & H1 & H2); exists e; by split.
Qed.

Lemma addEntry_filenames (index : list Entry) (e : Entry) :
  (In (filename e) (filenames index) /\ addEntry index e = index)
  \/ (~ In (filename e) (filenames index)
      /\ filenames (addEntry index e) = filenames index ++ [filename e]).
Proof.
  unfold addEntry. destruct (existsb _ index) eqn:E.
  - left. split; [|done]. by apply has_filename_In, existsb_filename.
  - right. split.
    + intros Hin. apply has_filename_In, existsb_filename in Hin. congruence.
    + unfold filenames. by rewrite map_app.
Qed.

Lemma removeEntries_filenames (index : list Entry) (names : list jsstring) :
  sublist (filenames (removeEntries index names)) (filenames index).
Proof.
  unfold filenames, removeEntries. induction index as [|e index IH]; simpl; [constructor|].
  destruct (negb _); by constructor.
Qed.

Lemma updateEntry_same_names (index : list Entry) (name : jsstring) (updates : Entry -> Entry) :
  (forall e, filename (updates e) = filename e) ->
  filenames (updateEntry index name updates) = filenames index.
Proof.
  intros Hkeep. unfold filenames, updateEntry. rewrite List.map_map.
  apply List.map_ext. intros e. by destruct (jsstring_eqb (filename e) name).
Qed.

(** X17. The index keeps its filenames unique.  On a collection without
    two records of one filename, [addEntry] and [removeEntries] return such
    a collection again, and so does [updateEntry] when the update leaves
    the filename alone; after [addEntry] the record's filename is in the
    collection, and after [removeEntries] none of the removed ones is. *)
Theorem index_filenames_stay_unique :
  forall (index : list Entry),
    NoDup (filenames index) ->
    (forall e, NoDup (filenames (addEntry index e))
               /\ In (filename e) (filenames (addEntry index e)))
    /\ (forall names, NoDup (filenames (removeEntries index names))
                      /\ forall name, In name names ->
                                      ~ In name (filenames (removeEntries index names)))
    /\ (forall name updates,
          (forall e, filename (updates e) = filename e) ->
          NoDup (filenames (updateEntry index name updates))).
Proof.
  intros index Hnd. split; [|split].
  - intros e. destruct (addEntry_filenames index e) as [[Hin ->]|[Hin ->]].
    + by split.
    + split.
      * apply NoDup_app. split; [done|]. split; [|apply NoDup_singleton].
        intros x Hx Hx'. apply list_elem_of_singleton in Hx'. subst x.
        apply Hin. by apply list_elem_of_In.
      * apply in_or_app. right. by left.
  - intros names. split.
    + eapply sublist_NoDup; [exact Hnd|]. apply removeEntries_filenames.
    + intros name Hname Hin. unfold filenames in Hin. apply in_map_iff in Hin as (e & <- & He).
      apply removeEntries_In in He as [_ He]. by apply He.
  - intros name updates Hkeep. by rewrite updateEntry_same_names.
Qed.

Lemma index_filenames_stay_unique_witness :
  NoDup (filenames (addEntry (removeEntries
                                [mkEntry (str "a.png") (str "character") [];
                                 mkEntry (str "b.json") (str "world") []]
                                [str "a.png"])
                             (mkEntry (str "b.json") (str "theme") []))).
Proof.
  destruct (index_filenames_stay_unique
              [mkEntry (str "a.png") (str "character") [];
               mkEntry (str "b.json") (str "world") []]) as (_ & Hremove & _).
  - repeat constructor; rewrite ?list_elem_of_In; simpl; intuition discriminate.
  - destruct (Hremove [str "a.png"]) as [Hnd _].
    destruct (index_filenames_stay_unique _ Hnd) as (Hadd & _ & _).
    apply Hadd.
Defined.

Section WithJSON.

Variable JSON_parse : jsstring -> Res JsVal.
Variable JSON_stringify : JsVal -> jsstring.
Context {P : PathOps}.

Lemma readIndex_run indexPath fs now tr raw :
  file_at fs indexPath = Some raw ->
  readIndex JSON_parse indexPath (mkWorld fs now tr)
  = (Ok (match JSON_parse raw with
         | Ok parsed => if isArray parsed then parsed else arr []
         | Raise _ => arr []
         end),
     mkWorld fs now (tr ++ [SysExists indexPath; SysReadFile indexPath])).
Proof.
  intros Hraw. unfold readIndex.
  rewrite (mbind_ok _ _ _ _ _ (existsSync_run indexPath fs now tr)). cbn beta iota.
  rewrite (file_at_exists _ _ _ Hraw). cbn [negb]. unfold try_catch.
  rewrite (mbind_ok _ _ _ _ _ (readFileSync_run indexPath fs now _ raw Hraw)).
  cbn beta iota. unfold lift, mbind, ret. rewrite <- app_assoc. cbn [app].
  by destruct (JSON_parse raw).
Qed.

End WithJSON.


(** A scaffold directory, and an index of one record with the text
    [JSON.stringify] prints for it. *)
Definition scaffold_dir : World :=
  mkWorld (<[str "/scaffold" := Dir]> (<[str "/scaffold/index.json/.." := Dir]> ∅))
          (str "2025-01-15T14:30:22.123Z") [].

Definition one_record : JsVal :=
  arr [JObj [(str "filename", JStr (str "a.png")); (str "type", JStr (str "character"))]].

Definition one_record_text : jsstring :=
  JSON.text "[{'filename':'a.png','type':'character'}]".


End IndexFacts.

(* ===================================================================== *)
(** * The scaffold editor: src/modules/scaffold-editor.js                 *)
(* ===================================================================== *)

Module ScaffoldEditor.

Import Fs StPaths ContentIndex FsFacts IndexFacts.
Local Open Scope io_scope.

(** The [updates] object of [editExistingEntry]: each of the two fields is
    set only when the answer differs from the record's. *)
Record Updates : Type := mkUpdates {
  new_filename : option jsstring;
  new_type : option jsstring
}.

(** [{ ...e, ...updates }] *)
Definition spread (updates : Updates) (e : Entry) : Entry :=
  mkEntry (default (filename e) (new_filename updates))
          (default (type e) (new_type updates))
          (extra e).

(** [index.find(e => e.filename === targetFilename)] *)
Definition find_entry (index : list Entry) (targetFilename : jsstring) : option Entry :=
  List.find (fun e => jsstring_eqb (filename e) targetFilename) index.

Section WithPrompts.

Context {P : PathOps}.

(** [JSON.stringify] on the array of the records of a collection and on
    the [updates] object. *)
Variable JSON_stringify : JsVal -> jsstring.
Variable records : list Entry -> JsVal.
Variable updates_text : Updates -> jsstring.

(** [editExistingEntry(config, indexPath, index)] with the answers to its
    three prompts; [None] is the symbol of a cancelled prompt.  Reading
    [entry.filename] throws when no record was found.  What [log] of
    [@clack/prompts] prints is not part of the model. *)
Definition editExistingEntry (config : Config) (indexPath : jsstring) (index : list Entry)
    (targetFilename newFilename newType : option jsstring) : M (list Entry) :=
  match index, targetFilename with
  | [], _ => ret index
  | _, None => ret index
  | _, Some targetFilename =>
      match find_entry index targetFilename with
      | None => throw (TypeError "Cannot read properties of undefined")
      | Some entry =>
          match newFilename, newType with
          | None, _ => ret index
          | _, None => ret index
          | Some newFilename, Some newType =>
              let updates :=
                mkUpdates
                  (if jsstring_eqb (JsonMerge.trim newFilename) (filename entry) then None
                   else Some (JsonMerge.trim newFilename))
                  (if jsstring_eqb newType (type entry) then None else Some newType) in
              match new_filename updates, new_type updates with
              | None, None => ret index
              | _, _ =>
                  let updated := updateEntry index targetFilename (spread updates) in
                  do* (if dryRun config then
                         info (str "[DRY RUN] Would update entry: " ++ updates_text updates)
                       else writeIndex JSON_stringify indexPath (records updated)) in
                  ret updated
              end
          end
      end
  end.

End WithPrompts.

(** The filenames after the records named [target] were renamed. *)
Definition renamed (target new : jsstring) (names : list jsstring) : list jsstring :=
  List.map (fun f => if jsstring_eqb f target then new else f) names.

Lemma find_entry_Some (index : list Entry) (target : jsstring) :
  In target (filenames index) ->
  exists entry, find_entry index target = Some entry /\ filename entry = target.
Proof.
  intros Hin. unfold find_entry.
  destruct (List.find _ index) as [entry|] eqn:E.
  - apply List.find_some in E as [_ E]. apply jsstring_eqb_eq in E. by exists entry.
  - unfold filenames in Hin. apply in_map_iff in Hin as (e & <- & He).
    apply (List.find_none _ _ E) in He. by rewrite jsstring_eqb_refl in He.
Qed.

Lemma updateEntry_filenames (index : list Entry) (target : jsstring) (updates : Updates) :
  filenames (updateEntry index target (spread updates))
  = renamed target (default target (new_filename updates)) (filenames index).
Proof.
  unfold filenames, renamed, updateEntry. rewrite !List.map_map.
  apply List.map_ext. intros e.
  destruct (jsstring_eqb (filename e) target) eqn:E; [|done].
  apply jsstring_eqb_eq in E. cbn [spread filename]. rewrite E.
  by destruct (new_filename updates).
Qed.

Lemma renamed_same (target : jsstring) (names : list jsstring) :
  renamed target target names = names.
Proof.
  unfold renamed. rewrite <- (List.map_id names) at 2. apply List.map_ext. intros f.
  destruct (jsstring_eqb f target) eqn:E; [|done]. by apply jsstring_eqb_eq in E.
Qed.

Lemma renamed_NoDup (target new : jsstring) (names : list jsstring) :
  NoDup names -> ~ In new names -> NoDup (renamed target new names).
Proof.
  intros Hnd Hnew. unfold renamed.
  induction Hnd as [|f names Hf Hnd IH]; [constructor|].
  cbn [List.map]. constructor.
  - rewrite list_elem_of_In, in_map_iff. intros (g & Hg & Hin).
    destruct (jsstring_eqb f target) eqn:Ef; destruct (jsstring_eqb g target) eqn:Eg.
    + apply jsstring_eqb_eq in Ef, Eg. subst. by apply Hf, list_elem_of_In.
    + subst g. apply Hnew. by right.
    + subst f. apply Hnew. by left.
    + subst g. by apply Hf, list_elem_of_In.
  - apply IH. intros Hin. apply Hnew. by right.
Qed.

(** A renaming onto the filename of another record makes a duplicate. *)
Lemma renamed_clash (target new : jsstring) (names : list jsstring) :
  In target names -> In new names -> new <> target ->
  ~ NoDup (renamed target new names).
Proof.
  intros Hin Hused Hne Hnd.
  apply list_elem_of_In, list_elem_of_lookup in Hin as (i & Hi).
  apply list_elem_of_In, list_elem_of_lookup in Hused as (j & Hj).
  assert (Hij : i <> j).
  { intros ->. rewrite Hi in Hj. injection Hj as Heq. by apply Hne. }
  apply Hij. eapply NoDup_lookup; [exact Hnd| |].
  - unfold renamed. rewrite list_lookup_fmap, Hi. cbn. by rewrite jsstring_eqb_refl.
  - unfold renamed. rewrite list_lookup_fmap, Hj. cbn. by rewrite jsstring_eqb_neq.
Qed.

(** What the edit does once the three prompts are answered. *)
Lemma editExistingEntry_answered {P : PathOps} JSON_stringify records updates_text
    config indexPath index target newFilename newType :
  In target (filenames index) ->
  exists updated,
    filenames updated = renamed target (JsonMerge.trim newFilename) (filenames index)
    /\ length updated = length index
    /\ (editExistingEntry JSON_stringify records updates_text config indexPath index
          (Some target) (Some newFilename) (Some newType) = ret index
        /\ updated = index
        \/ exists updates,
             editExistingEntry JSON_stringify records updates_text config indexPath index
               (Some target) (Some newFilename) (Some newType)
             = (do* (if dryRun config then
                       info (str "[DRY RUN] Would update entry: " ++ updates_text updates)
                     else writeIndex JSON_stringify indexPath (records updated)) in
                ret updated)).
Proof.
  intros Hin. destruct (find_entry_Some index target Hin) as (entry & Hfind & Hname).
  unfold editExistingEntry. destruct index as [|e0 index0] eqn:Hindex; [done|].
  rewrite <- Hindex in *. rewrite Hfind, Hname. cbn [new_filename new_type].
  destruct (jsstring_eqb (JsonMerge.trim newFilename) target) eqn:Enew.
  - apply jsstring_eqb_eq in Enew. rewrite Enew, renamed_same.
    destruct (jsstring_eqb newType (type entry)).
    + exists index. split; [done|]. split; [done|]. by left.
    + eexists. split; [|split; [|right; eexists; reflexivity]].
      * by rewrite updateEntry_filenames, renamed_same.
      * apply length_map.
  - eexists. split; [|split; [|right; eexists; reflexivity]].
    + by rewrite updateEntry_filenames.
    + apply length_map.
Qed.

(** X18. Editing a record of a collection with unique filenames, the
    three prompts answered.  The edit gives a collection of the same length
    whose filenames are the old ones with the target replaced by the trimmed
    new filename: they stay unique when the new filename is the old one or
    is not in use, and when it is the filename of another record the result
    has two records of that filename.  A dry run returns that collection and
    changes no file; a real run that returns has returned it and, if the
    collection changed, has written it to the index file. *)
Theorem editExistingEntry_renames :
  forall (P : PathOps) (JSON_stringify : JsVal -> jsstring) (records : list Entry -> JsVal)
         (updates_text : Updates -> jsstring) (config : Config) (indexPath : jsstring)
         (index : list Entry) (targetFilename newFilename newType : jsstring) (w : World),
    NoDup (filenames index) ->
    In targetFilename (filenames index) ->
    let new := JsonMerge.trim newFilename in
    let run :=
      editExistingEntry JSON_stringify records updates_text config indexPath index
        (Some targetFilename) (Some newFilename) (Some newType) w in
    exists updated,
      length updated = length index
      /\ filenames updated = renamed targetFilename new (filenames index)
      /\ (new = targetFilename \/ ~ In new (filenames index) -> NoDup (filenames updated))
      /\ (new <> targetFilename -> In new (filenames index) -> ~ NoDup (filenames updated))
      /\ (dryRun config = true -> fst run = Ok updated /\ files (snd run) = files w)
      /\ (dryRun config = false ->
          forall r w',
            run = (Ok r, w') ->
            r = updated
            /\ (updated <> index ->
                file_at (files w') indexPath
                = Some (JSON_stringify (records updated) ++ str (String "010" "")))).
Proof.
  intros P JSON_stringify records updates_text config indexPath index target newFilename
    newType w Hnd Hin new run.
  destruct (editExistingEntry_answered JSON_stringify records updates_text config indexPath
              index target newFilename newType Hin)
    as (updated & Hnames & Hlen & Hrun).
  fold new in Hnames. exists updated.
  split; [done|]. split; [done|]. rewrite Hnames. split; [|split; [|split]].
  - intros [-> | Hfree]; [by rewrite renamed_same|by apply renamed_NoDup].
  - intros Hne Hused. by apply renamed_clash.
  - intros Hdry. subst run. destruct Hrun as [[-> ->]|[updates ->]]; [done|].
    rewrite Hdry. destruct w as [fs now tr]. by cbn.
  - intros Hreal r w' Hr. subst run. destruct Hrun as [[Hrun ->]|[updates Hrun]].
    + rewrite Hrun in Hr. apply ret_inv in Hr as [<- _]. by split.
    + rewrite Hrun, Hreal in Hr. apply mbind_inv in Hr as ([] & w1 & Hwrite & Hr).
      apply ret_inv in Hr as [<- <-]. split; [done|]. intros _.
      unfold writeIndex in Hwrite. apply mbind_inv in Hwrite as ([] & w0 & _ & Hwrite).
      by apply writeFileSync_reads in Hwrite.
Qed.

(** Renaming [a.png] to the name of the other record, in a dry run. *)
Lemma editExistingEntry_renames_witness :
  exists updated,
    fst (editExistingEntry (P := text_paths) (fun _ => []) (fun _ => arr []) (fun _ => [])
           DryRun.dry_config (str "/scaffold/index.json")
           [mkEntry (str "a.png") (str "character") [];
            mkEntry (str "b.json") (str "world") []]
           (Some (str "a.png")) (Some (str " b.json ")) (Some (str "character"))
           (mkWorld ∅ [] []))
    = Ok updated
    /\ filenames updated = [str "b.json"; str "b.json"].
Proof.
  destruct (editExistingEntry_renames text_paths (fun _ => []) (fun _ => arr [])
              (fun _ => []) DryRun.dry_config (str "/scaffold/index.json")
              [mkEntry (str "a.png") (str "character") [];
               mkEntry (str "b.json") (str "world") []]
              (str "a.png") (str " b.json ") (str "character") (mkWorld ∅ [] []))
    as (updated & _ & Hnames & _ & _ & Hdry & _).
  - repeat constructor; rewrite ?list_elem_of_In; simpl; intuition discriminate.
  - by left.
  - exists updated. split; [by apply Hdry|]. rewrite Hnames. by vm_compute.
Defined.

End ScaffoldEditor.

(* ===================================================================== *)
(** * The scaffold push: src/modules/push-characters.js                   *)
(* ===================================================================== *)

Module ScaffoldPush.

Import Fs StPaths ContentIndex FsFacts RealRun IndexFacts.
Local Open Scope io_scope.

(** [es.some(e => e.filename === name)] for a string [name]; reading a
    property of [null] or [undefined] throws. *)
Fixpoint some_filename (es : list JsVal) (name : jsstring) : Res bool :=
  match es with
  | [] => Ok false
  | e :: es' =>
      bind (member e (str "filename")) (fun f =>
        match f with
        | JStr s => if jsstring_eqb s name then Ok true else some_filename es' name
        | _ => some_filename es' name
        end)
  end.

(** [addEntry(index, entry)] of content-index.js on the value [readIndex]
    returns, for an [entry] whose [filename] is the string [name]. *)
Definition addEntry_value (index : JsVal) (name : jsstring) (entry : JsVal) : Res JsVal :=
  match index with
  | JUndefined | JNull => Raise (TypeError "Cannot read properties of null or undefined")
  | JArr es ex =>
      match assoc (str "some") ex with
      | Some _ => Raise (TypeError "index.some is not a function")
      | None =>
          bind (some_filename es name) (fun found =>
          Ok (if found then index else arr (es ++ [entry])))
      end
  | _ => Raise (TypeError "index.some is not a function")
  end.

(** [{ filename, type: 'character' }] *)
Definition newEntry (filename : jsstring) : JsVal :=
  JObj [(str "filename", JStr filename); (str "type", JStr (str "character"))].

Section WithJSON.

Context {P : PathOps}.

Variable JSON_parse : jsstring -> Res JsVal.
Variable JSON_stringify : JsVal -> jsstring.

(** The first part of [scaffoldPush(config)], the two prompts answered with
    [sourcePath] and [target]: the card is copied into the scaffold or the
    content directory and listed in the index there.  (The second part
    pushes the card to the users with the unit operation of
    [immediatePush].) *)
Definition register (config : Config) (sourcePath target : jsstring) : M unit :=
  let filename := basename sourcePath in
  let targetDir :=
    if jsstring_eqb target (str "scaffold") then scaffoldDir config else contentDir config in
  let indexPath := join [targetDir; str "index.json"] in
  if dryRun config then
    do* info (str "[DRY RUN] Would copy " ++ sourcePath ++ str " -> "
              ++ join [targetDir; filename]) in
    info (str "[DRY RUN] Would add entry to " ++ indexPath)
  else
    do* mkdirSync targetDir in
    do* copyFileSync sourcePath (join [targetDir; filename]) in
    let* index := readIndex JSON_parse indexPath in
    let* updated := lift (addEntry_value index filename (newEntry filename)) in
    writeIndex JSON_stringify indexPath updated.

End WithJSON.

(** ** Calls that returned, taken apart *)

Lemma mkdirSync_inv p w w' :
  mkdirSync p w = (Ok tt, w') ->
  w' = mkWorld (with_dir (files w) p) (isoNow w) (syscalls w ++ [SysMkdir p]).
Proof.
  destruct w as [fs now tr].
  unfold mkdirSync, with_dir, mbind, emit, get_files, set_files, ret, throw. io_simpl.
  destruct (follow MAXSYMLINKS fs p) as [[d [c| |t]]|] eqn:Hd; try done.
  - destruct (follow_is_Some _ _ _ _ Hd) as [x ->]. by intros [= <-].
  - destruct (fs !! p); [done|]. by intros [= <-].
Qed.

Section WithPaths.

Context {P : PathOps}.

Lemma copyFileSync_inv src dst w w' :
  copyFileSync src dst w = (Ok tt, w') ->
  exists data fs',
    file_at (files w) src = Some data
    /\ write_through (files w) dst data = Some fs'
    /\ w' = mkWorld fs' (isoNow w) (syscalls w ++ [SysCopyFile src dst]).
Proof.
  destruct w as [fs now tr].
  unfold copyFileSync, mbind, emit, get_files, set_files, throw. io_simpl.
  destruct (follow MAXSYMLINKS fs src) as [[q [data| |t]]|] eqn:Hq; try done.
  destruct (write_through fs dst data) as [fs'|] eqn:Hw; [|done].
  intros [= <-]. exists data, fs'. split; [|by split].
  apply file_at_follow. by exists q.
Qed.

Lemma writeFileSync_inv p data w w' :
  writeFileSync p data w = (Ok tt, w') ->
  exists fs',
    write_through (files w) p data = Some fs'
    /\ w' = mkWorld fs' (isoNow w) (syscalls w ++ [SysWriteFile p data]).
Proof.
  destruct w as [fs now tr].
  unfold writeFileSync, mbind, emit, get_files, set_files, throw. io_simpl.
  destruct (write_through fs p data) as [fs'|] eqn:Hw; [|done].
  intros [= <-]. by exists fs'.
Qed.

(** A file that another path leads to is left alone by a write. *)
Lemma write_through_other fs dst data fs' p q c :
  write_through fs dst data = Some fs' ->
  follow MAXSYMLINKS fs p = Some (q, File c) ->
  follow MAXSYMLINKS fs dst <> follow MAXSYMLINKS fs p ->
  follow MAXSYMLINKS fs' p = Some (q, File c)
  /\ exists q', follow MAXSYMLINKS fs' dst = Some (q', File data) /\ q' <> q.
Proof.
  intros Hw Hp Hne. pose proof (follow_lookup _ _ _ _ _ Hp) as [Hq _].
  pose proof (write_through_reads _ _ _ _ Hw) as Hread.
  apply file_at_follow in Hread as (q' & Hq'). revert Hw Hq'. unfold write_through.
  destruct (fs !! dst) as [x|] eqn:Hdst.
  - destruct (follow MAXSYMLINKS fs dst) as [[d [c'| |t]]|] eqn:Hd; try done.
    intros [= <-] Hq'. pose proof (follow_lookup _ _ _ _ _ Hd) as [Hd' _].
    assert (Hdq : q <> d).
    { intros ->. apply Hne. rewrite Hp. unfold jsstring in *. congruence. }
    split; [by eapply follow_overwrite_other|].
    exists q'. split; [done|]. intros ->.
    rewrite (follow_overwrite _ _ _ _ _ data Hd) in Hq'. by injection Hq' as ->.
  - destruct (parent_is_dir fs dst); [|done]. intros [= <-] Hq'.
    split; [by apply follow_insert_fresh|].
    exists q'. split; [done|]. intros ->.
    rewrite (follow_direct _ _ dst (File data)) in Hq';
      [|by rewrite lookup_insert_eq|done].
    injection Hq' as ->. unfold jsstring in *. congruence.
Qed.

End WithPaths.

(** A path that leads to a file once a directory was made led there
    before. *)
Lemma follow_insert_dir_file fuel : forall fs (k p q : jsstring) c,
  fs !! k = None ->
  follow fuel (<[k := Dir]> fs) p = Some (q, File c) ->
  follow fuel fs p = Some (q, File c).
Proof.
  induction fuel as [|fuel IH]; intros fs k p q c Hk; simpl.
  - destruct (decide (p = k)) as [->|Hne].
    + by rewrite lookup_insert_eq.
    + rewrite lookup_insert_ne by done. by destruct (fs !! p) as [[| |]|].
  - destruct (decide (p = k)) as [->|Hne].
    + by rewrite lookup_insert_eq.
    + rewrite lookup_insert_ne by done. destruct (fs !! p) as [[| |t]|]; try done.
      by apply IH.
Qed.

Lemma with_dir_file fs (k p q : jsstring) c :
  follow MAXSYMLINKS (with_dir fs k) p = Some (q, File c) ->
  follow MAXSYMLINKS fs p = Some (q, File c).
Proof.
  unfold with_dir. destruct (fs !! k) eqn:Hk; [done|]. by apply follow_insert_dir_file.
Qed.

(** The value the index is read as: [[]] for a text that does not parse
    or is no array. *)
Definition read_as (JSON_parse : jsstring -> Res JsVal) (raw : jsstring) : JsVal :=
  match JSON_parse raw with
  | Ok parsed => if isArray parsed then parsed else arr []
  | Raise _ => arr []
  end.

(** X25. A real run of the scaffold push that did not throw, on a
    scaffold (or content) directory that has an index file: the card then
    holds the text of the source, and the index file holds the
    serialisation of the index that was read, with the record
    [{ filename, type: 'character' }] appended unless a record of that
    filename was listed already.  An index whose text does not parse, or is
    no array, is read as empty, so the file then lists the new record only.
    The run makes six calls; none of them copies the old index file. *)
Theorem register_rewrites_index :
  forall (P : PathOps) (JSON_parse : jsstring -> Res JsVal)
         (JSON_stringify : JsVal -> jsstring) (config : Config)
         (sourcePath target : jsstring) (w w' : World) (raw : jsstring),
    let filename := basename sourcePath in
    let targetDir :=
      if jsstring_eqb target (str "scaffold") then scaffoldDir config
      else contentDir config in
    let indexPath := join [targetDir; str "index.json"] in
    let card := join [targetDir; filename] in
    let index := read_as JSON_parse raw in
    dryRun config = false ->
    file_at (files w) indexPath = Some raw ->
    follow MAXSYMLINKS (files w) card <> follow MAXSYMLINKS (files w) indexPath ->
    register JSON_parse JSON_stringify config sourcePath target w = (Ok tt, w') ->
    exists data updated,
      file_at (files w) sourcePath = Some data
      /\ addEntry_value index filename (newEntry filename) = Ok updated
      /\ file_at (files w') card = Some data
      /\ file_at (files w') indexPath
         = Some (JSON_stringify updated ++ str (String "010" ""))
      /\ syscalls w'
         = syscalls w
           ++ [SysMkdir targetDir; SysCopyFile sourcePath card;
               SysExists indexPath; SysReadFile indexPath;
               SysMkdir (dirname indexPath);
               SysWriteFile indexPath (JSON_stringify updated ++ str (String "010" ""))]
      /\ (forall es ex, index = JArr es ex ->
            (some_filename es filename = Ok true -> updated = index)
            /\ (some_filename es filename = Ok false ->
                updated = arr (es ++ [newEntry filename])))
      /\ ((forall parsed, JSON_parse raw = Ok parsed -> isArray parsed = false) ->
          updated = arr [newEntry filename]).
Proof.
  intros P JSON_parse JSON_stringify config sourcePath target [fs now tr] w' raw
    filename targetDir indexPath card index Hreal Hindex Hdistinct Hrun.
  cbn [files syscalls] in *.
  unfold register in Hrun. rewrite Hreal in Hrun.
  fold filename targetDir indexPath card in Hrun.
  (* the directory and the card *)
  apply mbind_inv in Hrun as ([] & w1 & Hmk & Hrun).
  apply mkdirSync_inv in Hmk. cbn [files isoNow syscalls] in Hmk. subst w1.
  apply mbind_inv in Hrun as ([] & w2 & Hcopy & Hrun).
  apply copyFileSync_inv in Hcopy as (data & fs2 & Hsrc & Hcard & ->).
  cbn [files isoNow syscalls] in *.
  apply file_at_follow in Hindex as (q & Hq).
  pose proof (with_dir_follow _ _ _ targetDir _ Hq) as Hq1.
  assert (Hne1 : follow MAXSYMLINKS (with_dir fs targetDir) card
                 <> follow MAXSYMLINKS (with_dir fs targetDir) indexPath).
  { rewrite Hq1. intros Heq. apply with_dir_file in Heq. apply Hdistinct.
    by rewrite Heq, Hq. }
  destruct (write_through_other _ _ _ _ _ _ _ Hcard Hq1 Hne1) as (Hq2 & qc & Hqc & Hqcq).
  (* the index is read *)
  assert (Hraw2 : file_at fs2 indexPath = Some raw) by (apply file_at_follow; by exists q).
  rewrite (mbind_ok _ _ _ _ _ (readIndex_run JSON_parse indexPath fs2 now _ raw Hraw2)) in Hrun.
  cbn beta iota in Hrun. fold (read_as JSON_parse raw) in Hrun. fold index in Hrun.
  apply mbind_inv in Hrun as (updated & w3 & Hadd & Hrun).
  unfold lift in Hadd. injection Hadd as Hadd <-.
  (* and written *)
  unfold writeIndex in Hrun. apply mbind_inv in Hrun as ([] & w4 & Hmk & Hrun).
  apply mkdirSync_inv in Hmk. cbn [files isoNow syscalls] in Hmk. subst w4.
  apply writeFileSync_inv in Hrun as (fs4 & Hwrite & ->). cbn [files isoNow syscalls] in *.
  pose proof (with_dir_follow _ _ _ (dirname indexPath) _ Hq2) as Hq3.
  pose proof (with_dir_follow _ _ _ (dirname indexPath) _ Hqc) as Hqc3.
  assert (Hne3 : follow MAXSYMLINKS (with_dir fs2 (dirname indexPath)) indexPath
                 <> follow MAXSYMLINKS (with_dir fs2 (dirname indexPath)) card).
  { rewrite Hq3, Hqc3. intros [= Heq _]. by apply Hqcq. }
  destruct (write_through_other _ _ _ _ _ _ _ Hwrite Hqc3 Hne3) as (Hcard4 & _).
  exists data, updated.
  split.
  { apply file_at_follow in Hsrc as (qs & Hqs). apply file_at_follow. exists qs.
    by apply with_dir_file in Hqs. }
  split; [done|].
  split; [apply file_at_follow; by exists qc|].
  split; [by eapply write_through_reads|].
  split; [by rewrite <- !app_assoc|].
  split.
  - intros es ex Hes. rewrite Hes in Hadd. cbn [addEntry_value] in Hadd.
    destruct (assoc (str "some") ex); [done|].
    split; intros Hsome; rewrite Hsome in Hadd; cbn [bind] in Hadd; congruence.
  - intros Hbad. assert (Hempty : index = arr []).
    { unfold index, read_as. destruct (JSON_parse raw) as [parsed|e] eqn:Hp; [|done].
      by rewrite (Hbad parsed eq_refl). }
    rewrite Hempty in Hadd. by injection Hadd as <-.
Qed.

(** A scaffold whose index file was cut short, and a card to add. *)
Definition scaffold_cut_short : World :=
  mkWorld
    (<[str "/cards/New.png" := File (str "new card")]>
       (<[str "/data/default/scaffold" := Dir]>
          (<[str "/data/default/scaffold/New.png/.." := Dir]>
             (<[str "/data/default/scaffold/index.json"
                := File (JSON.text "[{'filename':'Old.png','type':'chara")]> ∅))))
    (str "2025-01-15T14:30:22.123Z") [].

Definition new_record_text : jsstring :=
  JSON.text "[{'filename':'New.png','type':'character'}]".

Lemma register_rewrites_index_witness :
  exists w',
    register (P := text_paths) JSON.parse (printed new_record_text) real_config
      (str "/cards/New.png") (str "scaffold") scaffold_cut_short = (Ok tt, w')
    /\ file_at (files w') (str "/data/default/scaffold/New.png") = Some (str "new card")
    /\ file_at (files w') (str "/data/default/scaffold/index.json")
       = Some (new_record_text ++ str (String "010" "")).
Proof.
  assert (Hrun : register (P := text_paths) JSON.parse (printed new_record_text) real_config
                   (str "/cards/New.png") (str "scaffold") scaffold_cut_short
                 = (Ok tt,
                    snd (register (P := text_paths) JSON.parse (printed new_record_text)
                           real_config (str "/cards/New.png") (str "scaffold")
                           scaffold_cut_short))).
  { vm_compute. reflexivity. }
  destruct (register_rewrites_index text_paths JSON.parse (printed new_record_text)
              real_config (str "/cards/New.png") (str "scaffold") scaffold_cut_short
              (snd (register (P := text_paths) JSON.parse (printed new_record_text)
                      real_config (str "/cards/New.png") (str "scaffold")
                      scaffold_cut_short))
              (JSON.text "[{'filename':'Old.png','type':'chara") eq_refl)
    as (data & updated & Hsrc & _ & Hcard & Hindex & _); [| |exact Hrun|].
  - vm_compute. reflexivity.
  - vm_compute. discriminate.
  - vm_compute in Hsrc. injection Hsrc as <-.
    eexists. split; [exact Hrun|]. split; [exact Hcard|exact Hindex].
Defined.

End ScaffoldPush.

(* ===================================================================== *)
(** * The timestamp of the Snapshot Store                                 *)
(* ===================================================================== *)

Module TimestampFacts.

Import Fs Backup.

(** [YYYY-MM-DDThh:mm:ss.sssZ], what [toISOString] prints for the years
    0000 to 9999. *)
Definition iso_text (Y M D h m s ms : jsstring) : jsstring :=
  Y ++ str "-" ++ M ++ str "-" ++ D ++ str "T" ++ h ++ str ":" ++ m ++ str ":" ++ s
    ++ str "." ++ ms ++ str "Z".

(** [n] decimal digits. *)
Definition digits (n : nat) (s : jsstring) : Prop :=
  length s = n /\ Forall (fun c => is_digit c = true) s.

(** Neither a colon nor a dot. *)
Definition plain (c : N) : bool := negb (N.eqb c 58 || N.eqb c 46).

Lemma dash_colons_dots_app (a b : jsstring) :
  dash_colons_dots (a ++ b) = dash_colons_dots a ++ dash_colons_dots b.
Proof. apply map_app. Qed.

Lemma digit_codes (c : N) :
  is_digit c = true -> N.eqb c 58 = false /\ N.eqb c 46 = false /\ N.eqb c 84 = false.
Proof.
  unfold is_digit. rewrite andb_true_iff, !N.leb_le. intros [H1 H2].
  repeat split; apply N.eqb_neq; lia.
Qed.

Lemma dash_colons_dots_digits (s : jsstring) :
  Forall (fun c => is_digit c = true) s -> dash_colons_dots s = s.
Proof.
  induction 1 as [|c s Hc Hs IH]; [done|]. cbn [dash_colons_dots List.map].
  destruct (digit_codes c Hc) as (-> & -> & _). cbn [orb]. f_equal. exact IH.
Qed.

Lemma dash_first_T_digits (s rest : jsstring) :
  Forall (fun c => is_digit c = true) s -> dash_first_T (s ++ rest) = s ++ dash_first_T rest.
Proof.
  induction 1 as [|c s Hc Hs IH]; [done|]. cbn [app dash_first_T].
  destruct (digit_codes c Hc) as (_ & _ & ->). by rewrite IH.
Qed.

Lemma dash_first_T_dash (rest : jsstring) :
  dash_first_T (str "-" ++ rest) = str "-" ++ dash_first_T rest.
Proof. reflexivity. Qed.

Lemma dash_first_T_T (rest : jsstring) : dash_first_T (str "T" ++ rest) = str "-" ++ rest.
Proof. reflexivity. Qed.

Lemma dash_colons_dots_plain (s : jsstring) : forallb plain (dash_colons_dots s) = true.
Proof.
  induction s as [|c s IH]; [done|]. cbn [dash_colons_dots List.map forallb].
  fold (dash_colons_dots s). rewrite IH, andb_true_r. unfold plain.
  destruct (N.eqb c 58 || N.eqb c 46) eqn:E; [done|]. by rewrite E.
Qed.

Lemma dash_first_T_plain (s : jsstring) :
  forallb plain s = true -> forallb plain (dash_first_T s) = true.
Proof.
  induction s as [|c s IH]; [done|]. cbn [dash_first_T forallb].
  rewrite andb_true_iff. intros [Hc Hs].
  destruct (N.eqb c 84); cbn [forallb]; [done|]. by rewrite Hc, IH.
Qed.

Lemma forallb_take {A} (f : A -> bool) (n : nat) (l : list A) :
  forallb f l = true -> forallb f (firstn n l) = true.
Proof.
  revert n. induction l as [|x l IH]; intros [|n]; try done. cbn [firstn forallb].
  rewrite !andb_true_iff. intros [Hx Hl]. split; [done|]. by apply IH.
Qed.

(** X16. The timestamp is safe in a file name: whatever the clock prints,
    it has at most 19 code units and neither a colon nor a dot.  For a date
    [YYYY-MM-DDThh:mm:ss.sssZ] it is [YYYY-MM-DD-hh-mm-ss], the date and the
    time with a dash between all fields. *)
Theorem timestamp_is_filename_safe :
  forall (w : World),
    (exists ts,
        timestamp w = (Ok ts, w)
        /\ length ts <= 19
        /\ forallb plain ts = true)
    /\ (forall Y M D h m s ms,
          digits 4 Y -> digits 2 M -> digits 2 D ->
          digits 2 h -> digits 2 m -> digits 2 s ->
          isoNow w = iso_text Y M D h m s ms ->
          timestamp w
          = (Ok (Y ++ str "-" ++ M ++ str "-" ++ D ++ str "-" ++ h ++ str "-" ++ m
                 ++ str "-" ++ s), w)).
Proof.
  intros w. split.
  - eexists. split; [reflexivity|]. split.
    + rewrite length_take. lia.
    + apply forallb_take, dash_first_T_plain, dash_colons_dots_plain.
  - intros Y M D h m s ms [HY1 HY2] [HM1 HM2] [HD1 HD2] [Hh1 Hh2] [Hm1 Hm2] [Hs1 Hs2] Hnow.
    unfold timestamp. rewrite Hnow. f_equal. f_equal. unfold iso_text.
    rewrite !dash_colons_dots_app.
    rewrite (dash_colons_dots_digits Y), (dash_colons_dots_digits M),
      (dash_colons_dots_digits D), (dash_colons_dots_digits h),
      (dash_colons_dots_digits m), (dash_colons_dots_digits s) by done.
    change (dash_colons_dots (str "-")) with (str "-").
    change (dash_colons_dots (str "T")) with (str "T").
    change (dash_colons_dots (str ":")) with (str "-").
    change (dash_colons_dots (str ".")) with (str "-").
    rewrite (dash_first_T_digits Y), dash_first_T_dash, (dash_first_T_digits M),
      dash_first_T_dash, (dash_first_T_digits D), dash_first_T_T by done.
    set (rest := dash_colons_dots ms ++ _).
    replace (Y ++ str "-" ++ M ++ str "-" ++ D ++ str "-" ++ h ++ str "-" ++ m ++ str "-"
               ++ s ++ str "-" ++ rest)
      with ((Y ++ str "-" ++ M ++ str "-" ++ D ++ str "-" ++ h ++ str "-" ++ m ++ str "-" ++ s)
            ++ str "-" ++ rest)
      by (by rewrite <- !app_assoc).
    apply take_app_length'. rewrite !length_app, HY1, HM1, HD1, Hh1, Hm1, Hs1. reflexivity.
Qed.

Lemma timestamp_is_filename_safe_witness :
  timestamp (mkWorld ∅ (str "2025-01-15T14:30:22.123Z") [])
  = (Ok (str "2025-01-15-14-30-22"), mkWorld ∅ (str "2025-01-15T14:30:22.123Z") []).
Proof.
  destruct (timestamp_is_filename_safe (mkWorld ∅ (str "2025-01-15T14:30:22.123Z") []))
    as [_ Hformat].
  apply (Hformat (str "2025") (str "01") (str "15") (str "14") (str "30") (str "22")
           (str "123")); try (split; [reflexivity|repeat constructor]).
  reflexivity.
Defined.

End TimestampFacts.

(* ===================================================================== *)
(** * The Batch Executor on a batch in two parts                          *)
(* ===================================================================== *)

Module BatchFacts.

Import Batch.

Section Facts.

Context {W : Type}.
Implicit Types (op : @Operation W) (users : list jsstring) (w : W).

Lemma completions_app op users1 users2 w :
  completions op (users1 ++ users2) w
  = completions op users1 w ++ completions op users2 (final_world op users1 w).
Proof.
  revert w. induction users1 as [|h rest IH]; intros w; [done|].
  cbn [app completions final_world]. destruct (op h w) as [c w'] eqn:Hop.
  cbn [snd]. by rewrite IH.
Qed.

Lemma final_world_app op users1 users2 w :
  final_world op (users1 ++ users2) w = final_world op users2 (final_world op users1 w).
Proof.
  revert w. induction users1 as [|h rest IH]; intros w; [done|].
  cbn [app final_world]. by rewrite IH.
Qed.

Lemma zip_completions_app op users1 users2 w :
  zip (users1 ++ users2) (completions op (users1 ++ users2) w)
  = zip users1 (completions op users1 w)
    ++ zip users2 (completions op users2 (final_world op users1 w)).
Proof.
  rewrite completions_app. apply zip_with_app. by rewrite completions_length.
Qed.

End Facts.

(** X20. A batch can be run in two parts: running [batchOperation] on
    [users1] and then, in the world that run left, on [users2] gives reports
    whose three lists, joined in that order, are the lists of the report of
    one run on [users1 ++ users2], and both ways end in the same world. *)
Theorem batchOperation_in_two_parts :
  forall (W : Type) (op : @Operation W) (users1 users2 : list jsstring)
         (label : jsstring) (w : W),
    Forall throws_error (completions op (users1 ++ users2) w) ->
    exists r1 r2 r tr1 tr2 tr,
      batchOperation users1 op label w = (Ok r1, final_world op users1 w, tr1)
      /\ batchOperation users2 op label (final_world op users1 w)
         = (Ok r2, final_world op (users1 ++ users2) w, tr2)
      /\ batchOperation (users1 ++ users2) op label w
         = (Ok r, final_world op (users1 ++ users2) w, tr)
      /\ success r = success r1 ++ success r2
      /\ skipped r = skipped r1 ++ skipped r2
      /\ failed r = failed r1 ++ failed r2.
Proof.
  intros W op users1 users2 label w Hall.
  pose proof Hall as Hboth. rewrite completions_app in Hboth.
  apply Forall_app in Hboth as [H1 H2].
  destruct (batchOperation_spec op users1 label w H1) as (tr1 & Hrun1 & _).
  destruct (batchOperation_spec op users2 label _ H2) as (tr2 & Hrun2 & _).
  destruct (batchOperation_spec op (users1 ++ users2) label w Hall) as (tr & Hrun & _).
  eexists _, _, _, tr1, tr2, tr. split; [exact Hrun1|].
  split; [by rewrite final_world_app|]. split; [exact Hrun|].
  cbn [success skipped failed]. rewrite zip_completions_app.
  unfold successes, skips, failures. by rewrite !omap_app.
Qed.

Lemma batchOperation_in_two_parts_witness :
  exists r tr,
    batchOperation ([str "u1"; str "u2"] ++ [str "u3"]) second_fails (str "Delete") tt
    = (Ok r, tt, tr)
    /\ success r = [str "u1"] ++ [str "u3"]
    /\ failed r = [(str "u2", JStr (str "EACCES: permission denied"))] ++ [].
Proof.
  destruct (batchOperation_in_two_parts unit second_fails [str "u1"; str "u2"] [str "u3"]
              (str "Delete") tt)
    as (r1 & r2 & r & tr1 & tr2 & tr & Hrun1 & Hrun2 & Hrun & Hs & _ & Hf).
  - repeat constructor.
  - exists r, tr. split; [exact Hrun|].
    injection Hrun1 as <- _. injection Hrun2 as <- _. by split.
Defined.

End BatchFacts.

(* ===================================================================== *)
(** * User discovery: src/users.js                                        *)
(* ===================================================================== *)

Module Users.

Import Fs.
Local Open Scope io_scope.

(** [fs.Dirent], as far as the code reads it. *)
Record Dirent : Type := mkDirent {
  name : jsstring;
  isDirectory : bool
}.

(** [a < b] on strings: by code units, a proper prefix first. *)
Fixpoint str_ltb (a b : jsstring) : bool :=
  match a, b with
  | _, [] => false
  | [], _ :: _ => true
  | x :: a', y :: b' =>
      if N.ltb x y then true else if N.ltb y x then false else str_ltb a' b'
  end.

(** [a] does not sort after [b]. *)
Definition str_leb (a b : jsstring) : bool := negb (str_ltb b a).

(** [names.sort()]: the names in ascending order.  The order of equal
    strings cannot be told, so any sorting algorithm gives this list. *)
Fixpoint insert_sorted (x : jsstring) (l : list jsstring) : list jsstring :=
  match l with
  | [] => [x]
  | y :: l' => if str_leb x y then x :: l else y :: insert_sorted x l'
  end.

Definition sort (l : list jsstring) : list jsstring := fold_right insert_sorted [] l.

(** [f.endsWith(suffix)] *)
Fixpoint is_prefix (p s : jsstring) : bool :=
  match p, s with
  | [], _ => true
  | c :: p', d :: s' => N.eqb c d && is_prefix p' s'
  | _ :: _, [] => false
  end.

Definition endsWith (s suffix : jsstring) : bool := is_prefix (rev suffix) (rev s).

(** The four filters of [discoverUsers], in the order of the source. *)
Definition user_names (entries : list Dirent) (excludeDirs : list JsVal) : list jsstring :=
  List.filter (fun n => negb (JsonMerge.starts_with 46 n))
    (List.filter (fun n => negb (JsonMerge.starts_with 95 n))
       (List.filter (fun n => negb (BulkSettings.includes_string excludeDirs n))
          (List.map name (List.filter isDirectory entries)))).

(** What [getUserStats] returns. *)
Record UserStats : Type := mkStats {
  characterCount : nat;
  chatDirCount : nat;
  worldCount : nat;
  hasSettings : bool
}.

(** The count [getUserStats] keeps of a listing: [0] when reading threw. *)
Definition counted {A} (keep : A -> bool) (listing : Res (list A)) : nat :=
  match listing with
  | Ok l => length (List.filter keep l)
  | Raise _ => 0
  end.

Definition succeeded {A} (r : Res A) : bool :=
  match r with
  | Ok _ => true
  | Raise _ => false
  end.

Section WithReaddir.

Context {P : PathOps}.

(** [readdirSync(dir, { withFileTypes: true })], [readdirSync(dir)] and
    [statSync(path)] of the platform, and the text a template literal makes
    of a value. *)
Variable readdirSync_entries : jsstring -> M (list Dirent).
Variable readdirSync : jsstring -> M (list jsstring).
Variable statSync : jsstring -> M unit.
Variable ToString : JsVal -> jsstring.

(** [discoverUsers(dataRoot, excludeDirs)] *)
Definition discoverUsers (dataRoot : jsstring) (excludeDirs : list JsVal) : M (list jsstring) :=
  let* entries :=
    try_catch (readdirSync_entries dataRoot)
      (fun err =>
         let* message := ContentIndex.lift (member err (str "message")) in
         throw (Error (str "Cannot read data directory " ++ quoted dataRoot ++ str ": "
                       ++ ToString message))) in
  ret (sort (user_names entries excludeDirs)).

(** [getUserStats(dataRoot, handle)] *)
Definition getUserStats (dataRoot handle : jsstring) : M UserStats :=
  let userDir := join [dataRoot; handle] in
  let* characterCount :=
    try_catch
      (let* names := readdirSync (join [userDir; str "characters"]) in
       ret (length (List.filter (fun f => endsWith f (str ".png")) names)))
      (fun _ => ret 0) in
  let* chatDirCount :=
    try_catch
      (let* entries := readdirSync_entries (join [userDir; str "chats"]) in
       ret (length (List.filter isDirectory entries)))
      (fun _ => ret 0) in
  let* worldCount :=
    try_catch
      (let* names := readdirSync (join [userDir; str "worlds"]) in
       ret (length (List.filter (fun f => endsWith f (str ".json")) names)))
      (fun _ => ret 0) in
  let* hasSettings :=
    try_catch
      (do* statSync (join [userDir; str "settings.json"]) in ret true)
      (fun _ => ret false) in
  ret (mkStats characterCount chatDirCount worldCount hasSettings).

End WithReaddir.

(** ** Sorting *)

Definition str_le (a b : jsstring) : Prop := str_leb a b = true.

Lemma str_ltb_asym (a b : jsstring) : str_ltb a b = true -> str_ltb b a = false.
Proof.
  revert b. induction a as [|x a IH]; intros [|y b]; try done. cbn [str_ltb].
  destruct (N.ltb x y) eqn:Exy.
  - intros _. apply N.ltb_lt in Exy.
    destruct (N.ltb y x) eqn:Eyx; [apply N.ltb_lt in Eyx; lia|done].
  - destruct (N.ltb y x) eqn:Eyx; [done|]. apply IH.
Qed.

Lemma str_leb_total (a b : jsstring) : str_leb a b = false -> str_leb b a = true.
Proof.
  unfold str_leb. rewrite negb_false_iff, negb_true_iff. apply str_ltb_asym.
Qed.

Lemma insert_sorted_Permutation (x : jsstring) (l : list jsstring) :
  Permutation (insert_sorted x l) (x :: l).
Proof.
  induction l as [|y l IH]; [done|]. cbn [insert_sorted].
  destruct (str_leb x y); [done|]. rewrite IH. apply perm_swap.
Qed.

Lemma sort_Permutation (l : list jsstring) : Permutation (sort l) l.
Proof.
  induction l as [|x l IH]; [done|]. cbn [sort fold_right]. fold (sort l).
  rewrite insert_sorted_Permutation. by constructor.
Qed.

Lemma insert_sorted_Sorted (x : jsstring) (l : list jsstring) :
  Sorted str_le l -> Sorted str_le (insert_sorted x l).
Proof.
  induction 1 as [|y l Hl IH Hy]; [by repeat constructor|]. cbn [insert_sorted].
  destruct (str_leb x y) eqn:E.
  - constructor; [by constructor|]. by constructor.
  - constructor; [exact IH|]. apply str_leb_total in E.
    destruct l as [|z l]; cbn [insert_sorted]; [by constructor|].
    destruct (str_leb x z); constructor; [done|]. by inversion Hy.
Qed.

Lemma sort_Sorted (l : list jsstring) : Sorted str_le (sort l).
Proof.
  induction l as [|x l IH]; [constructor|]. cbn [sort fold_right].
  by apply insert_sorted_Sorted.
Qed.

Lemma user_names_In (entries : list Dirent) (excludeDirs : list JsVal) (h : jsstring) :
  In h (user_names entries excludeDirs)
  <-> (exists e, In e entries /\ name e = h /\ isDirectory e = true)
      /\ BulkSettings.includes_string excludeDirs h = false
      /\ JsonMerge.starts_with 95 h = false
      /\ JsonMerge.starts_with 46 h = false.
Proof.
  unfold user_names. rewrite !List.filter_In, !negb_true_iff, in_map_iff.
  split.
  - intros [[[(e & <- & He) H1] H2] H3]. apply List.filter_In in He as [He Hd].
    split; [by exists e|done].
  - intros ((e & He & <- & Hd) & H1 & H2 & H3). repeat split; try done.
    exists e. split; [done|]. by apply List.filter_In.
Qed.

(** X21. [discoverUsers] returns, in ascending order, exactly the names of
    the directories of the data root that are not excluded and start with
    neither an underscore nor a dot; it changes nothing beyond what reading
    the directory does.  When the directory cannot be read it throws an
    [Error] whose message names the data root and carries the message of
    the error caught. *)
Theorem discoverUsers_lists_users :
  forall (readdirSync_entries : jsstring -> M (list Dirent)) (ToString : JsVal -> jsstring)
         (dataRoot : jsstring) (excludeDirs : list JsVal) (w : World),
    (forall entries w1,
        readdirSync_entries dataRoot w = (Ok entries, w1) ->
        exists users,
          discoverUsers readdirSync_entries ToString dataRoot excludeDirs w = (Ok users, w1)
          /\ Sorted str_le users
          /\ forall h,
               In h users
               <-> (exists e, In e entries /\ name e = h /\ isDirectory e = true)
                   /\ BulkSettings.includes_string excludeDirs h = false
                   /\ JsonMerge.starts_with 95 h = false
                   /\ JsonMerge.starts_with 46 h = false)
    /\ (forall err w1,
          readdirSync_entries dataRoot w = (Raise err, w1) ->
          nullish err = false ->
          discoverUsers readdirSync_entries ToString dataRoot excludeDirs w
          = (Raise (Error (str "Cannot read data directory " ++ quoted dataRoot ++ str ": "
                           ++ ToString (own_prop err (str "message")))), w1)).
Proof.
  intros readdirSync_entries ToString dataRoot excludeDirs w. split.
  - intros entries w1 Hread. exists (sort (user_names entries excludeDirs)).
    split; [|split].
    + unfold discoverUsers, mbind, try_catch. by rewrite Hread.
    + apply sort_Sorted.
    + intros h. rewrite <- user_names_In.
      split; apply Permutation_in; [|symmetry]; apply sort_Permutation.
  - intros err w1 Hread Herr.
    unfold discoverUsers, mbind, try_catch, ContentIndex.lift, throw. rewrite Hread.
    by destruct err.
Qed.

(** A data root with two users, the scaffold and a stray file. *)
Definition listing : list Dirent :=
  [mkDirent (str "zoe") true; mkDirent (str "default") true; mkDirent (str "_storage") true;
   mkDirent (str "alice") true; mkDirent (str ".git") true;
   mkDirent (str "cookie-secret.txt") false].

Lemma discoverUsers_lists_users_witness :
  exists users,
    discoverUsers (fun _ => ret listing) (fun _ => []) (str "/data")
      [JStr (str "default"); JStr (str "_storage")] (mkWorld ∅ [] [])
    = (Ok users, mkWorld ∅ [] [])
    /\ Sorted str_le users
    /\ (In (str "alice") users /\ ~ In (str "default") users).
Proof.
  destruct (discoverUsers_lists_users (fun _ => ret listing) (fun _ => []) (str "/data")
              [JStr (str "default"); JStr (str "_storage")] (mkWorld ∅ [] []))
    as [Hlist _].
  destruct (Hlist listing (mkWorld ∅ [] []) eq_refl) as (users & Hrun & Hsorted & Hin).
  exists users. split; [exact Hrun|]. split; [exact Hsorted|]. split.
  - apply Hin. split; [|by vm_compute].
    exists (mkDirent (str "alice") true). split; [|done]. simpl. tauto.
  - intros Hd. apply Hin in Hd as (_ & Hd & _). vm_compute in Hd. discriminate.
Defined.

(** X23. [getUserStats] never throws, whatever the platform calls do:
    it returns the counts of the [.png] names in [characters], of the
    directories in [chats] and of the [.json] names in [worlds], each [0]
    when its directory cannot be read, and [hasSettings] tells whether
    [statSync] on [settings.json] succeeded. *)
Theorem getUserStats_never_throws :
  forall (P : PathOps) (readdirSync_entries : jsstring -> M (list Dirent))
         (readdirSync : jsstring -> M (list jsstring)) (statSync : jsstring -> M unit)
         (dataRoot handle : jsstring) (w : World),
    let userDir := join [dataRoot; handle] in
    let characters := readdirSync (join [userDir; str "characters"]) w in
    let chats := readdirSync_entries (join [userDir; str "chats"]) (snd characters) in
    let worlds := readdirSync (join [userDir; str "worlds"]) (snd chats) in
    let settings := statSync (join [userDir; str "settings.json"]) (snd worlds) in
    getUserStats readdirSync_entries readdirSync statSync dataRoot handle w
    = (Ok (mkStats (counted (fun f => endsWith f (str ".png")) (fst characters))
                   (counted isDirectory (fst chats))
                   (counted (fun f => endsWith f (str ".json")) (fst worlds))
                   (succeeded (fst settings))),
       snd settings).
Proof.
  intros P readdirSync_entries readdirSync statSync dataRoot handle w. cbn zeta.
  unfold getUserStats, mbind, try_catch, ret.
  destruct (readdirSync (join [join [dataRoot; handle]; str "characters"]) w)
    as [[names|e] w1]; cbn [fst snd];
  destruct (readdirSync_entries (join [join [dataRoot; handle]; str "chats"]) w1)
    as [[entries|e2] w2]; cbn [fst snd];
  destruct (readdirSync (join [join [dataRoot; handle]; str "worlds"]) w2)
    as [[names3|e3] w3]; cbn [fst snd];
  by destruct (statSync (join [join [dataRoot; handle]; str "settings.json"]) w3)
    as [[[]|e4] w4].
Qed.

End Users.

(* ===================================================================== *)
(** * The configuration loader: src/config.js                             *)
(* ===================================================================== *)

Module ConfigLoader.

Import Fs.
Local Open Scope io_scope.

Definition DEFAULTS : list (jsstring * JsVal) :=
  [(str "stRoot", JStr (str "/root/SillyTavern"));
   (str "dataRoot", JStr (str "/root/SillyTavern/data"));
   (str "scaffoldDir", JStr (str "/root/SillyTavern/data/default/scaffold"));
   (str "contentDir", JStr (str "/root/SillyTavern/data/default/content"));
   (str "backupRoot", JStr (str "/root/SillyTavern/data/_admin-backups"));
   (str "excludeDirs", arr [JStr (str "default"); JStr (str "_storage")]);
   (str "serverPort", int 8000);
   (str "pm2Name", JStr (str "sillytavern"));
   (str "dryRun", JBool false)].

Definition REQUIRED_KEYS : list jsstring :=
  [str "stRoot"; str "dataRoot"; str "scaffoldDir"; str "contentDir"; str "backupRoot"].

(** [config[key] = value] in a module, that is in strict mode: creating a
    property on a primitive throws. *)
Definition put (config : JsVal) (key : jsstring) (value : JsVal) : Res JsVal :=
  match config with
  | JObj _ | JArr _ _ => Lodash.assign config key value
  | JUndefined | JNull => Raise (TypeError "Cannot set properties of null or undefined")
  | _ => Raise (TypeError "Cannot create property")
  end.

(** [for (const [key, value] of Object.entries(DEFAULTS))
       if (config[key] === undefined) config[key] = value] *)
Fixpoint fill_defaults (config : JsVal) (defaults : list (jsstring * JsVal)) : Res JsVal :=
  match defaults with
  | [] => Ok config
  | (key, value) :: rest =>
      bind (member config key) (fun current =>
      match current with
      | JUndefined => bind (put config key value) (fun config' => fill_defaults config' rest)
      | _ => fill_defaults config rest
      end)
  end.

(** [for (const key of REQUIRED_KEYS) if (!config[key]) ...]: the first
    required key whose value is falsy, if any. *)
Fixpoint missing_key (config : JsVal) (keys : list jsstring) : Res (option jsstring) :=
  match keys with
  | [] => Ok None
  | key :: rest =>
      bind (member config key) (fun v =>
      if truthy v then missing_key config rest else Ok (Some key))
  end.

(** How [loadConfig] ends: with the (frozen) configuration, or in
    [process.exit]. *)
Inductive Outcome : Type :=
| Loaded (config : JsVal)
| Exit (code : Z).

(** [existsSync(v)]: false, without a look at the disk, for a value that
    is not a path. *)
Definition existsSync_value (v : JsVal) : M bool :=
  match v with
  | JStr p => existsSync p
  | _ => ret false
  end.

(** [validatePaths(config)]: two looks at the disk.  What the loader prints
    ([log.warn], [log.error]) is not part of the model. *)
Definition validatePaths (config : JsVal) : M unit :=
  let* stRoot := ContentIndex.lift (member config (str "stRoot")) in
  do* existsSync_value stRoot in
  let* dataRoot := ContentIndex.lift (member config (str "dataRoot")) in
  do* existsSync_value dataRoot in
  ret tt.

Section WithJSON.

Variable JSON_parse : jsstring -> Res JsVal.

(** The resolved path of [config.json], and the interactive set-up, which
    ends in [process.exit(0)] when a prompt is cancelled. *)
Variable CONFIG_PATH : jsstring.
Variable createConfigInteractively : M Outcome.

(** The loader once the configuration object is at hand. *)
Definition complete (config : JsVal) : M Outcome :=
  let* filled := ContentIndex.lift (fill_defaults config DEFAULTS) in
  let* missing := ContentIndex.lift (missing_key filled REQUIRED_KEYS) in
  match missing with
  | Some _ => ret (Exit 1)
  | None =>
      do* validatePaths filled in
      ret (Loaded filled)
  end.

(** [loadConfig()] *)
Definition loadConfig : M Outcome :=
  let* present := existsSync CONFIG_PATH in
  if present then
    let* parsed :=
      try_catch
        (let* raw := readFileSync CONFIG_PATH in
         let* config := ContentIndex.lift (JSON_parse raw) in
         ret (Some config))
        (fun err =>
           let* message := ContentIndex.lift (member err (str "message")) in
           ret None) in
    match parsed with
    | Some config => complete config
    | None => ret (Exit 1)
    end
  else
    let* made := createConfigInteractively in
    match made with
    | Loaded config => complete config
    | Exit code => ret (Exit code)
    end.

End WithJSON.

(** ** Properties *)

(** The value a configuration object gives a key, after the defaults. *)
Definition with_default (ps : list (jsstring * JsVal)) (key : jsstring) : JsVal :=
  match own_prop (JObj ps) key with
  | JUndefined => default JUndefined (assoc key DEFAULTS)
  | v => v
  end.

(** A required key that the file sets to a falsy value. *)
Definition falsy_required (ps : list (jsstring * JsVal)) (key : jsstring) : Prop :=
  In key REQUIRED_KEYS
  /\ own_prop (JObj ps) key <> JUndefined
  /\ truthy (own_prop (JObj ps) key) = false.

Lemma fill_defaults_object (defaults : list (jsstring * JsVal)) :
  Forall (fun kv => kv.2 <> JUndefined) defaults ->
  forall ps, exists ps',
    fill_defaults (JObj ps) defaults = Ok (JObj ps')
    /\ forall key,
         own_prop (JObj ps') key
         = match own_prop (JObj ps) key with
           | JUndefined => default JUndefined (assoc key defaults)
           | v => v
           end.
Proof.
  induction 1 as [|[k d] rest Hd Hrest IH]; intros ps.
  - exists ps. split; [done|]. intros key. by destruct (own_prop (JObj ps) key).
  - cbn [fill_defaults member bind]. cbn [snd] in Hd.
    assert (Hset : forall key,
               own_prop (JObj (JSON.set_prop k d ps)) key
               = if jsstring_eqb key k then d else own_prop (JObj ps) key).
    { intros key. cbn [own_prop]. destruct (jsstring_eqb key k) eqn:E.
      - apply jsstring_eqb_eq in E. subst key. by rewrite Lodash.assoc_set_prop_eq.
      - rewrite Lodash.assoc_set_prop_ne; [done|].
        intros ->. by rewrite jsstring_eqb_refl in E. }
    destruct (own_prop (JObj ps) k) eqn:Hk.
    + cbn [put Lodash.assign bind].
      destruct (IH (JSON.set_prop k d ps)) as (ps' & Hfill & Hown).
      exists ps'. split; [done|]. intros key. rewrite Hown, Hset. cbn [assoc].
      destruct (jsstring_eqb key k) eqn:E.
      * apply jsstring_eqb_eq in E. subst key. rewrite Hk. by destruct d.
      * done.
    + destruct (IH ps) as (ps' & Hfill & Hown). exists ps'. split; [done|].
      intros key. rewrite Hown. cbn [assoc].
      destruct (jsstring_eqb key k) eqn:E; [|done].
      apply jsstring_eqb_eq in E. subst key. by rewrite Hk.
    + destruct (IH ps) as (ps' & Hfill & Hown). exists ps'. split; [done|].
      intros key. rewrite Hown. cbn [assoc].
      destruct (jsstring_eqb key k) eqn:E; [|done].
      apply jsstring_eqb_eq in E. subst key. by rewrite Hk.
    + destruct (IH ps) as (ps' & Hfill & Hown). exists ps'. split; [done|].
      intros key. rewrite Hown. cbn [assoc].
      destruct (jsstring_eqb key k) eqn:E; [|done].
      apply jsstring_eqb_eq in E. subst key. by rewrite Hk.
    + destruct (IH ps) as (ps' & Hfill & Hown). exists ps'. split; [done|].
      intros key. rewrite Hown. cbn [assoc].
      destruct (jsstring_eqb key k) eqn:E; [|done].
      apply jsstring_eqb_eq in E. subst key. by rewrite Hk.
    + destruct (IH ps) as (ps' & Hfill & Hown). exists ps'. split; [done|].
      intros key. rewrite Hown. cbn [assoc].
      destruct (jsstring_eqb key k) eqn:E; [|done].
      apply jsstring_eqb_eq in E. subst key. by rewrite Hk.
    + destruct (IH ps) as (ps' & Hfill & Hown). exists ps'. split; [done|].
      intros key. rewrite Hown. cbn [assoc].
      destruct (jsstring_eqb key k) eqn:E; [|done].
      apply jsstring_eqb_eq in E. subst key. by rewrite Hk.
Qed.

Lemma DEFAULTS_defined : Forall (fun kv => kv.2 <> JUndefined) DEFAULTS.
Proof. repeat constructor; discriminate. Qed.

Lemma missing_key_spec (ps : list (jsstring * JsVal)) (keys : list jsstring) :
  (exists key, missing_key (JObj ps) keys = Ok (Some key)
               /\ In key keys /\ truthy (own_prop (JObj ps) key) = false)
  \/ (missing_key (JObj ps) keys = Ok None
      /\ forall key, In key keys -> truthy (own_prop (JObj ps) key) = true).
Proof.
  induction keys as [|k rest IH]; [right; by split|].
  cbn [missing_key member bind]. destruct (truthy (own_prop (JObj ps) k)) eqn:Hk.
  - destruct IH as [(key & Hrun & Hin & Hfalsy)|[Hrun Hall]].
    + left. exists key. split; [done|]. split; [by right|done].
    + right. split; [done|]. intros key [<-|Hin]; [done|by apply Hall].
  - left. exists k. split; [done|]. split; [by left|done].
Qed.

Lemma required_defaults_truthy (key : jsstring) :
  In key REQUIRED_KEYS -> truthy (default JUndefined (assoc key DEFAULTS)) = true.
Proof.
  intros Hin. repeat (destruct Hin as [<-|Hin]; [reflexivity|]). destruct Hin.
Qed.

(** X22. How [loadConfig] completes a configuration object: every key the
    file gives a value keeps it, every other key of the defaults gets its
    default, and the loader exits with code 1 exactly when the file sets a
    required key to a falsy value ([null], [false], [0], the empty string);
    a required key the file leaves out is never missing.  Otherwise the
    completed object is returned and nothing on disk has changed.  A file
    that cannot be read or parsed also ends in exit code 1, not in an
    exception. *)
Theorem loadConfig_completes :
  forall (ps : list (jsstring * JsVal)) (w : World),
    exists filled,
      fill_defaults (JObj ps) DEFAULTS = Ok (JObj filled)
      /\ (forall key, own_prop (JObj filled) key = with_default ps key)
      /\ ((exists key, falsy_required ps key) ->
          complete (JObj ps) w = (Ok (Exit 1), w))
      /\ ((forall key, ~ falsy_required ps key) ->
          exists w', complete (JObj ps) w = (Ok (Loaded (JObj filled)), w')
                     /\ files w' = files w)
      /\ (forall JSON_parse CONFIG_PATH interactive raw e,
            FsFacts.file_at (files w) CONFIG_PATH = Some raw ->
            JSON_parse raw = Raise e -> nullish e = false ->
            exists w', loadConfig JSON_parse CONFIG_PATH interactive w = (Ok (Exit 1), w')
                       /\ files w' = files w).
Proof.
  intros ps w.
  destruct (fill_defaults_object DEFAULTS DEFAULTS_defined ps) as (filled & Hfill & Hown).
  exists filled. split; [done|]. split; [exact Hown|].
  assert (Htruthy : forall key, In key REQUIRED_KEYS ->
            truthy (own_prop (JObj filled) key) = false <-> falsy_required ps key).
  { intros key Hin. rewrite Hown. unfold falsy_required.
    pose proof (required_defaults_truthy key Hin) as Hd.
    destruct (own_prop (JObj ps) key) eqn:Hk; split; try done;
      try (intros Hf; by repeat split); try (by intros (_ & _ & ?));
      try (intros Hf; congruence); by intros (_ & ? & _). }
  split; [|split].
  - intros (key & Hkey). unfold complete, mbind, ContentIndex.lift. rewrite Hfill.
    destruct (missing_key_spec filled REQUIRED_KEYS) as [(k & -> & _)|[_ Hall]]; [done|].
    pose proof Hkey as (Hin & _).
    apply (Htruthy key Hin) in Hkey. by rewrite (Hall key Hin) in Hkey.
  - intros Hnone. unfold complete, mbind, ContentIndex.lift. rewrite Hfill.
    destruct (missing_key_spec filled REQUIRED_KEYS) as [(k & _ & Hin & Hfalsy)|[-> _]].
    + apply (Htruthy k Hin) in Hfalsy. by destruct (Hnone k).
    + unfold validatePaths, mbind, ContentIndex.lift. cbn [member].
      destruct w as [fs now tr].
      destruct (own_prop (JObj filled) (str "stRoot"));
        destruct (own_prop (JObj filled) (str "dataRoot"));
        cbn [existsSync_value]; eexists; split; reflexivity.
  - intros JSON_parse CONFIG_PATH interactive raw e Hraw Hbad He.
    destruct w as [fs now tr]. cbn [files] in *.
    apply FsFacts.file_at_follow in Hraw as (q & Hq).
    unfold loadConfig, try_catch, existsSync, readFileSync, emit, get_files, ret,
      ContentIndex.lift, exists_in, mbind.
    io_simpl. rewrite Hq. io_simpl. rewrite Hq, Hbad.
    destruct e; try done; eexists; split; reflexivity.
Qed.

(** A file that sets the data root to [null] and leaves the rest out. *)
Lemma loadConfig_completes_witness :
  complete (JObj [(str "dataRoot", JNull)]) (mkWorld ∅ [] []) = (Ok (Exit 1), mkWorld ∅ [] [])
  /\ exists w' filled,
       complete (JObj [(str "serverPort", int 9000)]) (mkWorld ∅ [] [])
       = (Ok (Loaded (JObj filled)), w')
       /\ own_prop (JObj filled) (str "serverPort") = int 9000
       /\ own_prop (JObj filled) (str "dataRoot") = JStr (str "/root/SillyTavern/data").
Proof.
  split.
  - destruct (loadConfig_completes [(str "dataRoot", JNull)] (mkWorld ∅ [] []))
      as (filled & _ & _ & Hexit & _).
    apply Hexit. exists (str "dataRoot"). split; [simpl; tauto|]. by split.
  - destruct (loadConfig_completes [(str "serverPort", int 9000)] (mkWorld ∅ [] []))
      as (filled & _ & Hown & _ & Hload & _).
    destruct Hload as (w' & Hrun & _).
    + intros key (Hin & Hdef & _).
      repeat (destruct Hin as [<-|Hin]; [by apply Hdef|]). destruct Hin.
    + exists w', filled. split; [exact Hrun|]. by rewrite !Hown.
Defined.

End ConfigLoader.
